(** * Real-time sensor coordination core of the crossword companion

    A shallow embedding of
      - [src/audio/audio_stream.py]      (ring buffer with consumer cursors),
      - [src/audio/google_transcriber.py] (mute substitution, reconnect policy),
      - [src/video/emotion_detector.py]  (emotion span tracker),
      - [src/main.py]                   (idle injection, reply parsing),
    and the properties of these functions.

    Conventions.  A Python call that raises is modelled by [None] (or by an
    explicit exception constructor where the kind of exception matters).
    Wall-clock readings ([time.time()]) are inputs of the model; timestamps
    and durations are exact rationals, and [round(x, 2)] rounds them to
    hundredths, ties to even.  Calls made by different threads are
    interleaved at the granularity of the sections they run under a lock;
    where a thread reads or writes shared fields outside the lock, its steps
    are taken one by one ([EmotionDetector.act]). *)

From stdpp Require Import gmap strings list.
From Stdlib Require Import ZArith QArith Qround Qabs Lia Lqa.

Local Open Scope nat_scope.

(** ** Python and numpy operations used by the sources *)

Module Py.
Section Slices.
Context {A : Type}.

(** Slices with non-negative bounds. *)

(** [l[a:b]] *)
Definition slice (l : list A) (a b : nat) : list A := take (b - a) (drop a l).

(** [l[-n:]]; Python reads [-0] as [0], so [l[-0:]] is the whole list. *)
Definition neg_slice_from (l : list A) (n : nat) : list A :=
  if decide (n = 0) then l else drop (length l - n) l.

(** numpy [l[a:b] = data]: the target has [length (slice l a b)] rows;
    [data] must have as many rows, or exactly one row (broadcast);
    any other shape raises [ValueError]. *)
Definition assign_slice (l : list A) (a b : nat) (data : list A) : option (list A) :=
  let n := length (slice l a b) in
  if decide (length data = n) then Some (take a l ++ data ++ drop (a + n) l)
  else match data with
       | [x] => Some (take a l ++ replicate n x ++ drop (a + n) l)
       | _ => None
       end.

(** [a % b] on non-negative integers; [ZeroDivisionError] when [b = 0]. *)
Definition mod_ (a b : nat) : option nat :=
  if decide (b = 0) then None else Some (a mod b).
End Slices.

(** A Python [str] is held as its UTF-8 bytes. *)
Definition chars (s : string) : list Ascii.ascii := String.list_ascii_of_string s.
Definition of_chars (l : list Ascii.ascii) : string := String.string_of_list_ascii l.

(** The white space of [str.strip()]: the code points 9 to 13, 28 to 32,
    U+0085, U+00A0, U+1680, U+2000 to U+200A, U+2028, U+2029, U+202F, U+205F
    and U+3000, each by its encoding. *)
Definition whitespace : list (list Ascii.ascii) :=
  map (map Ascii.ascii_of_nat)
  [[9]; [10]; [11]; [12]; [13]; [28]; [29]; [30]; [31]; [32];
   [194; 133]; [194; 160]; [225; 154; 128];
   [226; 128; 128]; [226; 128; 129]; [226; 128; 130]; [226; 128; 131];
   [226; 128; 132]; [226; 128; 133]; [226; 128; 134]; [226; 128; 135];
   [226; 128; 136]; [226; 128; 137]; [226; 128; 138];
   [226; 128; 168]; [226; 128; 169]; [226; 128; 175];
   [226; 129; 159]; [227; 128; 128]].

(** [l] starts with the bytes [e]. *)
Fixpoint starts_with (e l : list Ascii.ascii) : bool :=
  match e, l with
  | [], _ => true
  | a :: e, b :: l => Ascii.eqb a b && starts_with e l
  | _ :: _, [] => false
  end.

(** The number of bytes of the character of [spaces] that [l] starts with,
    [0] when it starts with none. *)
Definition space_len (spaces : list (list Ascii.ascii)) (l : list Ascii.ascii) : nat :=
  match List.find (λ e, starts_with e l) spaces with
  | Some e => length e
  | None => 0
  end.

(** Dropping the characters of [spaces] that [l] starts with; [skip] bytes
    of the character being dropped are still to go. *)
Fixpoint drop_spaces (spaces : list (list Ascii.ascii)) (skip : nat)
    (l : list Ascii.ascii) : list Ascii.ascii :=
  match l with
  | [] => []
  | _ :: l' =>
    match skip with
    | S skip => drop_spaces spaces skip l'
    | 0 =>
      match space_len spaces l with
      | 0 => l
      | S skip => drop_spaces spaces skip l'
      end
    end
  end.

(** [s.lstrip()] and [s.rstrip()]; from the right the bytes are read last
    to first. *)
Definition lstrip (s : string) : string :=
  of_chars (drop_spaces whitespace 0 (chars s)).

Definition rstrip (s : string) : string :=
  of_chars (List.rev (drop_spaces (map (@List.rev Ascii.ascii) whitespace) 0
                                  (List.rev (chars s)))).

(** [s.strip()] *)
Definition strip (s : string) : string := rstrip (lstrip s).

Definition lower_char (a : Ascii.ascii) : Ascii.ascii :=
  let n := Ascii.nat_of_ascii a in
  if (65 <=? n) && (n <=? 90) then Ascii.ascii_of_nat (n + 32) else a.

(** [s.lower()] on the ASCII letters; the other bytes are kept.  The
    sources compare the result with an ASCII word only. *)
Fixpoint lower (s : string) : string :=
  match s with
  | String a s' => String (lower_char a) (lower s')
  | EmptyString => EmptyString
  end.

(** [x < y] and [max(x, y)] on real numbers. *)
Definition ltb (x y : Q) : bool := negb (Qle_bool y x).
Definition max (x y : Q) : Q := if ltb x y then y else x.

(** [int(x)] on a real number: truncation toward zero. *)
Definition int (x : Q) : Z := Z.quot (Qnum x) (Zpos (Qden x)).

(** Round half to even, to the nearest integer. *)
Definition round_half_even (x : Q) : Z :=
  let f := Qfloor x in
  match (x - inject_Z f ?= 1 # 2)%Q with
  | Lt => f
  | Gt => (f + 1)%Z
  | Eq => if Z.even f then f else (f + 1)%Z
  end.

(** [round(x, 2)]: the nearest multiple of 0.01, ties to even. *)
Definition round2 (x : Q) : Q := Qred (round_half_even (x * 100) # 100).

(** A call that returns a value or raises. *)
Inductive outcome (E A : Type) : Type :=
  | Returns (a : A)
  | Raises (e : E).
Arguments Returns {E A} a.
Arguments Raises {E A} e.
End Py.

(** The last [n] elements of a list (all of it when it is shorter). *)
Definition lastn {A} (n : nat) (l : list A) : list A := drop (length l - n) l.

(** ** AudioStream: [src/audio/audio_stream.py] *)

Module AudioStream.

(** One row of the [(frames, channels)] sample array: one int16 per channel. *)
Definition frame : Type := list Z.

Record t : Type := mk {
  channels : nat;
  capacity : nat;
  ring_buffer : list frame;
  write_index : nat;
  total_written : nat;
  stopped : bool;
  last_reads : gmap string nat;
}.

(** [__init__], once [capacity = int(samplerate * buffer_duration)] is known. *)
Definition init (cap chans : nat) : t :=
  {| channels := chans; capacity := cap;
     ring_buffer := replicate cap (replicate chans 0%Z);
     write_index := 0; total_written := 0; stopped := false;
     last_reads := ∅ |}.

(** [_audio_callback(indata, ...)] *)
Definition _audio_callback (indata : list frame) (s : t) : option t :=
  let num_frames := length indata in
  let '(indata, num_frames) :=
    if decide (capacity s < num_frames)
    then (Py.neg_slice_from indata (capacity s), capacity s)
    else (indata, num_frames) in
  let end_index := write_index s + num_frames in
  rb ← (if decide (end_index ≤ capacity s)
        then Py.assign_slice (ring_buffer s) (write_index s) end_index indata
        else
          let first_part := capacity s - write_index s in
          rb1 ← Py.assign_slice (ring_buffer s) (write_index s)
                  (length (ring_buffer s)) (take first_part indata);
          Py.assign_slice rb1 0 (num_frames - first_part) (drop first_part indata));
  wi ← Py.mod_ (write_index s + num_frames) (capacity s);
  Some {| channels := channels s; capacity := capacity s;
          ring_buffer := rb; write_index := wi;
          total_written := total_written s + num_frames;
          stopped := stopped s; last_reads := last_reads s |}.

(** [register_consumer(consumer_id)] *)
Definition register_consumer (cid : string) (s : t) : t :=
  {| channels := channels s; capacity := capacity s;
     ring_buffer := ring_buffer s; write_index := write_index s;
     total_written := total_written s; stopped := stopped s;
     last_reads := <[cid := 0]> (last_reads s) |}.

Definition set_last_read (cid : string) (v : nat) (s : t) : t :=
  {| channels := channels s; capacity := capacity s;
     ring_buffer := ring_buffer s; write_index := write_index s;
     total_written := total_written s; stopped := stopped s;
     last_reads := <[cid := v]> (last_reads s) |}.

(** [get_new_audio_chunks(consumer_id)]: the returned array and the new state.
    [new_count <= 0] is [total_written <= last_read] on naturals. *)
Definition get_new_audio_chunks (cid : string) (s : t) : option (list frame * t) :=
  match last_reads s !! cid with
  | None => Some ([], s)
  | Some lr =>
    if decide (total_written s ≤ lr) then Some ([], s)
    else
      let new_count := total_written s - lr in
      let lr := if decide (capacity s < new_count)
                then total_written s - capacity s else lr in
      start_index ← Py.mod_ lr (capacity s);
      end_index ← Py.mod_ (total_written s) (capacity s);
      let new_data :=
        if decide (start_index < end_index)
        then Py.slice (ring_buffer s) start_index end_index
        else drop start_index (ring_buffer s) ++ take end_index (ring_buffer s) in
      Some (new_data, set_last_read cid (total_written s) s)
  end.

(** [get_audio_data()] *)
Definition get_audio_data (s : t) : list frame :=
  if decide (total_written s < capacity s)
  then take (write_index s) (ring_buffer s)
  else drop (write_index s) (ring_buffer s) ++ take (write_index s) (ring_buffer s).

(** *** Scripts of calls on one stream *)

Inductive op : Type :=
  | Write (indata : list frame)
  | Register (cid : string)
  | Read (cid : string).

Definition step (o : op) (s : t) : option t :=
  match o with
  | Write d => _audio_callback d s
  | Register c => Some (register_consumer c s)
  | Read c => snd <$> get_new_audio_chunks c s
  end.

Fixpoint run (ops : list op) (s : t) : option t :=
  match ops with
  | [] => Some s
  | o :: ops => s' ← step o s; run ops s'
  end.

(** What the script says, independently of the ring: every sample the
    callback was handed, and for each registered consumer the samples handed
    over since it last read (since the start of capture, if it has not yet
    read since registering). *)
Record log : Type := mkLog {
  written : list frame;
  unread : gmap string (list frame);
}.

Definition log_step (o : op) (g : log) : log :=
  match o with
  | Write d => {| written := written g ++ d; unread := (λ b, b ++ d) <$> unread g |}
  | Register c => {| written := written g; unread := <[c := written g]> (unread g) |}
  | Read c => {| written := written g; unread := alter (λ _, []) c (unread g) |}
  end.

Fixpoint log_run (ops : list op) (g : log) : log :=
  match ops with
  | [] => g
  | o :: ops => log_run ops (log_step o g)
  end.

Definition log0 : log := {| written := []; unread := ∅ |}.

(** The ring read from its oldest slot to its newest. *)
Definition ring_view (s : t) : list frame :=
  drop (write_index s) (ring_buffer s) ++ take (write_index s) (ring_buffer s).

(** *** Invariants *)

(** Shape of the buffer. *)
Definition wf (s : t) : Prop :=
  0 < capacity s ∧ length (ring_buffer s) = capacity s ∧
  write_index s = total_written s mod capacity s.

(** A consumer's cursor against the script's log: the cursor is behind the
    write pointer, and what the log says is unread agrees, on its last
    [capacity] samples, with the samples the cursor still covers. *)
Definition cursor_ok (s : t) (g : log) (c : string) : Prop :=
  match last_reads s !! c, unread g !! c with
  | Some lr, Some b =>
      lr ≤ total_written s ∧
      lastn (capacity s) b = lastn ((total_written s - lr) `min` capacity s) (written g) ∧
      ∃ pre, written g = pre ++ b
  | None, None => True
  | _, _ => False
  end.

Record inv (s : t) (g : log) : Prop := {
  inv_wf : wf s;
  inv_ring :
    lastn (total_written s `min` capacity s) (ring_view s) =
    lastn (total_written s `min` capacity s) (written g);
  inv_count : length (written g) `min` capacity s = total_written s `min` capacity s;
  inv_cursors : ∀ c, cursor_ok s g c;
}.

(** States that calls on a fresh stream can produce. *)
Definition reachable (s : t) : Prop :=
  ∃ cap chans ops, 0 < cap ∧ run ops (init cap chans) = Some s.

End AudioStream.

(** ** GoogleStreamingTranscriber: [src/audio/google_transcriber.py] *)

Module Transcriber.

Definition MUTE_FILL_MS : Z := 100.

(** [grpc.StatusCode] *)
Inductive StatusCode : Type :=
  | OK | CANCELLED | UNKNOWN | INVALID_ARGUMENT | DEADLINE_EXCEEDED
  | NOT_FOUND | ALREADY_EXISTS | PERMISSION_DENIED | RESOURCE_EXHAUSTED
  | FAILED_PRECONDITION | ABORTED | OUT_OF_RANGE | UNIMPLEMENTED
  | INTERNAL | UNAVAILABLE | DATA_LOSS | UNAUTHENTICATED.

#[global] Instance StatusCode_eq_dec : EqDecision StatusCode.
Proof. solve_decision. Defined.

Definition _RETRYABLE : list StatusCode :=
  [INTERNAL; UNAVAILABLE; CANCELLED; DEADLINE_EXCEEDED].

(** *** The audio feed *)

Definition bytes : Type := list Byte.byte.

(** [chunk.tobytes()] for dtype int16: two bytes per sample, low byte first. *)
Definition int16_bytes (z : Z) : bytes :=
  let u := (z mod 65536)%Z in
  match Byte.of_nat (Z.to_nat (u mod 256)), Byte.of_nat (Z.to_nat (u / 256)) with
  | Some lo, Some hi => [lo; hi]
  | _, _ => []
  end.

Definition tobytes (chunk : list AudioStream.frame) : bytes :=
  concat (int16_bytes <$> concat chunk).

(** [chunk.size] *)
Definition size (chunk : list AudioStream.frame) : nat := length (concat chunk).

(** One pass of the [while] loop of [AudioStream.audio_generator] as seen by
    [_audio_iterator]: the capture callback ran on [captured] since the
    previous pass, and [listening_enabled] has the given value when
    [_audio_iterator] resumes with the chunk. *)
Record poll : Type := mkPoll {
  captured : list (list AudioStream.frame);
  enabled_at_yield : bool;
}.

(** [AudioStream.audio_generator(consumer_id)]: the chunks it yields, each
    with the value of [listening_enabled] at that moment. *)
Fixpoint audio_generator (cid : string) (polls : list poll) (s : AudioStream.t)
  : option (list (bytes * bool)) :=
  match polls with
  | [] => Some []
  | p :: polls =>
    s1 ← AudioStream.run (AudioStream.Write <$> captured p) s;
    '(chunk, s2) ← AudioStream.get_new_audio_chunks cid s1;
    rest ← audio_generator cid polls s2;
    Some (if decide (0 < size chunk)
          then (tobytes chunk, enabled_at_yield p) :: rest
          else rest)
  end.

(** [b"\x00" * int(samplerate * MUTE_FILL_MS / 1000 * 2)]; the quotient is
    taken on exact numbers and truncated. *)
Definition silence (samplerate : Z) : bytes :=
  replicate (Z.to_nat (Z.quot (samplerate * MUTE_FILL_MS * 2) 1000)) Byte.x00.

(** [_audio_iterator()], over the items of the generator. *)
Definition _audio_iterator (samplerate : Z) (items : list (bytes * bool)) : list bytes :=
  (λ item : bytes * bool, if item.2 then item.1 else silence samplerate) <$> items.

(** The [audio_content] of the requests built by [_open_rpc]. *)
Definition requests (samplerate : Z) (cid : string) (polls : list poll)
    (s : AudioStream.t) : option (list bytes) :=
  _audio_iterator samplerate <$> audio_generator cid polls s.

(** Two chunks with the same number of rows and of channels. *)
Definition same_shape (c1 c2 : list AudioStream.frame) : Prop :=
  Forall2 (λ f1 f2 : AudioStream.frame, length f1 = length f2) c1 c2.

(** Two passes with the same flag, whose samples differ at most when the
    flag is false as the chunk is yielded. *)
Definition differ_only_muted (p1 p2 : poll) : Prop :=
  enabled_at_yield p1 = enabled_at_yield p2 ∧
  Forall2 same_shape (captured p1) (captured p2) ∧
  (enabled_at_yield p1 = true → captured p1 = captured p2).

(** *** The worker loop *)

(** The first alternative's transcript and the [is_final] flag of each result. *)
Record result : Type := mkResult {
  alternatives : list string;
  is_final : bool;
}.

Definition response : Type := list result.

Record t : Type := mk {
  listening_enabled : bool;
  shutdown : bool;                       (* _shutdown.is_set() *)
  last_activity : Q;
  transcription_queue : list string;     (* oldest first *)
  backoff : nat;                         (* next value of the itertools.count *)
  alive : bool;                          (* the worker is inside _transcribe_loop *)
  sleeps : list Z;                       (* arguments of time.sleep, oldest first *)
  reopens : nat;                         (* calls of _restart_rpc *)
}.

Definition init (now : Q) : t :=
  {| listening_enabled := true; shutdown := false; last_activity := now;
     transcription_queue := []; backoff := 0; alive := false;
     sleeps := []; reopens := 0 |}.

Definition pause_listening (w : t) : t :=
  {| listening_enabled := false; shutdown := shutdown w; last_activity := last_activity w;
     transcription_queue := transcription_queue w; backoff := backoff w;
     alive := alive w; sleeps := sleeps w; reopens := reopens w |}.

Definition resume_listening (w : t) : t :=
  {| listening_enabled := true; shutdown := shutdown w; last_activity := last_activity w;
     transcription_queue := transcription_queue w; backoff := backoff w;
     alive := alive w; sleeps := sleeps w; reopens := reopens w |}.

Definition set_alive (b : bool) (w : t) : t :=
  {| listening_enabled := listening_enabled w; shutdown := shutdown w; last_activity := last_activity w;
     transcription_queue := transcription_queue w; backoff := backoff w;
     alive := b; sleeps := sleeps w; reopens := reopens w |}.

Definition set_backoff (n : nat) (w : t) : t :=
  {| listening_enabled := listening_enabled w; shutdown := shutdown w; last_activity := last_activity w;
     transcription_queue := transcription_queue w; backoff := n;
     alive := alive w; sleeps := sleeps w; reopens := reopens w |}.

Definition _restart_rpc (w : t) : t :=
  {| listening_enabled := listening_enabled w; shutdown := shutdown w; last_activity := last_activity w;
     transcription_queue := transcription_queue w; backoff := backoff w;
     alive := alive w; sleeps := sleeps w; reopens := S (reopens w) |}.

Definition sleep (delay : Z) (w : t) : t :=
  {| listening_enabled := listening_enabled w; shutdown := shutdown w; last_activity := last_activity w;
     transcription_queue := transcription_queue w; backoff := backoff w;
     alive := alive w; sleeps := sleeps w ++ [delay]; reopens := reopens w |}.

(** [stop()] as far as the worker sees it: [_shutdown.set()]. *)
Definition stop (w : t) : t :=
  {| listening_enabled := listening_enabled w; shutdown := true; last_activity := last_activity w;
     transcription_queue := transcription_queue w; backoff := backoff w;
     alive := alive w; sleeps := sleeps w; reopens := reopens w |}.

(** [_handle_response(response)]; [None] is the [IndexError] of
    [result.alternatives[0]]. *)
Definition _handle_response (r : response) (now : Q) (w : t) : option t :=
  match r with
  | [] => Some w
  | res :: _ =>
    match alternatives res with
    | [] => None
    | text :: _ =>
      let heard := negb (String.eqb (Py.strip text) EmptyString) in
      let la := if heard then now else last_activity w in
      let q := if is_final res && heard
               then transcription_queue w ++ [Py.strip text]
               else transcription_queue w in
      Some {| listening_enabled := listening_enabled w; shutdown := shutdown w; last_activity := la;
              transcription_queue := q; backoff := backoff w;
              alive := alive w; sleeps := sleeps w; reopens := reopens w |}
    end
  end.

(** What the worker meets next while it iterates [responses]. *)
Inductive event : Type :=
  | Response (r : response) (now : Q)      (* the stream delivers a response *)
  | StreamEnd                              (* the stream is exhausted *)
  | RaiseOutOfRange                        (* google.api_core OutOfRange *)
  | RaiseRpcError (code : StatusCode)      (* grpc.RpcError, err.code() = code *)
  | RaiseGoogleAPICallError                (* any other GoogleAPICallError *)
  | RaiseOther                             (* an exception no clause catches *)
  | Stop.                                  (* another thread calls stop() *)

(** The top of [while not self._shutdown.is_set()]. *)
Definition while_check (w : t) : t :=
  if shutdown w then set_alive false w else w.

(** One event of [_transcribe_loop]. *)
Definition step (e : event) (w : t) : t :=
  if negb (alive w) then
    match e with Stop => stop w | _ => w end
  else
    match e with
    | Response r now =>
      match _handle_response r now w with
      | None => set_alive false w
      | Some w =>
        let w := set_backoff 0 w in
        if shutdown w then set_alive false w else w
      end
    | StreamEnd =>
      if shutdown w then set_alive false w else _restart_rpc w
    | RaiseOutOfRange => while_check (_restart_rpc w)
    | RaiseRpcError code =>
      if bool_decide (code ∈ _RETRYABLE) && negb (shutdown w) then
        let delay := Z.min (2 ^ Z.of_nat (backoff w)) 30 in
        while_check (_restart_rpc (sleep delay (set_backoff (S (backoff w)) w)))
      else set_alive false w
    | RaiseGoogleAPICallError => set_alive false w
    | RaiseOther => set_alive false w
    | Stop => stop w
    end.

Definition run_events (events : list event) (w : t) : t :=
  foldl (λ w e, step e w) w events.

(** The retryable codes as the specification lists them. *)
Definition listed_retryable : list StatusCode :=
  [RESOURCE_EXHAUSTED; UNAVAILABLE; CANCELLED; DEADLINE_EXCEEDED].

(** [start()] followed by the events the worker meets: [_open_rpc()],
    a fresh counter, then the loop. *)
Definition _transcribe_loop (events : list event) (w : t) : t :=
  run_events events (while_check (set_backoff 0 (set_alive true w))).

(** *** Muting, capture by capture *)

(** What happens around the audio feed, in order: the capture callback
    runs, the turn loop sets the flag ([resume_listening] counts from the
    moment it sets it, after its 0.3 s sleep), the generator makes a pass
    and [_audio_iterator] yields. *)
Inductive mic_event : Type :=
  | Capture (indata : list AudioStream.frame)
  | Pause
  | Resume
  | Poll.

(** The passes of such a script: each holds what was captured since the
    previous pass, with the flag as it is when the pass is made; [enabled]
    is the flag and [pending] what is captured and not yet read. *)
Fixpoint polls_of (events : list mic_event) (enabled : bool)
    (pending : list (list AudioStream.frame)) : list poll :=
  match events with
  | [] => []
  | Capture indata :: events => polls_of events enabled (pending ++ [indata])
  | Pause :: events => polls_of events false pending
  | Resume :: events => polls_of events true pending
  | Poll :: events => mkPoll pending enabled :: polls_of events enabled []
  end.

(** Two scripts with the same events, whose samples differ at most in what
    is captured while the flag is false. *)
Fixpoint differ_only_while_muted (enabled : bool) (es1 es2 : list mic_event) : Prop :=
  match es1, es2 with
  | [], [] => True
  | Capture d1 :: es1, Capture d2 :: es2 =>
      same_shape d1 d2 ∧ (enabled = true → d1 = d2) ∧
      differ_only_while_muted enabled es1 es2
  | Pause :: es1, Pause :: es2 => differ_only_while_muted false es1 es2
  | Resume :: es1, Resume :: es2 => differ_only_while_muted true es1 es2
  | Poll :: es1, Poll :: es2 => differ_only_while_muted enabled es1 es2
  | _, _ => False
  end.

End Transcriber.

(** ** EmotionDetector: [src/video/emotion_detector.py] *)

Module EmotionDetector.
Local Open Scope Q_scope.

(** A camera frame; its pixels play no role here. *)
Definition frame : Type := nat.

(** One entry of the list returned by the classifier. *)
Record detection : Type := mkDetection { emo_label : string }.

(** An exception raised inside the classifier. *)
Inductive classifier_error : Type := ClassifierError.

(** [RMN.detect_emotion_for_single_frame] *)
Definition classifier : Type := frame → Py.outcome classifier_error (list detection).

Record t : Type := mk {
  current_emotion : option string;
  _span_start : Q;
  _emo_spans : list (string * Q);            (* (label, duration) *)
  _history_spans : list (string * Q * Q);    (* (label, start_ts, end_ts) *)
}.

Definition init (now : Q) : t :=
  {| current_emotion := None; _span_start := now;
     _emo_spans := []; _history_spans := [] |}.

(** [start()], as far as the span state goes. *)
Definition start (now : Q) (s : t) : t :=
  {| current_emotion := None; _span_start := now;
     _emo_spans := []; _history_spans := _history_spans s |}.

(** [_detect_emotion(frame)]; [model] is [None] unless the method is "RMN". *)
Definition _detect_emotion (model : option classifier) (f : frame)
  : Py.outcome classifier_error string :=
  match model with
  | None => Py.Returns "no-face"
  | Some m =>
    match m f with
    | Py.Raises e => Py.Raises e
    | Py.Returns dets =>
      Py.Returns (match dets with d :: _ => emo_label d | [] => "no-face" end)
    end
  end.

(** Appending the span that ends at [now] to both lists. *)
Definition close_span (now : Q) (s : t) : t :=
  match current_emotion s with
  | None => s
  | Some cur =>
    let duration := Py.round2 (now - _span_start s) in
    {| current_emotion := current_emotion s; _span_start := _span_start s;
       _emo_spans := _emo_spans s ++ [(cur, duration)];
       _history_spans := _history_spans s ++ [(cur, _span_start s, now)] |}
  end.

(** The part of the loop body of [_run] that follows the classification
    (l.98-109), when no other thread runs in between; [act] below takes its
    steps one by one. *)
Definition on_sample (label : string) (now : Q) (s : t) : t :=
  if decide (Some label = current_emotion s) then s
  else
    let s := close_span now s in
    {| current_emotion := Some label; _span_start := now;
       _emo_spans := _emo_spans s; _history_spans := _history_spans s |}.

(** The sampling thread. *)
Inductive thread : Type :=
  | Sampling (last_ts : Q)
  | Finished
  | Died (e : classifier_error).

(** One pass of [while not self._stop_event.is_set()]. *)
Inductive tick : Type :=
  | Frame (f : option frame) (now : Q)   (* get_frame() and time.time() *)
  | StopEvent (now : Q).                 (* the stop event is set *)

Definition _run_step (model : option classifier) (fps : positive) (k : tick)
    (st : thread * t) : thread * t :=
  match st.1 with
  | Sampling last_ts =>
    match k with
    | Frame None _ => st
    | Frame (Some f) now =>
      if Py.ltb (now - last_ts) (1 # fps) then st
      else
        match _detect_emotion model f with
        | Py.Raises e => (Died e, st.2)
        | Py.Returns label => (Sampling now, on_sample label now st.2)
        end
    | StopEvent now => (Finished, close_span now st.2)
    end
  | _ => st
  end.

Definition run_ticks (model : option classifier) (fps : positive) (ticks : list tick)
    (st : thread * t) : thread * t :=
  foldl (λ st k, _run_step model fps k st) st ticks.

(** [_run()]: [last_ts] starts at [0.0]. *)
Definition _run (model : option classifier) (fps : positive) (ticks : list tick)
    (s : t) : thread * t :=
  run_ticks model fps ticks (Sampling 0, s).

(** [get_summary_and_reset()] *)
Definition get_summary_and_reset (now : Q) (s : t) : list (string * Q) * t :=
  let s := match current_emotion s with
           | None => s
           | Some _ =>
             let s := close_span now s in
             {| current_emotion := current_emotion s; _span_start := now;
                _emo_spans := _emo_spans s; _history_spans := _history_spans s |}
           end in
  (_emo_spans s,
   {| current_emotion := current_emotion s; _span_start := _span_start s;
      _emo_spans := []; _history_spans := _history_spans s |}).

(** The backwards traversal of the history in [get_recent_summary]; [spans]
    is the history, newest first. *)
Fixpoint recent_history (cutoff : Q) (spans : list (string * Q * Q)) : list (string * Q) :=
  match spans with
  | [] => []
  | (label, start, end_) :: spans =>
    if Qle_bool end_ cutoff then []
    else
      let overlap_start := Py.max start cutoff in
      let rounded := Py.round2 (end_ - overlap_start) in
      if Py.ltb 0 rounded then (label, rounded) :: recent_history cutoff spans
      else recent_history cutoff spans
  end.

(** [get_recent_summary(last_seconds)]; the cutoff and the overlaps are taken
    on exact numbers, where the source subtracts floats. *)
Definition get_recent_summary (now last_seconds : Q) (s : t) : list (string * Q) :=
  let cutoff := now - last_seconds in
  let result := recent_history cutoff (reverse (_history_spans s)) in
  let result :=
    match current_emotion s with
    | None => result
    | Some cur =>
      let overlap_start := Py.max (_span_start s) cutoff in
      let rounded := Py.round2 (now - overlap_start) in
      if Py.ltb 0 rounded then result ++ [(cur, rounded)] else result
    end in
  reverse result.

(** Calls on one detector, in the order in which they take the lock. *)
Inductive call : Type :=
  | Sample (label : string) (now : Q)
  | SummaryAndReset (now : Q).

(** The state after [calls], and the summaries returned on the way,
    concatenated. *)
Fixpoint run_calls (calls : list call) (s : t) : list (string * Q) * t :=
  match calls with
  | [] => ([], s)
  | Sample label now :: calls => run_calls calls (on_sample label now s)
  | SummaryAndReset now :: calls =>
    let '(summary, s) := get_summary_and_reset now s in
    let '(rest, s) := run_calls calls s in
    (summary ++ rest, s)
  end.

(** The time of the first classified sample. *)
Fixpoint first_sample (calls : list call) : option Q :=
  match calls with
  | [] => None
  | Sample _ now :: _ => Some now
  | SummaryAndReset _ :: calls => first_sample calls
  end.

Definition total (spans : list (string * Q)) : Q :=
  foldr (λ p acc, p.2 + acc) 0 spans.


(** The pair that a history span contributes to a summary. *)
Definition rounded_span (sp : string * Q * Q) : string * Q :=
  let '(label, start, end_) := sp in (label, Py.round2 (end_ - start)).

(** Spans that follow one another without gap or overlap, from [a] to [b]:
    each one starts where the previous one ends. *)
Fixpoint contiguous (a : Q) (spans : list (string * Q * Q)) (b : Q) : Prop :=
  match spans with
  | [] => a = b
  | (_, start, end_) :: spans => start = a ∧ contiguous end_ spans b
  end.

(** What holds of a detector between calls: [R] is what the summaries
    returned so far, [t0] the time of the first classified sample. *)
Definition tracked (t0 : Q) (calls : list call) (s : t) (R : list (string * Q)) : Prop :=
  match current_emotion s with
  | None =>
      _history_spans s = [] ∧ _emo_spans s = [] ∧ R = [] ∧ first_sample calls = Some t0
  | Some _ =>
      contiguous t0 (_history_spans s) (_span_start s) ∧
      R ++ _emo_spans s = rounded_span <$> _history_spans s
  end.

(** A classifier that raises on every frame. *)
Definition failing : classifier := λ _, Py.Raises ClassifierError.

(** The exact lengths of the spans, added up. *)
Definition exact_total (spans : list (string * Q * Q)) : Q :=
  foldr (λ sp acc, (sp.2 - sp.1.2) + acc) 0 spans.

(** A history in the order of its end times. *)
Fixpoint time_ordered (spans : list (string * Q * Q)) : Prop :=
  match spans with
  | [] => True
  | sp :: spans => Forall (λ sp', sp.2 <= sp'.2) spans ∧ time_ordered spans
  end.



(** *** The sampling pass, step by step

    [_run] holds the lock only while it appends the closed span (l.102-106).
    It compares the label and computes the duration before (l.98-101), and
    writes [current_emotion] and [_span_start] after (l.108-109), so
    [get_summary_and_reset] can take the lock between any two of these
    steps.  [start()] is left out: it runs before the thread does. *)

(** Where the sampling thread is in a pass, with its local variables. *)
Inductive progress : Type :=
  | Idle                                          (* between two passes *)
  | Computed (label : string) (now duration : Q)  (* l.101 is done *)
  | Appended (label : string) (now : Q)           (* l.102-106 are done, or skipped *)
  | Labelled (now : Q).                           (* l.108 is done *)

(** l.98-101: the comparison, and the duration from [_span_start] as it is
    then. *)
Definition begin_pass (label : string) (now : Q) (s : t) : progress :=
  if decide (Some label = current_emotion s) then Idle
  else
    match current_emotion s with
    | None => Appended label now
    | Some _ => Computed label now (Py.round2 (now - _span_start s))
    end.

(** l.102-106, under the lock: [current_emotion] and [_span_start] are read
    again, the duration is the one computed before.  Only this thread
    writes [current_emotion], so it is not [None] here. *)
Definition append_span (now duration : Q) (s : t) : t :=
  match current_emotion s with
  | None => s
  | Some cur =>
    {| current_emotion := current_emotion s; _span_start := _span_start s;
       _emo_spans := _emo_spans s ++ [(cur, duration)];
       _history_spans := _history_spans s ++ [(cur, _span_start s, now)] |}
  end.

(** What the two threads do, in the order in which it happens. *)
Inductive action : Type :=
  | Begin (label : string) (now : Q)
      (* the sampling thread has read the clock (l.90) and classified the
         frame (l.96); it runs l.98-101 *)
  | Step
      (* the sampling thread runs the next of l.102-106, l.108, l.109 *)
  | Reset (now : Q).
      (* [get_summary_and_reset] has read the clock (l.138); its locked
         section runs *)

(** One action: what it returns to the caller of [get_summary_and_reset],
    and the state afterwards.  The thread begins a pass only between
    passes. *)
Definition act (a : action) (st : progress * t) : list (string * Q) * (progress * t) :=
  match a with
  | Begin label now =>
    match st.1 with
    | Idle => ([], (begin_pass label now st.2, st.2))
    | _ => ([], st)
    end
  | Step =>
    match st.1 with
    | Idle => ([], st)
    | Computed label now duration =>
      ([], (Appended label now, append_span now duration st.2))
    | Appended label now =>
      ([], (Labelled now,
            {| current_emotion := Some label; _span_start := _span_start st.2;
               _emo_spans := _emo_spans st.2; _history_spans := _history_spans st.2 |}))
    | Labelled now =>
      ([], (Idle,
            {| current_emotion := current_emotion st.2; _span_start := now;
               _emo_spans := _emo_spans st.2; _history_spans := _history_spans st.2 |}))
    end
  | Reset now =>
    let '(summary, s) := get_summary_and_reset now st.2 in (summary, (st.1, s))
  end.

(** The state after [actions], and the summaries returned on the way,
    concatenated. *)
Fixpoint run_actions (actions : list action) (st : progress * t)
  : list (string * Q) * (progress * t) :=
  match actions with
  | [] => ([], st)
  | a :: actions =>
    let '(summary, st) := act a st in
    let '(rest, st) := run_actions actions st in
    (summary ++ rest, st)
  end.

(** Calls that do not overlap: each pass of the sampling thread runs from
    l.98 to l.109 with no [get_summary_and_reset] in between. *)
Definition steps_of (c : call) : list action :=
  match c with
  | Sample label now => [Begin label now; Step; Step; Step]
  | SummaryAndReset now => [Reset now]
  end.

Definition serial (calls : list call) : list action := calls ≫= steps_of.

(** The clock reading of a call. *)
Definition call_time (c : call) : Q :=
  match c with Sample _ now => now | SummaryAndReset now => now end.

(** Readings that come in the order of the calls, from [t] on. *)
Fixpoint nondecreasing (t : Q) (times : list Q) : Prop :=
  match times with
  | [] => True
  | t' :: times => t <= t' ∧ nondecreasing t' times
  end.

End EmotionDetector.

(** ** The turn loop: [src/main.py] *)

Module Main.
Local Open Scope Q_scope.

Definition IDLE_TIMEOUT : Z := 20.

(** *** Idle injection *)

(** What one pass of [while True] observes: [heard] is a write of
    [last_activity] by the transcriber thread since the previous pass;
    [now_top], [now_inject] and [now_end] are the readings of [time.time()]
    at step 1, at the injection and at step 10; [polled] is the result of the
    0.5 s queue poll. *)
Record pass : Type := mkPass {
  heard : option Q;
  now_top : Q;
  polled : option string;
  now_inject : Q;
  now_end : Q;
}.

Definition idle_sec (p : pass) (last_activity : Q) : Z :=
  Py.int (now_top p - last_activity).

(** Step 2: the polled input, replaced by the sentinel when idle; the
    second component is [transcriber.last_activity] afterwards. *)
Definition poll_input (p : pass) (last_activity : Q) : option string * Q :=
  let idle := idle_sec p last_activity in
  match polled p with
  | None =>
    if decide (IDLE_TIMEOUT ≤ idle)%Z then (Some "[[IDLE]]", now_inject p)
    else (None, last_activity)
  | Some u => (Some u, last_activity)
  end.

Inductive flow : Type :=
  | Continue                   (* [continue]: nothing to do *)
  | Break                      (* "quit" *)
  | Turn (user_input : string).  (* steps 3 to 10 run on this input *)

(** One pass of the loop, as far as [last_activity] goes. *)
Definition loop_pass (p : pass) (last_activity : Q) : flow * Q :=
  let last_activity := default last_activity (heard p) in
  let '(user_input, last_activity) := poll_input p last_activity in
  match user_input with
  | None => (Continue, last_activity)
  | Some u =>
    if String.eqb (Py.strip (Py.lower u)) "quit" then (Break, last_activity)
    else (Turn u, now_end p)
  end.

(** The inputs on which a turn ran, and the final [last_activity]. *)
Fixpoint loop (passes : list pass) (last_activity : Q) : list string * Q :=
  match passes with
  | [] => ([], last_activity)
  | p :: passes =>
    match loop_pass p last_activity with
    | (Continue, la) => loop passes la
    | (Break, la) => ([], la)
    | (Turn u, la) => let '(us, la) := loop passes la in (u :: us, la)
    end
  end.

(** A pass with an empty queue and a silent transcriber, less than
    [IDLE_TIMEOUT] seconds after [since]. *)
Definition quiet (since : Q) (p : pass) : Prop :=
  heard p = None ∧ polled p = None ∧ now_top p - since < inject_Z IDLE_TIMEOUT.

(** *** Parsing the reply *)

(** Values built by [json.loads]. *)
#[local] Set Warnings "-register-all".
Inductive json : Type :=
  | JNull
  | JBool (b : bool)
  | JNumber (x : Q)
  | JString (s : string)
  | JArray (items : list json)
  | JObject (fields : list (string * json)).  (* a dict: keys are distinct *)

#[local] Set Warnings "register-all".

(** What [json.loads(assistant_raw)] does. *)
Inductive loads : Type :=
  | JSONDecodeError
  | Loaded (v : json).

Definition dict : Type := list (string * json).

(** [d.get(key, default)] *)
Fixpoint get (d : dict) (key : string) (default : json) : json :=
  match d with
  | [] => default
  | (k, v) :: d => if String.eqb k key then v else get d key default
  end.

(** Exceptions that the [try] of step 6 does not catch. *)
Inductive uncaught : Type := AttributeError.

(** The [try]/[except json.JSONDecodeError] of step 6:
    [(assistant_msg, prev_turn_json)] afterwards. *)
Definition parse_reply (assistant_raw : string) (parsed : loads) (prev_turn_json : dict)
  : Py.outcome uncaught (string * dict) :=
  match parsed with
  | Loaded (JObject fields) =>
    match get fields "message" (JString EmptyString) with
    | JString m => Py.Returns (Py.strip m, fields)
    | _ => Py.Raises AttributeError          (* no [strip] on this value *)
    end
  | Loaded _ => Py.Raises AttributeError      (* no [get] on this value *)
  | JSONDecodeError =>
    let assistant_msg := Py.strip assistant_raw in
    Py.Returns (assistant_msg,
                [("strategy", get prev_turn_json "strategy" (JString "(unknown)"));
                 ("message", JString assistant_msg)])
  end.

(** Step 6 over consecutive turns: the spoken messages, and [prev_turn_json]
    after the last one.  Each raw reply comes with what [json.loads] does
    on it; an exception that is not caught ends the loop. *)
Fixpoint parse_replies (replies : list (string * loads)) (prev_turn_json : dict)
  : Py.outcome uncaught (list string * dict) :=
  match replies with
  | [] => Py.Returns ([], prev_turn_json)
  | (assistant_raw, parsed) :: replies =>
    match parse_reply assistant_raw parsed prev_turn_json with
    | Py.Raises e => Py.Raises e
    | Py.Returns (assistant_msg, prev_turn_json) =>
      match parse_replies replies prev_turn_json with
      | Py.Raises e => Py.Raises e
      | Py.Returns (msgs, prev_turn_json) =>
        Py.Returns (assistant_msg :: msgs, prev_turn_json)
      end
    end
  end.

End Main.

(** ** More of [src/audio/audio_stream.py]: scripts that drain the ring *)

Module AudioStreamScripts.
Import AudioStream.

(** The capture callback runs on each chunk, and the consumer reads after
    each one: the arrays it gets, and the state at the end. *)
Fixpoint write_then_read (cid : string) (chunks : list (list frame)) (s : t)
  : option (list (list frame) * t) :=
  match chunks with
  | [] => Some ([], s)
  | d :: chunks =>
    s1 ← _audio_callback d s;
    '(r, s2) ← get_new_audio_chunks cid s1;
    '(rs, s3) ← write_then_read cid chunks s2;
    Some (r :: rs, s3)
  end.

End AudioStreamScripts.

(** ** More of [src/audio/google_transcriber.py] *)

Module TranscriberScripts.
Import Transcriber.

(** The events after which the worker reopens the stream without having
    processed a response: a retryable RPC error, the end of the stream, or
    [OutOfRange]. *)
Definition reopening (e : event) : bool :=
  match e with
  | RaiseRpcError code => bool_decide (code ∈ _RETRYABLE)
  | StreamEnd | RaiseOutOfRange => true
  | _ => false
  end.

Definition is_rpc_error (e : event) : bool :=
  match e with RaiseRpcError _ => true | _ => false end.

(** An utterance as the queue holds it: not empty, no white space at
    either end. *)
Definition trimmed (u : string) : Prop := u ≠ EmptyString ∧ Py.strip u = u.

End TranscriberScripts.

(** ** More of [src/video/emotion_detector.py] *)

Module EmotionDetectorScripts.
Import EmotionDetector.
Local Open Scope Q_scope.

Definition is_frame (k : tick) : bool :=
  match k with Frame _ _ => true | StopEvent _ => false end.

(** *** [request_recent_summary] and [fetch_pending_recent]

    [_collect] stores its snapshot under [_pending_lock] (l.165-166) and
    sets the [_pending_ready] event after releasing it (l.167);
    [fetch_pending_recent] tests the event before taking the lock (l.184)
    and clears it after (l.189).  The steps are taken one by one. *)

Definition snapshot : Type := list (string * Q).

(** A timer thread started by [request_recent_summary]. *)
Inductive timer : Type :=
  | Waiting (window_sec : Q)          (* it has not fired yet *)
  | Collected (summary : snapshot)    (* l.164 is done *)
  | Stored                            (* l.165-166 are done *)
  | Fired.                            (* l.167 is done *)

(** The main thread in [fetch_pending_recent]. *)
Inductive fetching : Type :=
  | NotFetching
  | Tested                            (* l.184: the event was set *)
  | Taken (data : option snapshot).   (* l.186-188 are done *)

Record pending : Type := mkPending {
  detector : progress * t;
  _pending_recent : option snapshot;
  _pending_ready : bool;                 (* the Event is set *)
  timers : list timer;                   (* in the order of the requests *)
  fetch : fetching;
}.

Definition pending_init (now : Q) : pending :=
  {| detector := (Idle, init now); _pending_recent := None;
     _pending_ready := false; timers := []; fetch := NotFetching |}.

Inductive pending_event : Type :=
  | OnDetector (a : action)
      (* the sampling thread or [get_summary_and_reset] *)
  | Request (wait_sec window_sec : Q)
      (* [request_recent_summary]: the event is cleared and a timer is
         started; [wait_sec] only decides when it fires *)
  | TimerStep (k : nat) (now : Q)
      (* timer [k] runs the next of l.164, l.165-166, l.167; [now] is the
         clock reading of [get_recent_summary] when that step is l.164 *)
  | FetchTests                           (* l.184-185 *)
  | FetchTakes                           (* l.186-188 *)
  | FetchClears.                         (* l.189-190 *)

(** The state after an event, and what [fetch_pending_recent] returned if
    the event ended a call of it.  The main thread starts a call only when
    it is not inside [fetch_pending_recent]. *)
Definition pending_step (e : pending_event) (p : pending)
  : option (option snapshot) * pending :=
  match e with
  | OnDetector a =>
    (None, {| detector := (act a (detector p)).2;
              _pending_recent := _pending_recent p;
              _pending_ready := _pending_ready p;
              timers := timers p; fetch := fetch p |})
  | Request wait_sec window_sec =>
    match fetch p with
    | NotFetching =>
      (None, {| detector := detector p; _pending_recent := _pending_recent p;
                _pending_ready := false;
                timers := timers p ++ [Waiting window_sec]; fetch := fetch p |})
    | _ => (None, p)
    end
  | TimerStep k now =>
    match timers p !! k with
    | Some (Waiting window_sec) =>
      let summary := get_recent_summary now window_sec (detector p).2 in
      (None, {| detector := detector p; _pending_recent := _pending_recent p;
                _pending_ready := _pending_ready p;
                timers := <[k := Collected summary]> (timers p); fetch := fetch p |})
    | Some (Collected summary) =>
      (None, {| detector := detector p; _pending_recent := Some summary;
                _pending_ready := _pending_ready p;
                timers := <[k := Stored]> (timers p); fetch := fetch p |})
    | Some Stored =>
      (None, {| detector := detector p; _pending_recent := _pending_recent p;
                _pending_ready := true;
                timers := <[k := Fired]> (timers p); fetch := fetch p |})
    | _ => (None, p)
    end
  | FetchTests =>
    match fetch p with
    | NotFetching =>
      if negb (_pending_ready p) then (Some None, p)
      else (None, {| detector := detector p; _pending_recent := _pending_recent p;
                     _pending_ready := _pending_ready p;
                     timers := timers p; fetch := Tested |})
    | _ => (None, p)
    end
  | FetchTakes =>
    match fetch p with
    | Tested =>
      (None, {| detector := detector p; _pending_recent := None;
                _pending_ready := _pending_ready p;
                timers := timers p; fetch := Taken (_pending_recent p) |})
    | _ => (None, p)
    end
  | FetchClears =>
    match fetch p with
    | Taken data =>
      (Some data, {| detector := detector p; _pending_recent := _pending_recent p;
                     _pending_ready := false;
                     timers := timers p; fetch := NotFetching |})
    | _ => (None, p)
    end
  end.

(** What the calls of [fetch_pending_recent] return over a script, in
    order. *)
Fixpoint pending_run (events : list pending_event) (p : pending)
  : list (option snapshot) :=
  match events with
  | [] => []
  | e :: events =>
    let '(r, p) := pending_step e p in
    match r with
    | Some r => r :: pending_run events p
    | None => pending_run events p
    end
  end.

(** Calls that do not overlap: a timer runs [_collect] from l.164 to l.167,
    and a fetch runs from l.184 to l.190, with nothing in between. *)
Inductive pending_call : Type :=
  | Detector (a : action)
  | RequestCall (wait_sec window_sec : Q)
  | TimerFires (k : nat) (now : Q)
  | Fetch.

Definition pending_steps (c : pending_call) : list pending_event :=
  match c with
  | Detector a => [OnDetector a]
  | RequestCall wait_sec window_sec => [Request wait_sec window_sec]
  | TimerFires k now => [TimerStep k now; TimerStep k now; TimerStep k now]
  | Fetch => [FetchTests; FetchTakes; FetchClears]
  end.

(** A mailbox with one slot over such calls: a timer that fires puts its
    snapshot in the slot, a request or a fetch empties it.  A timer is its
    window until it fires. *)
Fixpoint mailbox_run (calls : list pending_call) (d : progress * t)
    (timers : list (option Q)) (slot : option snapshot) : list (option snapshot) :=
  match calls with
  | [] => []
  | Detector a :: calls => mailbox_run calls (act a d).2 timers slot
  | RequestCall _ window_sec :: calls =>
    mailbox_run calls d (timers ++ [Some window_sec]) None
  | TimerFires k now :: calls =>
    match timers !! k with
    | Some (Some window_sec) =>
      mailbox_run calls d (<[k := None]> timers)
                  (Some (get_recent_summary now window_sec d.2))
    | _ => mailbox_run calls d timers slot
    end
  | Fetch :: calls => slot :: mailbox_run calls d timers None
  end.

(** A timer between two calls that do not overlap, as the mailbox sees it. *)
Definition timer_window (tm : timer) : option Q :=
  match tm with Waiting window_sec => Some window_sec | _ => None end.

Definition settled (tm : timer) : Prop :=
  match tm with Waiting _ | Fired => True | _ => False end.

(** What the mailbox holds for a state between two calls. *)
Definition slot_of (p : pending) : option snapshot :=
  if _pending_ready p then _pending_recent p else None.

(** Between passes of [_run]: recorded spans last at least one period, and
    the open span started no later than the last classified frame. *)
Definition paced (fps : positive) (st : thread * t) : Prop :=
  Forall (λ sp : string * Q * Q, 1 # fps <= sp.2 - sp.1.2) (_history_spans st.2) ∧
  match st.1 with
  | Sampling last_ts => is_Some (current_emotion st.2) → _span_start st.2 <= last_ts
  | _ => True
  end.

End EmotionDetectorScripts.

(** ** More of [src/main.py]: the helpers of a turn *)

Module MainScripts.

(** *** [_predominant_emotion]

    Durations are Python floats.  The type of numbers, [0.0], [+] and [>]
    are kept abstract here, so that nothing below depends on additions
    being exact. *)
Section PredominantEmotion.
Context {num : Type}.
Variable zero : num.
Variable add : num → num → num.
Variable gtb : num → num → bool.

(** A [dict] with string keys, in insertion order. *)
Definition totals_dict : Type := list (string * num).

(** [totals.get(key, default)] *)
Fixpoint dict_get (totals : totals_dict) (key : string) (default : num) : num :=
  match totals with
  | [] => default
  | (k, v) :: totals => if String.eqb k key then v else dict_get totals key default
  end.

(** [totals[key] = v]: a key that is present keeps its place, a new one
    goes last. *)
Fixpoint dict_set (totals : totals_dict) (key : string) (v : num) : totals_dict :=
  match totals with
  | [] => [(key, v)]
  | (k, v0) :: totals =>
    if String.eqb k key then (k, v) :: totals else (k, v0) :: dict_set totals key v
  end.

(** The body of the [for] loop, and the loop. *)
Definition add_span (totals : totals_dict) (span : string * num) : totals_dict :=
  let '(emo, dur) := span in
  dict_set totals emo (add (dict_get totals emo zero) dur).

Definition sum_by_label (spans : list (string * num)) : totals_dict :=
  foldl add_span [] spans.

(** [max(keys, key=f)] on a sequence that is not empty: the first item is
    kept until one with a strictly greater key comes. *)
Definition max_by (f : string → num) (first : string) (keys : list string) : string :=
  foldl (λ best k, if gtb (f k) (f best) then k else best) first keys.

Definition _predominant_emotion (spans : list (string * num)) : string :=
  let totals := sum_by_label spans in
  match totals.*1 with
  | [] => "neutral"
  | k :: keys => max_by (λ k, dict_get totals k zero) k keys
  end.

(** What the loop adds up for one label: its durations, in order. *)
Definition total_of (emo : string) (spans : list (string * num)) : num :=
  foldl add zero (filter (λ sp, sp.1 = emo) spans).*2.

End PredominantEmotion.

(** *** [_compute_recently_completed] *)
Section RecentlyCompleted.

(** [int(num_str)], [None] when it raises [ValueError]. *)
Variable int_ : string → option Z.
(** [_CLUE_LOOKUP.get((dir_letter, num), {}).get("answer")] *)
Variable answer_of : string → Z → option string.

(** [crossword_state]: for each direction that is present, the patterns by
    clue number, in the order of the dict. *)
Definition crossword_state : Type := list (string * list (string * string)).

(** [crossword_state.get(direction, {}).items()] *)
Fixpoint items_of (state : crossword_state) (direction : string)
  : list (string * string) :=
  match state with
  | [] => []
  | (k, v) :: state => if String.eqb k direction then v else items_of state direction
  end.

(** ["0" in pattern]; the character "0" has code 48. *)
Fixpoint has_zero (pattern : string) : bool :=
  match pattern with
  | EmptyString => false
  | String c pattern => (Ascii.nat_of_ascii c =? 48)%nat || has_zero pattern
  end.

(** [str.upper] on one ASCII character *)
Definition upper_char (a : Ascii.ascii) : Ascii.ascii :=
  let n := Ascii.nat_of_ascii a in
  if (97 <=? n)%nat && (n <=? 122)%nat then Ascii.ascii_of_nat (n - 32) else a.

(** [direction[0].upper()], for the two directions of the loop *)
Definition dir_letter (direction : string) : string :=
  match direction with
  | EmptyString => EmptyString
  | String c _ => String (upper_char c) EmptyString
  end.

Inductive error : Type := ValueError.

Definition key : Type := string * Z.

(** The body of the inner [for], on one item: the list built so far and
    [completed_set], which the caller shares and the function mutates. *)
Definition visit (direction : string) (item : string * string)
    (acc : list key * gset key) : Py.outcome error (list key * gset key) :=
  let '(num_str, pattern) := item in
  let '(recently_completed, completed_set) := acc in
  if String.eqb num_str "undefined" || String.eqb pattern EmptyString || has_zero pattern
  then Py.Returns acc
  else
    match int_ num_str with
    | None => Py.Raises ValueError
    | Some num =>
      let letter := dir_letter direction in
      match answer_of letter num with
      | Some answer =>
        if negb (String.eqb answer EmptyString) && String.eqb pattern answer
           && negb (bool_decide ((letter, num) ∈ completed_set))
        then Py.Returns (recently_completed ++ [(letter, num)],
                         {[ (letter, num) ]} ∪ completed_set)
        else Py.Returns acc
      | None => Py.Returns acc
      end
    end.

(** The inner [for]; when [int] raises, the set keeps what was added. *)
Fixpoint visit_all (direction : string) (items : list (string * string))
    (acc : list key * gset key) : Py.outcome error (list key) * gset key :=
  match items with
  | [] => (Py.Returns acc.1, acc.2)
  | item :: items =>
    match visit direction item acc with
    | Py.Raises e => (Py.Raises e, acc.2)
    | Py.Returns acc => visit_all direction items acc
    end
  end.

(** [_compute_recently_completed(crossword_state, completed_set)]: what it
    returns or raises, and [completed_set] afterwards. *)
Definition _compute_recently_completed (state : crossword_state)
    (completed_set : gset key) : Py.outcome error (list key) * gset key :=
  match visit_all "across" (items_of state "across") ([], completed_set) with
  | (Py.Raises e, completed_set) => (Py.Raises e, completed_set)
  | (Py.Returns recently_completed, completed_set) =>
    visit_all "down" (items_of state "down") (recently_completed, completed_set)
  end.

(** An entry that counts as solved under key [k]: a pattern without ["0"],
    equal to the answer of its clue. *)
Definition solved (direction : string) (item : string * string) (k : key) : Prop :=
  item.1 ≠ "undefined" ∧ item.2 ≠ EmptyString ∧ has_zero item.2 = false ∧
  int_ item.1 = Some k.2 ∧ k.1 = dir_letter direction ∧
  answer_of k.1 k.2 = Some item.2.

End RecentlyCompleted.
End MainScripts.

(** ** [collections.deque(maxlen=...)] *)

Module Deque.
Section Deque.
Context {A : Type}.

(** [d.append(x)]: the item goes to the right end, and a deque that is now
    longer than [maxlen] drops its leftmost item. *)
Definition append (maxlen : nat) (d : list A) (x : A) : list A :=
  let d := d ++ [x] in
  if decide (maxlen < length d) then drop 1 d else d.

(** [d.extend(xs)] appends the items one by one. *)
Definition extend (maxlen : nat) (d : list A) (xs : list A) : list A :=
  foldl (append maxlen) d xs.

End Deque.
End Deque.

(** ** RobotSpeechTracker: [src/audio/robot_speech_tracker.py] *)

Module RobotSpeechTracker.
Section Tracker.

(** [_similar(a, b)]: [SequenceMatcher(None, a, b).ratio() >= 0.85] *)
Variable _similar : string → string → bool.

Record t : Type := mk {
  max_words : nat;
  _words : list string;          (* a deque of at most [max_words] words *)
}.

Definition init (max_words : nat) : t := mk max_words [].

Definition set (words : list string) (s : t) : t :=
  mk (max_words s) (Deque.extend (max_words s) [] words).

Definition clear (s : t) : t := mk (max_words s) [].

Definition copy (s : t) : list string := _words s.

(** The test of the [while] body on one window. *)
Definition window_matches (fuzzy : bool) (window robot_words : list string) : bool :=
  bool_decide (length window = length robot_words) &&
  forallb (λ '(w1, w2), bool_decide (w1 = w2) || (fuzzy && _similar w1 w2))
          (zip window robot_words).

(** The [while i < m] loop; [fuel] bounds the number of passes. *)
Fixpoint strip_loop (fuel : nat) (fuzzy : bool) (user_words robot_words : list string)
    (out : list string) (i : nat) : option (list string) :=
  if decide (i < length user_words) then
    match fuel with
    | 0 => None
    | S fuel =>
      let n := length robot_words in
      let window := Py.slice user_words i (i + n) in
      if window_matches fuzzy window robot_words
      then strip_loop fuel fuzzy user_words robot_words out (i + n)
      else
        w ← user_words !! i;
        strip_loop fuel fuzzy user_words robot_words (out ++ [w]) (i + 1)
    end
  else Some out.

(** [strip_from(user_words, fuzzy)]; every pass moves [i] forward, so
    [len(user_words)] passes are enough. *)
Definition strip_from (user_words : list string) (fuzzy : bool) (s : t)
  : option (list string) :=
  let robot_words := copy s in
  match robot_words with
  | [] => Some user_words
  | _ => strip_loop (length user_words) fuzzy user_words robot_words [] 0
  end.

End Tracker.
End RobotSpeechTracker.

(** ** CameraStream: [src/video/camera_stream.py] *)

Module CameraStream.

(** Frames and listeners are known by a number. *)
Definition frame : Type := nat.
Definition listener : Type := nat.

Record t : Type := mk {
  buffer_size : nat;
  frame_buffer : list frame;       (* a deque of at most [buffer_size] frames *)
  latest_frame : option frame;
  listeners : list listener;
}.

Definition init (buffer_size : nat) : t := mk buffer_size [] None [].

(** One pass of [_update]; [read] is [None] when [cap.read()] fails.  The
    result lists the calls [callback(frame)] made, in order; what a callback
    raises is dropped by the [except Exception]. *)
Definition _update (read : option frame) (s : t) : t * list (listener * frame) :=
  match read with
  | None => (s, [])
  | Some f =>
    (mk (buffer_size s) (Deque.append (buffer_size s) (frame_buffer s) f) (Some f)
        (listeners s),
     (λ callback, (callback, f)) <$> listeners s)
  end.

Definition get_frame (s : t) : option frame := latest_frame s.

Definition get_latest_frames (s : t) : list frame := frame_buffer s.

Definition add_frame_listener (callback : listener) (s : t) : t :=
  mk (buffer_size s) (frame_buffer s) (latest_frame s) (listeners s ++ [callback]).

(** [list.remove(x)]: the first occurrence goes. *)
Fixpoint list_remove (x : listener) (l : list listener) : list listener :=
  match l with
  | [] => []
  | y :: l => if decide (y = x) then l else y :: list_remove x l
  end.

Definition remove_frame_listener (callback : listener) (s : t) : t :=
  if bool_decide (callback ∈ listeners s)
  then mk (buffer_size s) (frame_buffer s) (latest_frame s)
          (list_remove callback (listeners s))
  else s.

Inductive op : Type :=
  | Read (read : option frame)
  | AddListener (callback : listener)
  | RemoveListener (callback : listener).

Definition step (o : op) (s : t) : t * list (listener * frame) :=
  match o with
  | Read read => _update read s
  | AddListener callback => (add_frame_listener callback s, [])
  | RemoveListener callback => (remove_frame_listener callback s, [])
  end.

(** A script of calls: the state at the end and all the callback calls. *)
Fixpoint run (ops : list op) (s : t) : t * list (listener * frame) :=
  match ops with
  | [] => (s, [])
  | o :: ops =>
    let '(s, calls) := step o s in
    let '(s, calls') := run ops s in
    (s, calls ++ calls')
  end.

(** The frames that a script captures. *)
Definition captured (ops : list op) : list frame :=
  omap (λ o, match o with Read read => read | _ => None end) ops.

(** The script leaves the registrations of [callback] alone. *)
Definition untouched (callback : listener) (o : op) : Prop :=
  match o with
  | AddListener c | RemoveListener c => c ≠ callback
  | Read _ => True
  end.

End CameraStream.

(** ** Prompt helpers: [src/prompt/prompt_builder_emotions.py] *)

Module PromptBuilder.

(** The characters "0" and "_" have codes 48 and 95. *)
Definition is_zero (ch : Ascii.ascii) : bool := (Ascii.nat_of_ascii ch =? 48)%nat.

(** [_letters_filled(pattern)] *)
Fixpoint _letters_filled (pattern : string) : nat :=
  match pattern with
  | EmptyString => 0
  | String ch pattern => (if is_zero ch then 0 else 1) + _letters_filled pattern
  end.

(** [_pattern_pretty(pattern)] *)
Fixpoint _pattern_pretty (pattern : string) : string :=
  match pattern with
  | EmptyString => EmptyString
  | String ch pattern =>
    String (if is_zero ch then Ascii.ascii_of_nat 95 else ch) (_pattern_pretty pattern)
  end.

End PromptBuilder.

(** * Properties *)

Section Lastn.
Context {A : Type}.
Implicit Types l d : list A.

Lemma length_lastn n l : length (lastn n l) = n `min` length l.
Proof. unfold lastn. rewrite length_drop. lia. Qed.

Lemma lastn_all n l : length l ≤ n → lastn n l = l.
Proof. intros H. unfold lastn. replace (length l - n) with 0 by lia. done. Qed.

Lemma lastn_app_ge n l d : n ≤ length d → lastn n (l ++ d) = lastn n d.
Proof.
  intros H. unfold lastn. rewrite length_app, drop_app.
  rewrite drop_ge by lia. simpl. f_equal. lia.
Qed.

Lemma lastn_app_le n l d :
  length d ≤ n → lastn n (l ++ d) = lastn (n - length d) l ++ d.
Proof.
  intros H. unfold lastn. rewrite length_app, drop_app.
  replace (length l + length d - n - length l) with 0 by lia.
  simpl. f_equal. f_equal. lia.
Qed.

Lemma lastn_lastn k n l : lastn k (lastn n l) = lastn (k `min` n) l.
Proof.
  unfold lastn. rewrite length_drop, drop_drop. f_equal. lia.
Qed.

Lemma lastn_min n l : lastn n l = lastn (n `min` length l) l.
Proof. unfold lastn. f_equal. lia. Qed.

Lemma lastn_0 l : lastn 0 l = [].
Proof. unfold lastn. rewrite drop_ge; [done | lia]. Qed.
End Lastn.

Module AudioStreamFacts.
Import AudioStream.

(** Side conditions on the lengths of appended pieces. *)
Ltac len := rewrite ?length_app in *; lia.

Lemma assign_slice_exact {A} (l data : list A) a b :
  a ≤ b → b ≤ length l → length data = b - a →
  Py.assign_slice l a b data = Some (take a l ++ data ++ drop b l).
Proof.
  intros Hab Hb Hd. unfold Py.assign_slice, Py.slice.
  rewrite length_take, length_drop.
  replace ((b - a) `min` (length l - a)) with (b - a) by lia.
  rewrite decide_True by done. by replace (a + (b - a)) with b by lia.
Qed.


Lemma wf_write_index s : wf s → write_index s < capacity s.
Proof. intros (? & ? & ->). apply Nat.mod_upper_bound. lia. Qed.

Lemma split2 {A} (l : list A) a :
  a ≤ length l → ∃ P S, l = P ++ S ∧ length P = a.
Proof.
  intros H. exists (take a l), (drop a l). split.
  - by rewrite take_drop.
  - rewrite length_take. lia.
Qed.

Lemma split3 {A} (l : list A) a b :
  a + b ≤ length l → ∃ P M S, l = P ++ M ++ S ∧ length P = a ∧ length M = b.
Proof.
  intros H. destruct (split2 l a) as (P & R & -> & HP); [lia|].
  rewrite length_app in H.
  destruct (split2 R b) as (M & S & -> & HM); [lia|]. by exists P, M, S.
Qed.

Lemma audio_callback_spec s d :
  wf s →
  let k := length d `min` capacity s in
  ∃ s', _audio_callback d s = Some s' ∧ wf s' ∧
        capacity s' = capacity s ∧
        total_written s' = total_written s + k ∧
        last_reads s' = last_reads s ∧
        ring_view s' = drop k (ring_view s) ++ lastn (capacity s) d.
Proof.
  intros Hwf k. pose proof (wf_write_index s Hwf) as Hwi.
  destruct Hwf as (Hcap & Hlen & Hmod).
  unfold _audio_callback.
  set (d' := lastn (capacity s) d).
  assert (Hclip : (if decide (capacity s < length d)
                   then (Py.neg_slice_from d (capacity s), capacity s)
                   else (d, length d)) = (d', k)).
  { case_decide.
    - unfold Py.neg_slice_from. rewrite decide_False by lia.
      f_equal. unfold k. lia.
    - unfold d'. rewrite lastn_all by lia. f_equal. unfold k. lia. }
  rewrite Hclip. clear Hclip.
  assert (Hd' : length d' = k) by (unfold d'; rewrite length_lastn; lia).
  assert (Hk : k ≤ capacity s) by (unfold k; lia).
  clearbody d' k. clear d.
  assert (Hwi' : ∀ n, Py.mod_ n (capacity s) = Some (n mod capacity s)).
  { intros n. unfold Py.mod_. by rewrite decide_False by lia. }
  rewrite Hwi'. unfold wf, ring_view.
  destruct s as [ch cap ring wi total st lr]; simpl in *.
  case_decide as Hend.
  - destruct (split3 ring wi k) as (P & M & S & -> & HP & HM); [lia|].
    rewrite assign_slice_exact by lia. simpl.
    rewrite (take_app_length' P) by done.
    rewrite (app_assoc P M S), (drop_app_length' (P ++ M)) by len.
    rewrite <- (app_assoc P M S), (drop_app_length' P) by done.
    rewrite <- (app_assoc M S P), (drop_app_length' M) by done.
    eexists. split; [reflexivity|]. simpl.
    repeat split; try done.
    + rewrite !length_app in *. lia.
    + rewrite Hmod. by rewrite Nat.Div0.add_mod_idemp_l.
    + rewrite !length_app in Hlen.
      destruct (decide (wi + k = cap)) as [Heq|Hne].
      * rewrite Heq, Nat.Div0.mod_same. simpl.
        destruct S; [|simpl in Hlen; lia]. by rewrite take_0, !app_nil_r.
      * rewrite Nat.mod_small by lia.
        rewrite (app_assoc P d' S).
        rewrite (drop_app_length' (P ++ d')), (take_app_length' (P ++ d'))
          by len.
        by rewrite app_assoc.
  - destruct (split2 ring wi) as (P & T & -> & HP); [lia|].
    rewrite length_app in Hlen.
    destruct (split2 d' (cap - wi)) as (D1 & D2 & -> & HD1); [lia|].
    rewrite length_app in Hd'.
    destruct (split2 P (k - (cap - wi))) as (P1 & P2 & -> & HP1); [lia|].
    rewrite length_app in HP.
    rewrite (take_app_length' D1), (drop_app_length' D1) by done.
    rewrite assign_slice_exact by len.
    rewrite drop_all, app_nil_r. simpl.
    rewrite (take_app_length' (P1 ++ P2)) by len.
    rewrite assign_slice_exact by len.
    simpl.
    rewrite <- (app_assoc P1 P2 D1), (drop_app_length' P1) by done.
    eexists. split; [reflexivity|]. simpl.
    replace ((wi + k) mod cap) with (k - (cap - wi)).
    2:{ replace (wi + k) with ((k - (cap - wi)) + 1 * cap) by lia.
        rewrite Nat.Div0.mod_add. symmetry. apply Nat.mod_small. lia. }
    repeat split; try done.
    + rewrite !length_app. lia.
    + rewrite <- Nat.Div0.add_mod_idemp_l, <- Hmod.
      replace (wi + k) with ((k - (cap - wi)) + 1 * cap) by lia.
      rewrite Nat.Div0.mod_add. symmetry. apply Nat.mod_small. lia.
    + rewrite (drop_app_length' D2), (take_app_length' D2) by lia.
      rewrite (drop_app_length' (P1 ++ P2)) by len.
      rewrite (app_assoc T P1 P2), (drop_app_length' (T ++ P1)) by len.
      by rewrite <- !app_assoc.
Qed.

Lemma lastn_app_length {A} (l d : list A) n :
  n = length d → lastn n (l ++ d) = d.
Proof. intros ->. rewrite lastn_app_ge by lia. by apply lastn_all. Qed.

Lemma ring_view_length s : wf s → length (ring_view s) = capacity s.
Proof.
  intros (? & Hlen & ?). unfold ring_view.
  rewrite length_app, length_take, length_drop. lia.
Qed.

Lemma mod_window cap lo hi n :
  0 < cap → lo + n = hi → 0 < n → n ≤ cap →
  (lo mod cap < hi mod cap ∧ n = hi mod cap - lo mod cap) ∨
  (hi mod cap ≤ lo mod cap ∧ n = cap - (lo mod cap - hi mod cap)).
Proof.
  intros Hcap Hsum Hn Hle.
  pose proof (Nat.div_mod_eq lo cap) as Hlo.
  pose proof (Nat.div_mod_eq hi cap) as Hhi.
  pose proof (Nat.mod_upper_bound lo cap ltac:(lia)) as Hl.
  pose proof (Nat.mod_upper_bound hi cap ltac:(lia)) as Hh.
  set (p := lo / cap) in *. set (q := hi / cap) in *.
  set (a := lo mod cap) in *. set (b := hi mod cap) in *.
  assert (q = p ∨ q = p + 1) as [-> | ->] by nia; nia.
Qed.

Lemma get_new_audio_chunks_spec s c lr :
  wf s → last_reads s !! c = Some lr → lr ≤ total_written s →
  get_new_audio_chunks c s =
    Some (lastn ((total_written s - lr) `min` capacity s) (ring_view s),
          set_last_read c (total_written s) s).
Proof.
  intros Hwf Hc Hlr. pose proof (wf_write_index s Hwf) as Hwi.
  pose proof (ring_view_length s Hwf) as Hrv.
  destruct Hwf as (Hcap & Hlen & Hmod).
  unfold get_new_audio_chunks. rewrite Hc.
  case_decide as Hnew.
  - assert (lr = total_written s) as -> by lia.
    replace (total_written s - total_written s) with 0 by lia.
    simpl. rewrite lastn_0. do 2 f_equal.
    unfold set_last_read. rewrite insert_id by done. by destruct s.
  - set (lr' := if decide (capacity s < total_written s - lr)
                then total_written s - capacity s else lr).
    set (n := (total_written s - lr) `min` capacity s).
    assert (Hn : lr' + n = total_written s) by (unfold lr', n; case_decide; lia).
    assert (0 < n ∧ n ≤ capacity s) as [Hn0 Hncap] by (unfold n; lia).
    unfold Py.mod_. rewrite !(decide_False (P := capacity s = 0)) by lia.
    simpl. rewrite <- Hmod. f_equal. f_equal.
    clearbody lr' n. unfold ring_view in *.
    pose proof (Nat.mod_upper_bound lr' (capacity s) ltac:(lia)) as Hst.
    destruct (mod_window (capacity s) lr' (total_written s) n) as [[Hlt Heq]|[Hge Heq]];
      try done; rewrite <- Hmod in *;
      destruct s as [ch cap ring wi total st lrs]; simpl in *.
    + rewrite decide_True by done. unfold Py.slice.
      destruct (split3 ring (lr' mod cap) n) as (P & M & S & -> & HP & HM); [lia|].
      rewrite (drop_app_length' P), (take_app_length' M) by lia.
      rewrite (app_assoc P M S).
      rewrite (drop_app_length' (P ++ M)), (take_app_length' (P ++ M))
        by len.
      rewrite (app_assoc S P M). by rewrite lastn_app_length.
    + rewrite decide_False by lia.
      destruct (split3 ring wi (lr' mod cap - wi)) as (P & M & S & -> & HP & HM); [lia|].
      rewrite (drop_app_length' P (M ++ S) wi), (take_app_length' P) by lia.
      rewrite (app_assoc P M S), (drop_app_length' (P ++ M)) by len.
      rewrite <- (app_assoc M S P). rewrite lastn_app_length; [done|].
      rewrite !length_app in *. lia.
Qed.

Lemma lastn_drop {A} (l : list A) n k :
  n + k ≤ length l → lastn n (drop k l) = lastn n l.
Proof.
  intros H. unfold lastn. rewrite length_drop, drop_drop. f_equal. lia.
Qed.

Lemma lastn_le_eq {A} (l1 l2 : list A) n m :
  n ≤ m → lastn m l1 = lastn m l2 → lastn n l1 = lastn n l2.
Proof.
  intros Hle Heq. replace n with (n `min` m) by lia.
  by rewrite <- (lastn_lastn n m l1), <- (lastn_lastn n m l2), Heq.
Qed.

(** Appending a chunk [d] and keeping the last [n]: when [d] itself is at
    least [cap] long only [d] matters, otherwise [n - length d] older
    samples survive. *)
Lemma lastn_extend {A} (l1 l2 d : list A) cap n :
  n ≤ cap →
  (cap ≤ length d → n = cap) →
  (length d < cap → length d ≤ n ∧ lastn (n - length d) l1 = lastn (n - length d) l2) →
  lastn n (l1 ++ lastn cap d) = lastn n (l2 ++ d).
Proof.
  intros Hn Hbig Hsmall. destruct (decide (cap ≤ length d)) as [Hd|Hd].
  - rewrite Hbig by done. rewrite !lastn_app_ge by (rewrite ?length_lastn; lia).
    rewrite lastn_lastn. f_equal. lia.
  - destruct Hsmall as [Hle Heq]; [lia|].
    rewrite (lastn_all cap d) by lia. rewrite !lastn_app_le by lia. by rewrite Heq.
Qed.

Lemma inv_init cap ch : 0 < cap → inv (init cap ch) log0.
Proof.
  intros Hcap. split; simpl.
  - unfold wf. simpl. rewrite length_replicate. repeat split; [lia|].
    by rewrite Nat.Div0.mod_0_l.
  - by rewrite !lastn_0.
  - done.
  - intros c. unfold cursor_ok. simpl. by rewrite !lookup_empty.
Qed.

Lemma inv_write s g d :
  inv s g →
  ∃ s', _audio_callback d s = Some s' ∧ inv s' (log_step (Write d) g) ∧
        capacity s' = capacity s.
Proof.
  intros [Hwf Hring Hcount Hcur].
  destruct (audio_callback_spec s d Hwf) as (s' & Hrun & Hwf' & Hcap & Htot & Hlr & Hrv).
  pose proof (ring_view_length s Hwf) as Hlen.
  destruct Hwf as (Hpos & _ & _).
  exists s'. split; [done|]. split; [|done].
  split; simpl; rewrite ?Hcap, ?Htot, ?Hrv.
  - done.
  - apply lastn_extend; [lia | lia |]. intros Hd. split; [lia|].
    replace (length d `min` capacity s) with (length d) by lia.
    rewrite lastn_drop by lia.
    eapply lastn_le_eq; [|exact Hring]. lia.
  - rewrite length_app. lia.
  - intros c. specialize (Hcur c). unfold cursor_ok in *. simpl.
    rewrite Hlr, Hcap, Htot, lookup_fmap.
    destruct (last_reads s !! c) as [lr|], (unread g !! c) as [b|]; simpl; try done.
    destruct Hcur as (Hle & Heq & pre & Hpre). split; [lia|]. split.
    + destruct (decide (capacity s ≤ length d)) as [Hd|Hd].
      * rewrite !lastn_app_ge by lia. f_equal. lia.
      * rewrite !lastn_app_le by lia. f_equal.
        transitivity (lastn (capacity s - length d) (lastn (capacity s) b)).
        { rewrite lastn_lastn. f_equal. lia. }
        rewrite Heq, lastn_lastn. f_equal. lia.
    + exists pre. by rewrite Hpre, app_assoc.
Qed.

Lemma inv_register s g c : inv s g → inv (register_consumer c s) (log_step (Register c) g).
Proof.
  intros [Hwf Hring Hcount Hcur]. split; simpl; try done.
  intros c'. specialize (Hcur c'). unfold cursor_ok in *. simpl.
  destruct (decide (c = c')) as [->|Hne].
  - rewrite !lookup_insert_eq. split; [lia|]. split; [|by exists []].
    rewrite Nat.sub_0_r, <- Hcount, (Nat.min_comm (length _)).
    apply lastn_min.
  - by rewrite !lookup_insert_ne.
Qed.

Lemma read_unregistered s c :
  last_reads s !! c = None → get_new_audio_chunks c s = Some ([], s).
Proof. intros H. unfold get_new_audio_chunks. by rewrite H. Qed.

Lemma inv_read s g c :
  inv s g →
  ∃ r s', get_new_audio_chunks c s = Some (r, s') ∧ inv s' (log_step (Read c) g) ∧
          capacity s' = capacity s ∧ total_written s' = total_written s ∧
          ∀ b, unread g !! c = Some b →
               r = lastn (capacity s) b ∧ last_reads s' !! c = Some (total_written s).
Proof.
  intros [Hwf Hring Hcount Hcur]. pose proof (Hcur c) as Hc. unfold cursor_ok in Hc.
  destruct (last_reads s !! c) as [lr|] eqn:Hlr, (unread g !! c) as [b|] eqn:Hb;
    try done.
  - destruct Hc as (Hle & Heq & pre & Hpre).
    rewrite (get_new_audio_chunks_spec s c lr) by done.
    eexists _, _. split; [reflexivity|]. split; [|split; [done|split; [done|]]].
    + split; simpl; try done.
      intros c'. specialize (Hcur c'). unfold cursor_ok in *. simpl.
      destruct (decide (c = c')) as [->|Hne].
      * rewrite lookup_insert_eq, lookup_alter_eq, Hb. simpl.
        split; [lia|]. split; [|exists (written g); by rewrite app_nil_r].
        replace (total_written s - total_written s) with 0 by lia.
        by rewrite !lastn_0.
      * by rewrite lookup_insert_ne, lookup_alter_ne.
    + intros ? [= <-]. simpl. rewrite lookup_insert_eq. split; [|done].
      rewrite Heq.
      eapply lastn_le_eq; [|exact Hring]. lia.
  - unfold get_new_audio_chunks. rewrite Hlr.
    eexists _, _. split; [reflexivity|]. split; [|done].
    split; simpl; try done.
    intros c'. specialize (Hcur c'). unfold cursor_ok in *. simpl.
    destruct (decide (c = c')) as [->|Hne].
    + by rewrite lookup_alter_eq, Hlr, Hb.
    + by rewrite lookup_alter_ne.
Qed.

Lemma inv_step o s g :
  inv s g → ∃ s', step o s = Some s' ∧ inv s' (log_step o g) ∧ capacity s' = capacity s.
Proof.
  intros Hinv. destruct o as [d|c|c]; simpl.
  - by apply inv_write.
  - eexists. split; [reflexivity|]. split; [by apply inv_register | done].
  - destruct (inv_read s g c Hinv) as (r & s' & -> & ? & ? & _). simpl. eauto.
Qed.

Lemma inv_run ops : ∀ s g,
  inv s g → ∃ s', run ops s = Some s' ∧ inv s' (log_run ops g) ∧ capacity s' = capacity s.
Proof.
  induction ops as [|o ops IH]; intros s g Hinv; simpl.
  - eauto.
  - destruct (inv_step o s g Hinv) as (s1 & -> & Hinv1 & Hcap1). simpl.
    destruct (IH s1 _ Hinv1) as (s' & Hrun & Hinv' & Hcap'). exists s'.
    split; [done|]. split; [done|]. congruence.
Qed.

(** C1.  After any script of callback writes, registrations and reads on a
    fresh stream of capacity [cap], a read by a registered consumer [c]
    succeeds, returns the samples handed to the callback since [c] last read
    (its backlog [b], in write order) when these are at most [cap], and
    otherwise exactly the last [cap] samples written; the cursor of [c]
    becomes [total_written].  A backlog of exactly [cap] samples is returned
    whole. *)
Theorem get_new_audio_chunks_unread cap ch ops c b :
  0 < cap →
  unread (log_run ops log0) !! c = Some b →
  ∃ s r s',
    run ops (init cap ch) = Some s ∧
    get_new_audio_chunks c s = Some (r, s') ∧
    last_reads s' !! c = Some (total_written s') ∧
    total_written s' = total_written s ∧
    (length b ≤ cap → r = b) ∧
    (cap < length b → r = lastn cap (written (log_run ops log0)) ∧ length r = cap).
Proof.
  intros Hcap Hb.
  destruct (inv_run ops _ _ (inv_init cap ch Hcap)) as (s & Hrun & Hinv & Hc).
  destruct (inv_read s _ c Hinv) as (r & s' & Hget & _ & _ & Htot & Hr).
  destruct (Hr b Hb) as [Hr' Hcur]. simpl in Hc. rewrite Hc in Hr'. subst r.
  exists s, (lastn cap b), s'.
  repeat split; try done.
  - by rewrite Htot.
  - apply lastn_all.
  - pose proof (inv_cursors _ _ Hinv c) as Hok. unfold cursor_ok in Hok.
    rewrite Hb in Hok. destruct (last_reads s !! c); [|done].
    destruct Hok as (_ & _ & pre & ->). by rewrite lastn_app_ge by lia.
  - rewrite length_lastn. lia.
Qed.

(** C10.  A read with an identifier that is not registered returns the empty
    array and the state it was called on: ring, [total_written] and every
    cursor are untouched, and nothing is raised. *)
Theorem get_new_audio_chunks_unregistered (s : t) (c : string) :
  last_reads s !! c = None → get_new_audio_chunks c s = Some ([], s).
Proof. apply read_unregistered. Qed.


Lemma get_new_audio_chunks_unread_witness :
  let ops := [Register "gst"; Write [[1%Z]; [2%Z]];
              Write [[3%Z]; [4%Z]; [5%Z]; [6%Z]; [7%Z]]; Write [[8%Z]]] in
  let b := [[1%Z]; [2%Z]; [3%Z]; [4%Z]; [5%Z]; [6%Z]; [7%Z]; [8%Z]] in
  0 < 3 ∧ unread (log_run ops log0) !! "gst" = Some b ∧
  ∃ s r s',
    run ops (init 3 1) = Some s ∧
    get_new_audio_chunks "gst" s = Some (r, s') ∧
    last_reads s' !! "gst" = Some (total_written s') ∧
    total_written s' = total_written s ∧
    (length b ≤ 3 → r = b) ∧
    (3 < length b → r = lastn 3 (written (log_run ops log0)) ∧ length r = 3).
Proof.
  intros ops b. split; [lia|]. split; [reflexivity|].
  apply (get_new_audio_chunks_unread 3 1 ops "gst" b); [lia | reflexivity].
Defined.

Lemma get_new_audio_chunks_unregistered_witness :
  let s := register_consumer "gst" (init 4 1) in
  last_reads s !! "clip" = None ∧ get_new_audio_chunks "clip" s = Some ([], s).
Proof.
  intros s. split; [reflexivity|].
  apply (get_new_audio_chunks_unregistered s "clip"). reflexivity.
Defined.
End AudioStreamFacts.

Module TranscriberFacts.
Import AudioStream AudioStreamFacts Transcriber.

Lemma read_chunk s g c :
  inv s g →
  ∃ s', get_new_audio_chunks c s =
          Some (lastn (capacity s) (default [] (unread g !! c)), s') ∧
        inv s' (log_step (Read c) g) ∧ capacity s' = capacity s.
Proof.
  intros Hinv. destruct (inv_read s g c Hinv) as (r & s' & Hget & Hinv' & Hcap & _ & Hr).
  exists s'. split; [|done]. destruct (unread g !! c) as [b|] eqn:Hb; simpl.
  - by destruct (Hr b eq_refl) as [<- _].
  - pose proof (inv_cursors _ _ Hinv c) as Hok. unfold cursor_ok in Hok.
    rewrite Hb in Hok. destruct (last_reads s !! c) eqn:Hlr; [done|].
    rewrite (read_unregistered s c Hlr) in Hget.
    injection Hget as <- <-. by rewrite read_unregistered.
Qed.

Lemma unread_after_writes ws : ∀ g c,
  unread (log_run (Write <$> ws) g) !! c = (λ b, b ++ concat ws) <$> unread g !! c.
Proof.
  induction ws as [|d ws IH]; intros g c; simpl.
  - destruct (unread g !! c); simpl; [|done]. by rewrite app_nil_r.
  - rewrite IH. simpl. rewrite lookup_fmap.
    destruct (unread g !! c); simpl; [|done]. by rewrite app_assoc.
Qed.

Lemma unread_after_read g c : unread (log_step (Read c) g) !! c = (λ _, []) <$> unread g !! c.
Proof. simpl. by rewrite lookup_alter_eq. Qed.

Lemma same_shape_size c1 c2 : same_shape c1 c2 → size c1 = size c2.
Proof.
  unfold size. induction 1 as [|f1 f2 c1 c2 Hf _ IH]; simpl; [done|].
  rewrite !length_app. lia.
Qed.

Lemma same_shape_refl c : same_shape c c.
Proof. by apply Forall_Forall2_diag, Forall_true. Qed.

Lemma same_shape_concat ws1 ws2 :
  Forall2 same_shape ws1 ws2 → same_shape (concat ws1) (concat ws2).
Proof. induction 1; simpl; [constructor|]. by apply Forall2_app. Qed.

Lemma same_shape_lastn n c1 c2 : same_shape c1 c2 → same_shape (lastn n c1) (lastn n c2).
Proof.
  intros H. unfold lastn. rewrite (Forall2_length _ _ _ H). by apply Forall2_drop.
Qed.

(** The items yielded from two streams that hold the same backlog for the
    consumer, over passes that differ only while muted, agree once the
    muted chunks are replaced by silence. *)
Lemma requests_paired sr cid polls1 polls2 :
  Forall2 differ_only_muted polls1 polls2 →
  ∀ s1 s2 g1 g2,
    inv s1 g1 → inv s2 g2 → capacity s1 = capacity s2 →
    unread g1 !! cid = unread g2 !! cid →
    ∃ out, requests sr cid polls1 s1 = Some out ∧ requests sr cid polls2 s2 = Some out.
Proof.
  unfold requests.
  induction 1 as [|p1 p2 polls1 polls2 (Hflag & Hshape & Heq) _ IH];
    intros s1 s2 g1 g2 Hinv1 Hinv2 Hcap Hun; simpl.
  - by exists [].
  - destruct (inv_run (Write <$> captured p1) s1 g1 Hinv1) as (s1' & -> & Hinv1' & Hcap1).
    destruct (inv_run (Write <$> captured p2) s2 g2 Hinv2) as (s2' & -> & Hinv2' & Hcap2).
    simpl.
    destruct (read_chunk s1' _ cid Hinv1') as (s1'' & -> & Hinv1'' & Hcap1').
    destruct (read_chunk s2' _ cid Hinv2') as (s2'' & -> & Hinv2'' & Hcap2').
    simpl. rewrite !unread_after_writes, <- Hun, Hcap1, Hcap2, <- Hcap.
    destruct (IH s1'' s2'' _ _ Hinv1'' Hinv2'') as (out & Hout1 & Hout2).
    { congruence. }
    { by rewrite !unread_after_read, !unread_after_writes, <- Hun;
        destruct (unread g1 !! cid). }
    destruct (audio_generator cid polls1 s1'') as [items1|]; [|done].
    destruct (audio_generator cid polls2 s2'') as [items2|]; [|done].
    simpl in *. injection Hout1 as <-. injection Hout2 as Hout2.
    set (b := unread g1 !! cid).
    set (c1 := lastn (capacity s1) (default [] ((λ b, b ++ concat (captured p1)) <$> b))).
    set (c2 := lastn (capacity s1) (default [] ((λ b, b ++ concat (captured p2)) <$> b))).
    assert (Hsh : same_shape c1 c2).
    { apply same_shape_lastn. destruct b; simpl; [|constructor].
      apply Forall2_app; [apply same_shape_refl | by apply same_shape_concat]. }
    rewrite <- (same_shape_size _ _ Hsh).
    eexists. split; [reflexivity|]. f_equal.
    case_decide; [|done]. simpl. rewrite <- Hflag, Hout2.
    destruct (enabled_at_yield p1) eqn:Hen; [|done].
    unfold c1, c2. by rewrite (Heq eq_refl).
Qed.

(** Audio captured while muted and not yet read when [resume_listening]
    sets the flag: the pass that follows yields it as it is.  The two runs
    differ only in that audio, and feed different bytes. *)
Lemma muted_capture_is_fed_after_resume :
  let s := register_consumer "gst" (AudioStream.init 4 1) in
  let es1 := [Pause; Capture [[1%Z]]; Poll; Capture [[4%Z]]; Resume; Poll] in
  let es2 := [Pause; Capture [[2%Z]]; Poll; Capture [[9%Z]]; Resume; Poll] in
  differ_only_while_muted true es1 es2 ∧
  requests 16000 "gst" (polls_of es1 true []) s
    = Some [silence 16000; [Byte.x04; Byte.x00]] ∧
  requests 16000 "gst" (polls_of es2 true []) s
    = Some [silence 16000; [Byte.x09; Byte.x00]] ∧
  requests 16000 "gst" (polls_of es1 true []) s
    ≠ requests 16000 "gst" (polls_of es2 true []) s.
Proof.
  split; [simpl; repeat split; try done; repeat constructor|].
  split; [reflexivity|]. split; [reflexivity|]. vm_compute. discriminate.
Qed.

(** C2, amended.  Every item that [_audio_iterator] yields while
    [listening_enabled] is false is the silence frame, a fixed number of
    zero bytes; and two runs from the same stream state whose passes differ
    only in the samples of the chunks yielded while the flag is false feed
    the same bytes to the session.  The flag counts as it is when the chunk
    is yielded, whatever it was when the samples were captured. *)
Theorem muted_feed_is_silence sr cid s polls1 polls2 :
  reachable s →
  Forall2 differ_only_muted polls1 polls2 →
  ∃ items1 items2,
    audio_generator cid polls1 s = Some items1 ∧
    audio_generator cid polls2 s = Some items2 ∧
    (∀ i chunk,
        items1 !! i = Some (chunk, false) →
        _audio_iterator sr items1 !! i
          = Some (replicate (Z.to_nat (Z.quot (sr * MUTE_FILL_MS * 2) 1000)) Byte.x00)) ∧
    _audio_iterator sr items1 = _audio_iterator sr items2.
Proof.
  intros (cap & ch & ops & Hcap & Hrun) Hes.
  destruct (inv_run ops _ _ (inv_init cap ch Hcap)) as (s' & Hrun' & Hinv & _).
  assert (s' = s) as -> by congruence.
  destruct (requests_paired sr cid _ _ Hes s s _ _ Hinv Hinv)
    as (out & H1 & H2); [done..|].
  unfold requests in H1, H2.
  destruct (audio_generator cid polls1 s) as [items1|]; [|done].
  destruct (audio_generator cid polls2 s) as [items2|]; [|done].
  simpl in H1, H2. exists items1, items2. repeat split; [| congruence].
  intros i chunk Hi. unfold _audio_iterator. by rewrite list_lookup_fmap, Hi.
Qed.

(** *** The worker loop *)

Lemma run_events_app ev1 ev2 w :
  run_events (ev1 ++ ev2) w = run_events ev2 (run_events ev1 w).
Proof. apply foldl_app. Qed.

Lemma dead_forever events : ∀ w,
  alive w = false →
  alive (run_events events w) = false ∧
  reopens (run_events events w) = reopens w ∧
  sleeps (run_events events w) = sleeps w.
Proof.
  induction events as [|e events IH]; intros w Hdead; simpl; [done|].
  assert (Hstep : alive (step e w) = false ∧ reopens (step e w) = reopens w ∧
                  sleeps (step e w) = sleeps w).
  { unfold step. rewrite Hdead. simpl. by destruct e. }
  destruct Hstep as (Ha & Hr & Hs). destruct (IH _ Ha) as (? & ? & ?).
  repeat split; congruence.
Qed.

Lemma retryable_step w code :
  alive w = true → shutdown w = false → code ∈ _RETRYABLE →
  step (RaiseRpcError code) w =
    _restart_rpc (sleep (Z.min (2 ^ Z.of_nat (backoff w)) 30) (set_backoff (S (backoff w)) w)).
Proof.
  intros Ha Hs Hc. unfold step. rewrite Ha, Hs. simpl.
  rewrite bool_decide_eq_true_2 by done. simpl. unfold while_check. simpl. by rewrite Hs.
Qed.

Lemma retries_wait codes : ∀ w,
  alive w = true → shutdown w = false → Forall (λ c, c ∈ _RETRYABLE) codes →
  sleeps (run_events (RaiseRpcError <$> codes) w) =
    sleeps w ++ ((λ i : nat, Z.min (2 ^ Z.of_nat i) 30) <$> seq (backoff w) (length codes)) ∧
  alive (run_events (RaiseRpcError <$> codes) w) = true ∧
  shutdown (run_events (RaiseRpcError <$> codes) w) = false ∧
  reopens (run_events (RaiseRpcError <$> codes) w) = reopens w + length codes.
Proof.
  induction codes as [|c codes IH]; intros w Ha Hs Hall.
  - simpl. rewrite app_nil_r. repeat split; try done; lia.
  - inversion Hall as [|?? Hc Hcodes]; subst.
    change (run_events (RaiseRpcError <$> c :: codes) w)
      with (run_events (RaiseRpcError <$> codes) (step (RaiseRpcError c) w)).
    rewrite retryable_step by done.
    set (w1 := _restart_rpc _).
    destruct (IH w1) as (H1 & H2 & H3 & H4); try done.
    rewrite H1, H4. simpl. rewrite <- app_assoc. repeat split; try done; lia.
Qed.

(** C3.  When the worker has just started, or has just processed a response,
    and is neither stopped nor shut down, N consecutive retryable RPC errors
    make it sleep min(2^0,30), min(2^1,30), ..., min(2^(N-1),30) seconds. *)
Theorem backoff_wait_sequence (w : t) (pre : list event) (codes : list StatusCode) :
  let w1 := _transcribe_loop pre w in
  alive w1 = true → shutdown w1 = false →
  (pre = [] ∨ ∃ pre' r now, pre = pre' ++ [Response r now]) →
  Forall (λ c, c ∈ _RETRYABLE) codes →
  sleeps (_transcribe_loop (pre ++ (RaiseRpcError <$> codes)) w) =
    sleeps w1 ++ ((λ i : nat, Z.min (2 ^ Z.of_nat i) 30) <$> seq 0 (length codes)).
Proof.
  intros w1 Ha Hs Hpre Hcodes.
  assert (Hb : backoff w1 = 0).
  { destruct Hpre as [-> | (pre' & r & now & ->)].
    - unfold w1, _transcribe_loop, while_check. simpl. by case_match.
    - unfold w1, _transcribe_loop in *. rewrite run_events_app in *.
      set (w0 := run_events pre' _) in *. clearbody w0. unfold run_events in *. simpl in *.
      unfold step in *. destruct (alive w0) eqn:Ha0; simpl in *; [|congruence].
      destruct (_handle_response r now w0) as [w2|]; simpl in *; [|done].
      by destruct (shutdown w2). }
  unfold _transcribe_loop in *. rewrite run_events_app. fold w1.
  destruct (retries_wait codes w1 Ha Hs Hcodes) as (H & _). by rewrite Hb in H.
Qed.

Lemma retryable_as_listed_fails :
  ¬ ∀ (w : t) (code : StatusCode),
      alive w = true → shutdown w = false →
      (alive (step (RaiseRpcError code) w) = true ↔ code ∈ listed_retryable).
Proof.
  intros H.
  pose proof (proj2 (H (_transcribe_loop [] (init 0)) RESOURCE_EXHAUSTED eq_refl eq_refl)) as H2.
  assert (Hin : RESOURCE_EXHAUSTED ∈ listed_retryable) by constructor.
  apply H2 in Hin. discriminate Hin.
Qed.

(** C4, amended.  A running worker that meets an RPC error while no shutdown
    is requested reconnects (after the backoff sleep) if and only if the code
    is INTERNAL, UNAVAILABLE, CANCELLED or DEADLINE_EXCEEDED; on any other
    code it terminates and never reopens the stream. *)
Theorem rpc_error_retry_iff (w : t) (code : StatusCode) :
  alive w = true → shutdown w = false →
  let w' := step (RaiseRpcError code) w in
  (alive w' = true ↔ code ∈ [INTERNAL; UNAVAILABLE; CANCELLED; DEADLINE_EXCEEDED]) ∧
  (alive w' = true →
     sleeps w' = sleeps w ++ [Z.min (2 ^ Z.of_nat (backoff w)) 30] ∧
     reopens w' = S (reopens w)) ∧
  (alive w' = false →
     ∀ events, alive (run_events events w') = false ∧
               reopens (run_events events w') = reopens w ∧
               sleeps (run_events events w') = sleeps w).
Proof.
  intros Ha Hs w'.
  destruct (decide (code ∈ _RETRYABLE)) as [Hin|Hout].
  - assert (Hw' : w' = _restart_rpc (sleep (Z.min (2 ^ Z.of_nat (backoff w)) 30)
                                        (set_backoff (S (backoff w)) w)))
      by (by apply retryable_step).
    rewrite Hw'. simpl. rewrite Ha. split; [done|]. split; [done|]. congruence.
  - assert (Hw' : w' = set_alive false w).
    { unfold w', step. rewrite Ha. simpl. by rewrite bool_decide_eq_false_2. }
    rewrite Hw'. simpl. split; [split; [done|]; intros Hin; by destruct Hout|].
    split; [done|]. intros _ events. by apply (dead_forever events (set_alive false w)).
Qed.

Lemma muted_feed_is_silence_witness :
  let s := register_consumer "gst" (AudioStream.init 4 1) in
  let es1 := [Capture [[1%Z]; [(-2)%Z]]; Poll; Pause; Capture [[3%Z]; [4%Z]]; Poll;
              Capture [[6%Z]]; Poll; Resume; Capture [[5%Z]]; Poll] in
  let es2 := [Capture [[1%Z]; [(-2)%Z]]; Poll; Pause; Capture [[9%Z]; [9%Z]]; Poll;
              Capture [[7%Z]]; Poll; Resume; Capture [[5%Z]]; Poll] in
  let polls1 := polls_of es1 true [] in
  let polls2 := polls_of es2 true [] in
  reachable s ∧ Forall2 differ_only_muted polls1 polls2 ∧
  ∃ items1 items2,
    audio_generator "gst" polls1 s = Some items1 ∧
    audio_generator "gst" polls2 s = Some items2 ∧
    (∀ i chunk,
        items1 !! i = Some (chunk, false) →
        _audio_iterator 16000 items1 !! i
          = Some (replicate (Z.to_nat (Z.quot (16000 * MUTE_FILL_MS * 2) 1000)) Byte.x00)) ∧
    _audio_iterator 16000 items1 = _audio_iterator 16000 items2.
Proof.
  intros s es1 es2 polls1 polls2.
  assert (Hs : reachable s).
  { exists 4, 1, [Register "gst"]. split; [lia | reflexivity]. }
  assert (Hes : Forall2 differ_only_muted polls1 polls2).
  { repeat constructor; simpl; done. }
  split; [exact Hs|]. split; [exact Hes|].
  exact (muted_feed_is_silence 16000 "gst" s polls1 polls2 Hs Hes).
Defined.

Lemma backoff_wait_sequence_witness :
  let w := Transcriber.init 0 in
  let pre := [Response [mkResult ["hello"] true] 1] in
  let codes := [UNAVAILABLE; INTERNAL; CANCELLED; DEADLINE_EXCEEDED; UNAVAILABLE; UNAVAILABLE] in
  sleeps (_transcribe_loop (pre ++ (RaiseRpcError <$> codes)) w) =
    sleeps (_transcribe_loop pre w) ++
    ((λ i : nat, Z.min (2 ^ Z.of_nat i) 30) <$> seq 0 (length codes)).
Proof.
  intros w pre codes.
  apply (backoff_wait_sequence w pre codes).
  - reflexivity.
  - reflexivity.
  - right. exists [], [mkResult ["hello"] true], 1%Q. reflexivity.
  - unfold codes, _RETRYABLE. repeat constructor.
Defined.

Lemma rpc_error_retry_iff_witness :
  let w := _transcribe_loop [] (Transcriber.init 0) in
  let w' := step (RaiseRpcError INTERNAL) w in
  (alive w' = true ↔ INTERNAL ∈ [INTERNAL; UNAVAILABLE; CANCELLED; DEADLINE_EXCEEDED]) ∧
  (alive w' = true →
     sleeps w' = sleeps w ++ [Z.min (2 ^ Z.of_nat (backoff w)) 30] ∧
     reopens w' = S (reopens w)) ∧
  (alive w' = false →
     ∀ events, alive (run_events events w') = false ∧
               reopens (run_events events w') = reopens w ∧
               sleeps (run_events events w') = sleeps w).
Proof.
  intros w. apply (rpc_error_retry_iff w INTERNAL); reflexivity.
Defined.
End TranscriberFacts.

Module EmotionDetectorFacts.
Import EmotionDetector.
Local Open Scope Q_scope.

(** *** Rounding *)

Lemma Qmake_100 (z : Z) : z # 100 == inject_Z z * (1 # 100).
Proof. unfold Qeq. simpl. lia. Qed.

Lemma round_half_even_error (x : Q) :
  Qabs (inject_Z (Py.round_half_even x) - x) <= 1 # 2.
Proof.
  unfold Py.round_half_even.
  pose proof (Qfloor_le x) as Hlo. pose proof (Qlt_floor x) as Hhi.
  rewrite inject_Z_plus in Hhi.
  assert (H1 : inject_Z 1 == 1) by reflexivity.
  apply Qabs_Qle_condition.
  destruct (Qcompare_spec (x - inject_Z (Qfloor x)) (1 # 2)) as [He|Hl|Hg].
  - destruct (Z.even (Qfloor x)); rewrite ?inject_Z_plus; split; lra.
  - split; lra.
  - rewrite inject_Z_plus. split; lra.
Qed.

Lemma round2_error (x : Q) : Qabs (Py.round2 x - x) <= 1 # 200.
Proof.
  unfold Py.round2. rewrite Qred_correct, Qmake_100.
  pose proof (round_half_even_error (x * 100)) as H.
  apply Qabs_Qle_condition in H. apply Qabs_Qle_condition.
  split; lra.
Qed.

(** *** Spans *)

Lemma contiguous_snoc a spans b label c :
  contiguous a spans b → contiguous a (spans ++ [(label, b, c)]) c.
Proof.
  revert a. induction spans as [|[[l st] en] spans IH]; intros a; simpl.
  - by intros ->.
  - intros [-> H]. split; [done|]. by apply IH.
Qed.

Lemma contiguous_exact_total a spans b :
  contiguous a spans b → exact_total spans == b - a.
Proof.
  revert a. induction spans as [|[[l st] en] spans IH]; intros a; simpl.
  - intros ->. lra.
  - intros [-> H]. rewrite (IH _ H). lra.
Qed.

Lemma total_rounded_error spans :
  Qabs (total (rounded_span <$> spans) - exact_total spans)
    <= inject_Z (Z.of_nat (length spans)) * (1 # 200).
Proof.
  induction spans as [|[[l st] en] spans IH].
  - apply Qabs_Qle_condition. split; vm_compute; discriminate.
  - change (total (rounded_span <$> (l, st, en) :: spans))
      with (Py.round2 (en - st) + total (rounded_span <$> spans)).
    change (exact_total ((l, st, en) :: spans)) with ((en - st) + exact_total spans).
    change (length ((l, st, en) :: spans)) with (S (length spans)).
    rewrite Nat2Z.inj_succ. unfold Z.succ. rewrite inject_Z_plus.
    pose proof (round2_error (en - st)) as H.
    apply Qabs_Qle_condition in H, IH. apply Qabs_Qle_condition.
    assert (H1 : inject_Z 1 == 1) by reflexivity.
    split; lra.
Qed.

Lemma tracked_run calls : ∀ t0 s R,
  tracked t0 calls s R →
  is_Some (current_emotion (run_calls calls s).2) ∧
  contiguous t0 (_history_spans (run_calls calls s).2) (_span_start (run_calls calls s).2) ∧
  (R ++ (run_calls calls s).1) ++ _emo_spans (run_calls calls s).2
    = rounded_span <$> _history_spans (run_calls calls s).2.
Proof.
  induction calls as [|[label now|now] calls IH]; intros t0 s R Htr.
  - unfold tracked in Htr. simpl. destruct (current_emotion s).
    + rewrite app_nil_r. by destruct Htr.
    + by destruct Htr as (_ & _ & _ & ?).
  - simpl. apply IH. unfold tracked, on_sample, close_span in *.
    case_decide as Hsame.
    + by rewrite <- Hsame in *.
    + destruct (current_emotion s) as [cur|]; simpl.
      * destruct Htr as [Hc HR]. split; [by apply contiguous_snoc|].
        by rewrite app_assoc, HR, fmap_app.
      * destruct Htr as (Hh & He & -> & [= <-]). by rewrite Hh, He.
  - simpl. unfold get_summary_and_reset.
    destruct (current_emotion s) as [cur|] eqn:Hcur.
    + unfold close_span. rewrite Hcur. simpl.
      match goal with |- context [run_calls calls ?s1] =>
        specialize (IH t0 s1 (R ++ _emo_spans s ++ [(cur, Py.round2 (now - _span_start s))]));
        destruct (run_calls calls s1) as [rest s'] end.
      simpl in *. rewrite (app_assoc R). apply IH.
      unfold tracked in *. rewrite Hcur in Htr. simpl. destruct Htr as [Hc HR].
      split; [by apply contiguous_snoc|].
      by rewrite app_nil_r, app_assoc, HR, fmap_app.
    + simpl.
      match goal with |- context [run_calls calls ?s1] =>
        specialize (IH t0 s1 R); destruct (run_calls calls s1) as [rest s'] end.
      simpl in *. unfold tracked in Htr. rewrite Hcur in Htr.
      destruct Htr as (Hh & He & -> & Hfs). rewrite He. simpl. apply IH.
      unfold tracked. simpl. by rewrite Hcur.
Qed.

Lemma run_calls_reset now calls s :
  run_calls (SummaryAndReset now :: calls) s =
    ((get_summary_and_reset now s).1 ++ (run_calls calls (get_summary_and_reset now s).2).1,
     (run_calls calls (get_summary_and_reset now s).2).2).
Proof.
  cbn [run_calls]. destruct (get_summary_and_reset now s) as [summary s1].
  cbn [fst snd]. by destruct (run_calls calls s1).
Qed.

Lemma run_calls_app calls1 calls2 s :
  run_calls (calls1 ++ calls2) s =
    ((run_calls calls1 s).1 ++ (run_calls calls2 (run_calls calls1 s).2).1,
     (run_calls calls2 (run_calls calls1 s).2).2).
Proof.
  revert s. induction calls1 as [|[label now|now] calls1 IH]; intros s.
  - simpl. by destruct (run_calls calls2 s).
  - apply IH.
  - rewrite <- app_comm_cons, !run_calls_reset, IH. cbn [fst snd]. by rewrite app_assoc.
Qed.

Lemma first_sample_app calls1 calls2 t0 :
  first_sample calls1 = Some t0 → first_sample (calls1 ++ calls2) = Some t0.
Proof.
  induction calls1 as [|[label now|now] calls1 IH]; simpl.
  - intros [=].
  - done.
  - apply IH.
Qed.

Lemma after_reset now s :
  _emo_spans (get_summary_and_reset now s).2 = [] ∧
  (is_Some (current_emotion (get_summary_and_reset now s).2) →
   _span_start (get_summary_and_reset now s).2 = now).
Proof.
  unfold get_summary_and_reset, close_span.
  destruct (current_emotion s) eqn:E; simpl; rewrite ?E; simpl; [done|].
  split; [done|]. by intros [].
Qed.

(** *** Passes that are not interrupted *)

Lemma run_actions_app actions1 actions2 st :
  run_actions (actions1 ++ actions2) st =
    ((run_actions actions1 st).1 ++ (run_actions actions2 (run_actions actions1 st).2).1,
     (run_actions actions2 (run_actions actions1 st).2).2).
Proof.
  revert st. induction actions1 as [|a actions1 IH]; intros st.
  - simpl. by destruct (run_actions actions2 st).
  - rewrite <- app_comm_cons. cbn [run_actions].
    destruct (act a st) as [summary st1]. rewrite IH.
    destruct (run_actions actions1 st1) as [rest st2]. cbn [fst snd].
    destruct (run_actions actions2 st2) as [rest' st3]. cbn [fst snd].
    by rewrite app_assoc.
Qed.

(** A pass that nothing interrupts is [on_sample]. *)
Lemma sample_steps label now s :
  run_actions (steps_of (Sample label now)) (Idle, s) = ([], (Idle, on_sample label now s)).
Proof.
  unfold steps_of, on_sample, close_span. cbn [run_actions act fst snd]. unfold begin_pass.
  case_decide; [done|].
  destruct (current_emotion s) as [cur|] eqn:Hcur; cbn [act fst snd]; [|done].
  unfold append_span. by rewrite Hcur.
Qed.

Lemma reset_steps now s :
  run_actions (steps_of (SummaryAndReset now)) (Idle, s) =
    ((get_summary_and_reset now s).1, (Idle, (get_summary_and_reset now s).2)).
Proof.
  unfold steps_of. cbn [run_actions act fst snd].
  destruct (get_summary_and_reset now s) as [summary s1]. cbn [fst snd].
  by rewrite app_nil_r.
Qed.

Lemma run_calls_cons c calls s :
  run_calls (c :: calls) s =
    ((run_calls [c] s).1 ++ (run_calls calls (run_calls [c] s).2).1,
     (run_calls calls (run_calls [c] s).2).2).
Proof. apply (run_calls_app [c] calls s). Qed.

(** Calls that do not overlap act as [run_calls] says. *)
Lemma run_serial calls : ∀ s,
  run_actions (serial calls) (Idle, s) =
    ((run_calls calls s).1, (Idle, (run_calls calls s).2)).
Proof.
  unfold serial. induction calls as [|c calls IH]; intros s; [done|].
  rewrite bind_cons, run_actions_app, run_calls_cons. cbn [fst snd].
  destruct c as [label now|now].
  - rewrite sample_steps. cbn [fst snd run_calls]. by rewrite IH.
  - rewrite reset_steps. cbn [fst snd]. rewrite IH.
    rewrite run_calls_reset. cbn [run_calls fst snd]. by rewrite app_nil_r.
Qed.

(** With readings in the order of the calls, no span ends before it
    starts. *)
Lemma calls_keep_lengths calls : ∀ s t,
  nondecreasing t (call_time <$> calls) →
  _span_start s <= t →
  Forall (λ sp : string * Q * Q, sp.1.2 <= sp.2) (_history_spans s) →
  Forall (λ sp : string * Q * Q, sp.1.2 <= sp.2) (_history_spans (run_calls calls s).2).
Proof.
  induction calls as [|c calls IH]; intros s t Hnd Hstart Hpos; [done|].
  rewrite fmap_cons in Hnd. destruct Hnd as [Ht Hnd].
  rewrite run_calls_cons. cbn [snd]. apply (IH _ (call_time c) Hnd).
  - destruct c as [label now|now]; simpl in *.
    + unfold on_sample. case_decide; simpl; [lra | apply Qle_refl].
    + unfold get_summary_and_reset.
      destruct (current_emotion s); simpl; [apply Qle_refl | lra].
  - destruct c as [label now|now]; simpl in *.
    + unfold on_sample, close_span. case_decide; [done|].
      destruct (current_emotion s); simpl; [|done].
      apply Forall_app. split; [done|]. constructor; [simpl; lra | done].
    + unfold get_summary_and_reset, close_span.
      destruct (current_emotion s); simpl; [|done].
      apply Forall_app. split; [done|]. constructor; [simpl; lra | done].
Qed.

Lemma summaries_sum_not_elapsed :
  let calls := [Sample "happy" 1; Sample "sad" (2004 # 1000); SummaryAndReset (3008 # 1000)] in
  (run_actions (serial calls) (Idle, init 0)).1 = [("happy", 1); ("sad", 1)] ∧
  first_sample calls = Some 1 ∧
  ¬ total (run_actions (serial calls) (Idle, init 0)).1 == (3008 # 1000) - 1 ∧
  ¬ total (run_actions (serial calls) (Idle, init 0)).1 == (3008 # 1000) - 0.
Proof. repeat split; vm_compute; discriminate. Qed.

(** A [get_summary_and_reset] that takes the lock inside a pass, after the
    duration is computed (l.101) and before the span is appended (l.102):
    the pass appends its stale duration, and the time from the first sample
    (1) to the reset (5.5) is returned twice.  The clock readings 1, 5, 5.5
    and 7 are in order. *)
Lemma reset_inside_a_pass_counts_twice :
  let actions := [Begin "happy" 1; Step; Step; Step;
                  Begin "sad" 5; Reset (11 # 2); Step; Step; Step; Reset 7] in
  (run_actions actions (Idle, init 0)).1
    = [("happy", 9 # 2); ("happy", 4); ("sad", 2)] ∧
  _history_spans (run_actions actions (Idle, init 0)).2.2
    = [("happy", 1, 11 # 2); ("happy", 11 # 2, 5); ("sad", 5, 7)] ∧
  total (run_actions actions (Idle, init 0)).1 == 21 # 2 ∧
  ¬ Qabs (total (run_actions actions (Idle, init 0)).1 - (7 - 1))
      <= inject_Z 3 * (1 # 200).
Proof.
  split; [reflexivity|]. split; [reflexivity|]. split; [reflexivity|].
  vm_compute. intros H. by apply H.
Qed.

(** C7, amended.  Over any sequence of classified samples and calls of
    [get_summary_and_reset] that do not overlap (no call takes the lock
    inside a pass of the sampling loop) and that ends with such a call at
    [now]: the pairs returned are, in order, the spans of the history with
    their lengths rounded to hundredths; each span starts where the previous
    one ends, from the first classified sample [t0] to [now], so their exact
    lengths add up to [now - t0], and the returned durations add up to
    [now - t0] within 0.005 s per returned span.  When the clock readings
    come in the order of the calls, no span ends before it starts: the spans
    cover the time from [t0] to [now] without gap or overlap. *)
Theorem summaries_cover_tracked_time (calls : list call) (start now t0 : Q) :
  first_sample calls = Some t0 →
  let script := serial (calls ++ [SummaryAndReset now]) in
  let returned := (run_actions script (Idle, init start)).1 in
  let history := _history_spans (run_actions script (Idle, init start)).2.2 in
  returned = rounded_span <$> history ∧
  contiguous t0 history now ∧
  exact_total history == now - t0 ∧
  Qabs (total returned - (now - t0)) <= inject_Z (Z.of_nat (length returned)) * (1 # 200) ∧
  (nondecreasing start (call_time <$> calls ++ [SummaryAndReset now]) →
   Forall (λ sp : string * Q * Q, sp.1.2 <= sp.2) history).
Proof.
  intros Hfirst script returned history.
  unfold returned, history, script. rewrite run_serial. cbn [fst snd].
  clear script returned history.
  set (returned := (run_calls (calls ++ [SummaryAndReset now]) (init start)).1).
  set (history := _history_spans (run_calls (calls ++ [SummaryAndReset now]) (init start)).2).
  assert (Htr : tracked t0 (calls ++ [SummaryAndReset now]) (init start) []).
  { unfold tracked. simpl. repeat split; try done. by apply first_sample_app. }
  destruct (tracked_run _ _ _ _ Htr) as ([cur Hcur] & Hc & HR).
  fold history in Hc, HR. simpl in HR. fold returned in HR.
  assert (Hlast : _emo_spans (run_calls (calls ++ [SummaryAndReset now]) (init start)).2 = [] ∧
                  (is_Some (current_emotion (run_calls (calls ++ [SummaryAndReset now]) (init start)).2) →
                  _span_start (run_calls (calls ++ [SummaryAndReset now]) (init start)).2 = now)).
  { rewrite run_calls_app, run_calls_reset. cbn [fst snd run_calls]. apply after_reset. }
  destruct Hlast as [Hemo Hstart]. rewrite Hemo, app_nil_r in HR.
  rewrite Hstart in Hc by eauto.
  pose proof (contiguous_exact_total _ _ _ Hc) as Hsum.
  split; [done|]. split; [done|]. split; [done|]. split.
  - rewrite HR at 1. rewrite HR at 1. rewrite length_fmap, <- Hsum.
    apply total_rounded_error.
  - intros Hnd. apply (calls_keep_lengths _ _ start Hnd); [apply Qle_refl | constructor].
Qed.

Lemma classifier_exception_ends_sampling :
  _detect_emotion (Some failing) 7%nat = Py.Raises ClassifierError ∧
  _run (Some failing) 5 [Frame (Some 7%nat) 1; Frame (Some 8%nat) 2; StopEvent 3] (init 0)
    = (Died ClassifierError, init 0).
Proof. split; reflexivity. Qed.

Lemma died_forever model fps ticks e s :
  run_ticks model fps ticks (Died e, s) = (Died e, s).
Proof. induction ticks as [|k ticks IH]; simpl; [done|]. apply IH. Qed.

(** C5, amended.  A sample is labelled "no-face" when no model is loaded or
    the classifier returns no detection; when the classifier raises,
    [_detect_emotion] raises too, and the sampling loop ends on that frame
    with the span state as it was. *)
Theorem detect_emotion_no_face_or_raise (m : classifier) (f : frame) :
  _detect_emotion None f = Py.Returns "no-face" ∧
  (m f = Py.Returns [] → _detect_emotion (Some m) f = Py.Returns "no-face") ∧
  (∀ e, m f = Py.Raises e →
     _detect_emotion (Some m) f = Py.Raises e ∧
     ∀ fps last_ts now s ticks,
       Py.ltb (now - last_ts) (1 # fps) = false →
       run_ticks (Some m) fps (Frame (Some f) now :: ticks) (Sampling last_ts, s)
         = (Died e, s)).
Proof.
  split; [done|]. split.
  - intros H. unfold _detect_emotion. by rewrite H.
  - intros e H. split.
    + unfold _detect_emotion. by rewrite H.
    + intros fps last_ts now s ticks Hdue. unfold run_ticks. simpl.
      unfold _run_step at 2. simpl. rewrite Hdue, H. apply died_forever.
Qed.

(** *** The sliding window *)






(** The span in progress is appended before the list is reversed. *)
Lemma span_in_progress_comes_first :
  get_recent_summary 10 20
    {| current_emotion := Some "sad"; _span_start := 5;
       _emo_spans := []; _history_spans := [("happy", 0, 5)] |}
  = [("sad", 5); ("happy", 5)].
Proof. reflexivity. Qed.


Lemma summaries_cover_tracked_time_witness :
  let calls := [Sample "happy" 1; Sample "sad" (2004 # 1000)] in
  let now := 3008 # 1000 in
  let script := serial (calls ++ [SummaryAndReset now]) in
  let returned := (run_actions script (Idle, init 0)).1 in
  let history := _history_spans (run_actions script (Idle, init 0)).2.2 in
  first_sample calls = Some 1 ∧
  returned = rounded_span <$> history ∧
  contiguous 1 history now ∧
  exact_total history == now - 1 ∧
  Qabs (total returned - (now - 1)) <= inject_Z (Z.of_nat (length returned)) * (1 # 200) ∧
  (nondecreasing 0 (call_time <$> calls ++ [SummaryAndReset now]) →
   Forall (λ sp : string * Q * Q, sp.1.2 <= sp.2) history).
Proof.
  intros calls now. split; [reflexivity|].
  apply (summaries_cover_tracked_time calls 0 now 1). reflexivity.
Defined.

Lemma detect_emotion_no_face_or_raise_witness :
  failing 7%nat = Py.Raises ClassifierError ∧
  _detect_emotion (Some failing) 7%nat = Py.Raises ClassifierError ∧
  run_ticks (Some failing) 5 [Frame (Some 7%nat) 1; Frame (Some 8%nat) 2] (Sampling 0, init 0)
    = (Died ClassifierError, init 0).
Proof.
  split; [reflexivity|].
  destruct (detect_emotion_no_face_or_raise failing 7%nat) as (_ & _ & H).
  destruct (H ClassifierError eq_refl) as [H1 H2].
  split; [exact H1|]. apply H2. reflexivity.
Defined.

End EmotionDetectorFacts.

Module MainFacts.
Import Main.
Local Open Scope Q_scope.

(** *** Idle injection *)

Lemma int_lt (x : Q) (n : Z) : (0 < n)%Z → x < inject_Z n → (Py.int x < n)%Z.
Proof.
  intros Hn Hx. unfold Py.int. destruct x as [a d]. unfold Qlt in Hx. simpl in *.
  destruct (Z.le_gt_cases 0 a) as [Ha|Ha].
  - apply Z.quot_lt_upper_bound; lia.
  - assert (a ÷ Z.pos d <= 0)%Z; [|lia].
    replace a with (- (- a))%Z by lia. rewrite Z.quot_opp_l by lia.
    pose proof (Z.quot_pos (- a) (Z.pos d)). lia.
Qed.

Lemma quiet_pass since p :
  quiet since p → loop_pass p since = (Continue, since).
Proof.
  intros (Hheard & Hpolled & Hidle). unfold loop_pass, poll_input, idle_sec.
  rewrite Hheard, Hpolled. simpl.
  rewrite decide_False; [done|]. apply Z.lt_nge. by apply int_lt.
Qed.

Lemma quiet_loop since passes :
  Forall (quiet since) passes → loop passes since = ([], since).
Proof.
  induction 1 as [|p passes Hp _ IH]; simpl; [done|].
  by rewrite quiet_pass.
Qed.

(** C9.  When the poll returns nothing and the computed idle time is at
    least [IDLE_TIMEOUT], the pass synthesizes the input "[[IDLE]]" and sets
    [last_activity] to the current time; a turn runs on that input, and the
    empty polls that follow within [IDLE_TIMEOUT] seconds of the end of that
    turn inject nothing more. *)
Theorem idle_injection_fires_once (p : pass) (last_activity : Q) (passes : list pass) :
  heard p = None → polled p = None →
  (IDLE_TIMEOUT ≤ idle_sec p last_activity)%Z →
  Forall (quiet (now_end p)) passes →
  poll_input p last_activity = (Some "[[IDLE]]", now_inject p) ∧
  loop (p :: passes) last_activity = (["[[IDLE]]"], now_end p).
Proof.
  intros Hheard Hpolled Hidle Hquiet.
  assert (Hpoll : poll_input p last_activity = (Some "[[IDLE]]", now_inject p)).
  { unfold poll_input. rewrite Hpolled. by rewrite decide_True. }
  split; [done|]. simpl. unfold loop_pass. rewrite Hheard. simpl. rewrite Hpoll.
  simpl. by rewrite quiet_loop.
Qed.

(** Speech at t = 0, then polls every half second: one turn on the
    sentinel at t = 20, none before and none in the polls that follow. *)
Example idle_scenario :
  let poll t := {| heard := None; now_top := t; polled := None;
                   now_inject := t + (1 # 2); now_end := t + 5 |} in
  loop [poll (19 # 1); poll (39 # 2); poll 20; poll (51 # 2); poll 26; poll (53 # 2)] 0
  = (["[[IDLE]]"], 25).
Proof. reflexivity. Qed.

(** *** Parsing the reply *)

(** [json.loads("{}")] is the empty dict: the reply has neither field, the
    spoken message is empty and the strategy of the previous turn is gone. *)
Lemma empty_object_reply :
  let prev := [("strategy", JString "hint at the theme"); ("message", JString "Hello")] in
  ∃ turn,
    parse_reply "{}" (Loaded (JObject [])) prev = Py.Returns (EmptyString, turn) ∧
    EmptyString ≠ "{}" ∧
    get turn "strategy" JNull ≠ get prev "strategy" JNull.
Proof. eexists. repeat split; [discriminate..]. Qed.

(** [json.loads("[]")] is a list, which has no [get]. *)
Lemma array_reply_raises prev :
  parse_reply "[]" (Loaded (JArray [])) prev = Py.Raises AttributeError.
Proof. reflexivity. Qed.

(** [json.loads] of an object whose message is a number: a number has no
    [strip]. *)
Lemma number_message_raises prev :
  parse_reply "{}" (Loaded (JObject [("strategy", JString "hint"); ("message", JNumber 5)])) prev
  = Py.Raises AttributeError.
Proof. reflexivity. Qed.

Lemma fallback_turns raws : ∀ prev_turn_json,
  ∃ turn,
    parse_replies ((λ raw, (raw, JSONDecodeError)) <$> raws) prev_turn_json
      = Py.Returns (Py.strip <$> raws, turn) ∧
    get turn "strategy" (JString "(unknown)")
      = get prev_turn_json "strategy" (JString "(unknown)") ∧
    (∀ raw, last raws = Some raw →
       turn = [("strategy", get prev_turn_json "strategy" (JString "(unknown)"));
               ("message", JString (Py.strip raw))]).
Proof.
  induction raws as [|raw raws IH]; intros prev.
  - exists prev. split; [done|]. split; [done|]. by intros raw.
  - set (turn1 := [("strategy", get prev "strategy" (JString "(unknown)"));
                   ("message", JString (Py.strip raw))]).
    destruct (IH turn1) as (turn & Hrun & Hstrategy & Hlast).
    exists turn. rewrite fmap_cons. cbn [parse_replies parse_reply].
    fold turn1. rewrite Hrun. split; [done|]. split; [exact Hstrategy|].
    intros raw' Hraw'. destruct raws as [|raw2 raws].
    + injection Hraw' as <-. simpl in Hrun. by injection Hrun as <-.
    + rewrite last_cons_cons in Hraw'. exact (Hlast raw' Hraw').
Qed.

(** C8, amended.  Over any number of replies in a row on which
    [json.loads] raises [JSONDecodeError], nothing is raised: each stripped
    raw reply is the spoken message, and the strategy of the turn before the
    first of them is still there after the last ("(unknown)" if that turn
    had none), in a record that holds the strategy and the last message.  A
    reply that parses to an object whose message is a string, or is absent,
    becomes the record of the turn as it is, with the empty message when
    absent. *)
Theorem reply_fallback (raws : list string) (prev_turn_json : dict) :
  (∃ turn,
     parse_replies ((λ raw, (raw, JSONDecodeError)) <$> raws) prev_turn_json
       = Py.Returns (Py.strip <$> raws, turn) ∧
     get turn "strategy" (JString "(unknown)")
       = get prev_turn_json "strategy" (JString "(unknown)") ∧
     (∀ raw, last raws = Some raw →
        turn = [("strategy", get prev_turn_json "strategy" (JString "(unknown)"));
                ("message", JString (Py.strip raw))])) ∧
  (∀ assistant_raw fields m,
     get fields "message" (JString EmptyString) = JString m →
     parse_reply assistant_raw (Loaded (JObject fields)) prev_turn_json
       = Py.Returns (Py.strip m, fields)).
Proof.
  split; [apply fallback_turns|].
  intros assistant_raw fields m H. simpl. by rewrite H.
Qed.

Lemma idle_injection_fires_once_witness :
  let poll t := {| heard := None; now_top := t; polled := None;
                   now_inject := t + (1 # 2); now_end := t + 5 |} in
  let passes := [poll (51 # 2); poll 26; poll (53 # 2)] in
  let p := poll 20 in
  (IDLE_TIMEOUT ≤ idle_sec p 0)%Z ∧
  Forall (quiet (now_end p)) passes ∧
  poll_input p 0 = (Some "[[IDLE]]", now_inject p) ∧
  loop (p :: passes) 0 = (["[[IDLE]]"], now_end p).
Proof.
  intros poll passes p.
  assert (Hidle : (IDLE_TIMEOUT ≤ idle_sec p 0)%Z) by (vm_compute; discriminate).
  assert (Hquiet : Forall (quiet (now_end p)) passes).
  { repeat constructor. }
  split; [exact Hidle|]. split; [exact Hquiet|].
  exact (idle_injection_fires_once p 0 passes eq_refl eq_refl Hidle Hquiet).
Defined.

Lemma reply_fallback_witness :
  let prev := [("strategy", JString "hint at the theme"); ("message", JString "Hello")] in
  let raws := [" Try 4 across! "; "Sorry, what was that?  "] in
  (∃ turn,
     parse_replies ((λ raw, (raw, JSONDecodeError)) <$> raws) prev
       = Py.Returns (["Try 4 across!"; "Sorry, what was that?"], turn) ∧
     get turn "strategy" (JString "(unknown)") = JString "hint at the theme" ∧
     (∀ raw, last raws = Some raw →
        turn = [("strategy", JString "hint at the theme");
                ("message", JString (Py.strip raw))])) ∧
  parse_reply "{}" (Loaded (JObject [])) prev = Py.Returns (EmptyString, []).
Proof.
  intros prev raws. split.
  - exact (proj1 (reply_fallback raws prev)).
  - exact (proj2 (reply_fallback raws prev) "{}" [] EmptyString eq_refl).
Defined.
End MainFacts.

Module AudioStreamMore.
Import AudioStream AudioStreamFacts AudioStreamScripts.

Lemma lastn_lastn_app {A} (l d : list A) n :
  lastn n (lastn n l ++ d) = lastn n (l ++ d).
Proof.
  destruct (decide (n ≤ length d)) as [Hd|Hd].
  - by rewrite !lastn_app_ge.
  - rewrite !lastn_app_le by lia. rewrite lastn_lastn. do 2 f_equal. lia.
Qed.

Lemma log_run_app ops1 ops2 g :
  log_run (ops1 ++ ops2) g = log_run ops2 (log_run ops1 g).
Proof. revert g. induction ops1 as [|o ops1 IH]; intros g; simpl; [done|]. apply IH. Qed.

Lemma run_app ops1 ops2 s :
  run (ops1 ++ ops2) s = s1 ← run ops1 s; run ops2 s1.
Proof.
  revert s. induction ops1 as [|o ops1 IH]; intros s; simpl; [done|].
  destruct (step o s) as [s1|]; simpl; [apply IH | done].
Qed.

(** The snapshot against the log of the script. *)
Lemma get_audio_data_inv s g :
  inv s g → get_audio_data s = lastn (capacity s) (written g).
Proof.
  intros [Hwf Hring Hcount Hcur]. pose proof (ring_view_length s Hwf) as Hlen.
  pose proof (wf_write_index s Hwf) as Hwi.
  destruct Hwf as (Hcap & Hrb & Hmod). unfold get_audio_data.
  case_decide as Hfull.
  - rewrite Nat.min_l in Hring, Hcount by lia.
    rewrite Nat.mod_small in Hmod by lia.
    assert (Hw : length (written g) = total_written s) by lia.
    rewrite (lastn_all (capacity s)) by lia.
    rewrite <- (lastn_all (total_written s) (written g)) by lia.
    rewrite <- Hring. unfold ring_view. rewrite lastn_app_length; [done|].
    rewrite length_take. lia.
  - rewrite Nat.min_r in Hring by lia.
    rewrite <- Hring. fold (ring_view s). by rewrite lastn_all by lia.
Qed.

Lemma reachable_inv s : reachable s → ∃ g, inv s g.
Proof.
  intros (cap & ch & ops & Hcap & Hrun).
  destruct (inv_run ops _ _ (inv_init cap ch Hcap)) as (s' & Hrun' & Hinv & _).
  exists (log_run ops log0). congruence.
Qed.

(** X1.  After any script of calls on a fresh stream, [get_audio_data]
    returns the last [capacity] samples handed to the callback, in the order
    of capture (all of them while fewer than [capacity] were captured),
    whatever the consumers have read. *)
Theorem get_audio_data_is_recent_audio cap ch ops :
  0 < cap →
  ∃ s, run ops (init cap ch) = Some s ∧
       get_audio_data s = lastn cap (written (log_run ops log0)).
Proof.
  intros Hcap.
  destruct (inv_run ops _ _ (inv_init cap ch Hcap)) as (s & Hrun & Hinv & Hc).
  exists s. split; [done|]. rewrite (get_audio_data_inv s _ Hinv). by rewrite Hc.
Qed.

(** X2.  On a reachable stream the capture callback never raises; it counts
    [min(len(indata), capacity)] new samples, leaves every cursor alone, and
    the snapshot afterwards is the last [capacity] samples of the old
    snapshot followed by [indata]: of an oversize chunk only the tail is
    kept. *)
Theorem audio_callback_extends_snapshot s indata :
  reachable s →
  ∃ s', _audio_callback indata s = Some s' ∧
        capacity s' = capacity s ∧
        total_written s' = total_written s + length indata `min` capacity s ∧
        last_reads s' = last_reads s ∧
        get_audio_data s' = lastn (capacity s) (get_audio_data s ++ indata).
Proof.
  intros Hs. destruct (reachable_inv s Hs) as [g Hinv].
  destruct (audio_callback_spec s indata (inv_wf _ _ Hinv))
    as (s' & Hrun & _ & Hcap & Htot & Hlr & _).
  destruct (inv_write s g indata Hinv) as (s'' & Hrun' & Hinv' & _).
  assert (s'' = s') as -> by congruence.
  exists s'. repeat split; try done.
  rewrite (get_audio_data_inv _ _ Hinv'), (get_audio_data_inv _ _ Hinv), Hcap.
  simpl. by rewrite lastn_lastn_app.
Qed.

(** X3.  A consumer that registers (again) starts from cursor 0: its next
    read returns what [get_audio_data] returns, the whole content of the
    ring. *)
Theorem first_read_after_register cap ch ops c :
  0 < cap →
  ∃ s r s', run (ops ++ [Register c]) (init cap ch) = Some s ∧
            get_new_audio_chunks c s = Some (r, s') ∧
            r = get_audio_data s.
Proof.
  intros Hcap.
  destruct (inv_run (ops ++ [Register c]) _ _ (inv_init cap ch Hcap))
    as (s & Hrun & Hinv & Hc).
  destruct (inv_read s _ c Hinv) as (r & s' & Hget & _ & _ & _ & Hr).
  exists s, r, s'. split; [done|]. split; [done|].
  rewrite (get_audio_data_inv _ _ Hinv).
  assert (Hun : unread (log_run (ops ++ [Register c]) log0) !! c
                = Some (written (log_run (ops ++ [Register c]) log0))).
  { rewrite log_run_app. simpl. by rewrite lookup_insert_eq. }
  by destruct (Hr _ Hun) as [-> _].
Qed.

Lemma write_then_read_inv c chunks : ∀ s g,
  inv s g → unread g !! c = Some [] →
  ∃ s' g', write_then_read c chunks s = Some (lastn (capacity s) <$> chunks, s') ∧
           inv s' g' ∧ unread g' !! c = Some [] ∧ capacity s' = capacity s.
Proof.
  induction chunks as [|d chunks IH]; intros s g Hinv Hun; simpl.
  - by exists s, g.
  - destruct (inv_write s g d Hinv) as (s1 & -> & Hinv1 & Hcap1). simpl.
    destruct (inv_read s1 _ c Hinv1) as (r & s2 & -> & Hinv2 & Hcap2 & _ & Hr). simpl.
    assert (Hun1 : unread (log_step (Write d) g) !! c = Some d).
    { simpl. by rewrite lookup_fmap, Hun. }
    destruct (Hr d Hun1) as [-> _].
    destruct (IH s2 _ Hinv2) as (s' & g' & Hrun & Hinv' & Hun' & Hcap').
    { simpl. rewrite lookup_alter_eq, lookup_fmap, Hun. done. }
    rewrite Hrun. simpl. exists s', g'. rewrite Hcap2, Hcap1 in *.
    split; [done|]. split; [done|]. by split.
Qed.

(** X4.  A registered consumer that has just read and then reads after
    every callback receives, for each chunk, its last [capacity] samples:
    chunks that fit in the ring arrive whole, in order, nothing twice. *)
Theorem read_after_each_write cap ch ops c chunks :
  0 < cap →
  is_Some (unread (log_run ops log0) !! c) →
  ∃ s s', run (ops ++ [Read c]) (init cap ch) = Some s ∧
          write_then_read c chunks s = Some (lastn cap <$> chunks, s') ∧
          (Forall (λ d, length d ≤ cap) chunks → lastn cap <$> chunks = chunks).
Proof.
  intros Hcap [b Hb].
  destruct (inv_run (ops ++ [Read c]) _ _ (inv_init cap ch Hcap))
    as (s & Hrun & Hinv & Hc).
  destruct (write_then_read_inv c chunks s _ Hinv) as (s' & g' & Hw & _).
  { rewrite log_run_app. simpl. by rewrite lookup_alter_eq, Hb. }
  simpl in Hc. rewrite Hc in Hw. exists s, s'. repeat split; try done.
  clear. intros Hall. induction Hall as [|d chunks Hd _ IH]; [done|].
  rewrite fmap_cons, IH. by rewrite lastn_all.
Qed.

(** The three ways a read can end. *)
Lemma read_cases c s :
  get_new_audio_chunks c s = None ∨
  (get_new_audio_chunks c s = Some ([], s) ∧
   (last_reads s !! c = None ∨
    ∃ lr, last_reads s !! c = Some lr ∧ total_written s ≤ lr)) ∨
  (∃ r, get_new_audio_chunks c s = Some (r, set_last_read c (total_written s) s)).
Proof.
  unfold get_new_audio_chunks.
  destruct (last_reads s !! c) as [lr|] eqn:Hlr; [|by right; left; split; [|left]].
  case_decide as Hnew; [right; left; split; [done|]; right; by exists lr|].
  unfold Py.mod_. destruct (decide (capacity s = 0)); simpl; [by left|].
  right. right. eauto.
Qed.

(** X5.  Reading twice in a row: whatever the state, when a read returns,
    the same consumer's next read returns the empty array and changes
    nothing. *)
Theorem second_read_is_empty s c r s' :
  get_new_audio_chunks c s = Some (r, s') →
  get_new_audio_chunks c s' = Some ([], s').
Proof.
  intros H.
  destruct (read_cases c s) as [Hn | [[He _] | [r' Hr]]]; [congruence | |].
  - congruence.
  - rewrite Hr in H. injection H as <- <-.
    unfold get_new_audio_chunks. simpl. rewrite lookup_insert_eq.
    by rewrite decide_True.
Qed.

Lemma set_last_read_other c c' v s :
  c ≠ c' →
  get_new_audio_chunks c' (set_last_read c v s) =
    (λ p : list frame * t, (p.1, set_last_read c v p.2)) <$> get_new_audio_chunks c' s.
Proof.
  intros Hne. unfold get_new_audio_chunks, Py.mod_. simpl.
  rewrite lookup_insert_ne by done.
  destruct (last_reads s !! c') as [lr|]; [|done].
  case_decide; [done|].
  destruct (decide (capacity s = 0)); simpl; [done|].
  do 2 f_equal. unfold set_last_read. simpl. f_equal. by apply insert_insert_ne.
Qed.

(** X6.  Readers do not disturb one another: reads by two different
    consumers return the same arrays and leave the same state in either
    order. *)
Theorem reads_commute s c c' :
  c ≠ c' →
  ('(r, s1) ← get_new_audio_chunks c s;
   '(r', s2) ← get_new_audio_chunks c' s1; Some (r, r', s2)) =
  ('(r', s1) ← get_new_audio_chunks c' s;
   '(r, s2) ← get_new_audio_chunks c s1; Some (r, r', s2)).
Proof.
  intros Hne.
  destruct (read_cases c s) as [Hn | [[He _] | [r Hr]]],
           (read_cases c' s) as [Hn' | [[He' _] | [r' Hr']]];
    rewrite ?Hn, ?He, ?Hr, ?Hn', ?He', ?Hr'; simpl;
    rewrite ?Hn, ?He, ?Hr, ?Hn', ?He', ?Hr'; simpl;
    rewrite ?set_last_read_other by done;
    rewrite ?Hn, ?He, ?Hr, ?Hn', ?He', ?Hr'; simpl; try done.
  do 2 f_equal. unfold set_last_read. simpl. f_equal. by apply insert_insert_ne.
Qed.

(** *** Instances *)

Lemma get_audio_data_is_recent_audio_witness :
  let ops := [Write [[1%Z]; [2%Z]]; Register "gst"; Write [[3%Z]; [4%Z]]] in
  0 < 3 ∧
  ∃ s, run ops (init 3 1) = Some s ∧
       get_audio_data s = lastn 3 (written (log_run ops log0)).
Proof.
  intros ops. split; [lia|].
  apply (get_audio_data_is_recent_audio 3 1 ops). lia.
Defined.

Lemma audio_callback_extends_snapshot_witness :
  let s := register_consumer "gst" (init 3 1) in
  let indata := [[1%Z]; [2%Z]; [3%Z]; [4%Z]] in
  reachable s ∧
  ∃ s', _audio_callback indata s = Some s' ∧
        capacity s' = capacity s ∧
        total_written s' = total_written s + length indata `min` capacity s ∧
        last_reads s' = last_reads s ∧
        get_audio_data s' = lastn (capacity s) (get_audio_data s ++ indata).
Proof.
  intros s indata.
  assert (reachable s) as H.
  { exists 3, 1, [Register "gst"]. split; [lia | reflexivity]. }
  split; [exact H|]. exact (audio_callback_extends_snapshot s indata H).
Defined.

Lemma first_read_after_register_witness :
  let ops := [Register "gst"; Write [[1%Z]; [2%Z]]; Read "gst"; Write [[3%Z]]] in
  0 < 3 ∧
  ∃ s r s', run (ops ++ [Register "gst"]) (init 3 1) = Some s ∧
            get_new_audio_chunks "gst" s = Some (r, s') ∧
            r = get_audio_data s.
Proof.
  intros ops. split; [lia|].
  apply (first_read_after_register 3 1 ops "gst"). lia.
Defined.

Lemma read_after_each_write_witness :
  let ops := [Register "gst"; Write [[1%Z]; [2%Z]]] in
  let chunks := [[[3%Z]]; [[4%Z]; [5%Z]]] in
  0 < 3 ∧ is_Some (unread (log_run ops log0) !! "gst") ∧
  ∃ s s', run (ops ++ [Read "gst"]) (init 3 1) = Some s ∧
          write_then_read "gst" chunks s = Some (lastn 3 <$> chunks, s') ∧
          (Forall (λ d, length d ≤ 3) chunks → lastn 3 <$> chunks = chunks).
Proof.
  intros ops chunks.
  assert (is_Some (unread (log_run ops log0) !! "gst")) as H.
  { eexists. reflexivity. }
  split; [lia|]. split; [exact H|].
  apply (read_after_each_write 3 1 ops "gst" chunks); [lia | exact H].
Defined.

Lemma second_read_is_empty_witness :
  let s := {| channels := 1; capacity := 3;
              ring_buffer := [[1%Z]; [2%Z]; [0%Z]];
              write_index := 2; total_written := 2; stopped := false;
              last_reads := {[ "gst" := 0 ]} |} in
  let s' := set_last_read "gst" 2 s in
  get_new_audio_chunks "gst" s = Some ([[1%Z]; [2%Z]], s') ∧
  get_new_audio_chunks "gst" s' = Some ([], s').
Proof.
  intros s s'.
  assert (get_new_audio_chunks "gst" s = Some ([[1%Z]; [2%Z]], s')) as H.
  { reflexivity. }
  split; [exact H|]. exact (second_read_is_empty s "gst" _ s' H).
Defined.

Lemma reads_commute_witness :
  let s := {| channels := 1; capacity := 3;
              ring_buffer := [[1%Z]; [2%Z]; [0%Z]];
              write_index := 2; total_written := 2; stopped := false;
              last_reads := {[ "gst" := 0; "clip" := 1 ]} |} in
  "gst" ≠ "clip" ∧
  ('(r, s1) ← get_new_audio_chunks "gst" s;
   '(r', s2) ← get_new_audio_chunks "clip" s1; Some (r, r', s2)) =
  ('(r', s1) ← get_new_audio_chunks "clip" s;
   '(r, s2) ← get_new_audio_chunks "gst" s1; Some (r, r', s2)).
Proof.
  intros s.
  assert ("gst" ≠ "clip") as H by discriminate.
  split; [exact H|]. exact (reads_commute s "gst" "clip" H).
Defined.

End AudioStreamMore.

(** *** [str.strip] *)

Module PyStrings.

Lemma chars_of_chars l : Py.chars (Py.of_chars l) = l.
Proof. apply String.list_ascii_of_string_of_list_ascii. Qed.

Lemma of_chars_chars s : Py.of_chars (Py.chars s) = s.
Proof. apply String.string_of_list_ascii_of_string. Qed.

Lemma starts_with_app e : ∀ l1 l2,
  Py.starts_with e l1 = true → Py.starts_with e (l1 ++ l2) = true.
Proof.
  induction e as [|a e IH]; intros l1 l2; [done|].
  destruct l1 as [|b l1]; simpl; [done|].
  intros [-> H]%andb_prop. simpl. by apply IH.
Qed.

Lemma space_len_nil spaces :
  Forall (λ e, e ≠ []) spaces → Py.space_len spaces [] = 0.
Proof.
  unfold Py.space_len. induction 1 as [|e sp He _ IH]; simpl; [done|].
  destruct e; [done|]. simpl. exact IH.
Qed.

Lemma space_len_app spaces l1 l2 :
  Forall (λ e, e ≠ []) spaces →
  Py.space_len spaces l1 ≠ 0 → Py.space_len spaces (l1 ++ l2) ≠ 0.
Proof.
  unfold Py.space_len. induction 1 as [|e sp He _ IH]; simpl; [done|].
  destruct (Py.starts_with e l1) eqn:E.
  - rewrite (starts_with_app _ _ l2 E). intros _. by destruct e.
  - destruct (Py.starts_with e (l1 ++ l2)); [by destruct e | exact IH].
Qed.

Lemma drop_spaces_suffix spaces l : ∀ skip,
  ∃ pre, l = pre ++ Py.drop_spaces spaces skip l.
Proof.
  induction l as [|a l IH]; intros skip; simpl; [by exists []|].
  destruct skip as [|skip].
  - destruct (Py.space_len spaces (a :: l)) as [|k]; [by exists []|].
    destruct (IH k) as [pre Hpre]. exists (a :: pre). simpl. by rewrite <- Hpre.
  - destruct (IH skip) as [pre Hpre]. exists (a :: pre). simpl. by rewrite <- Hpre.
Qed.

Lemma drop_spaces_clean spaces l :
  Forall (λ e, e ≠ []) spaces →
  ∀ skip, Py.space_len spaces (Py.drop_spaces spaces skip l) = 0.
Proof.
  intros Hne. induction l as [|a l IH]; intros skip; simpl; [by apply space_len_nil|].
  destruct skip as [|skip]; [|apply IH].
  destruct (Py.space_len spaces (a :: l)) as [|k] eqn:E; [exact E | apply IH].
Qed.

Lemma drop_spaces_id spaces l :
  Py.space_len spaces l = 0 → Py.drop_spaces spaces 0 l = l.
Proof. destruct l as [|a l]; simpl; [done|]. by intros ->. Qed.

Lemma whitespace_nonempty : Forall (λ e, e ≠ []) Py.whitespace.
Proof. unfold Py.whitespace. simpl. repeat constructor; discriminate. Qed.

Lemma whitespace_rev_nonempty :
  Forall (λ e, e ≠ []) (map (@List.rev Ascii.ascii) Py.whitespace).
Proof. unfold Py.whitespace. simpl. repeat constructor; discriminate. Qed.

(** What [strip] returns has no white space at either end. *)
Lemma strip_idemp s : Py.strip (Py.strip s) = Py.strip s.
Proof.
  unfold Py.strip, Py.rstrip, Py.lstrip. rewrite !chars_of_chars.
  set (u := Py.drop_spaces Py.whitespace 0 (Py.chars s)).
  set (v := Py.drop_spaces (map (@List.rev Ascii.ascii) Py.whitespace) 0 (List.rev u)).
  assert (Py.space_len Py.whitespace u = 0) as Hu.
  { by apply drop_spaces_clean, whitespace_nonempty. }
  assert (Py.space_len (map (@List.rev Ascii.ascii) Py.whitespace) v = 0) as Hv.
  { by apply drop_spaces_clean, whitespace_rev_nonempty. }
  destruct (drop_spaces_suffix (map (@List.rev Ascii.ascii) Py.whitespace) (List.rev u) 0)
    as [pre Hpre].
  fold v in Hpre.
  assert (u = List.rev v ++ List.rev pre) as Hsplit.
  { rewrite <- (rev_involutive u), Hpre. by rewrite rev_app_distr. }
  assert (Py.space_len Py.whitespace (List.rev v) = 0) as Hr.
  { destruct (Py.space_len Py.whitespace (List.rev v)) eqn:E; [done|].
    exfalso. apply (space_len_app _ (List.rev v) (List.rev pre) whitespace_nonempty).
    - by rewrite E.
    - by rewrite <- Hsplit. }
  rewrite (drop_spaces_id _ _ Hr), rev_involutive.
  by rewrite (drop_spaces_id _ _ Hv).
Qed.

End PyStrings.

Module TranscriberMore.
Import AudioStream AudioStreamFacts AudioStreamMore Transcriber TranscriberFacts TranscriberScripts.

(** *** The audio feed *)

Lemma int16_bytes_length z : length (int16_bytes z) = 2.
Proof.
  unfold int16_bytes.
  assert (H : (0 <= z mod 65536 < 65536)%Z) by (apply Z.mod_pos_bound; lia).
  set (u := (z mod 65536)%Z) in *.
  destruct (Byte.of_nat (Z.to_nat (u mod 256))) eqn:Hlo.
  - destruct (Byte.of_nat (Z.to_nat (u / 256))) eqn:Hhi; [done|].
    apply Byte.of_nat_None_iff in Hhi.
    assert (u / 256 < 256)%Z by (apply Z.div_lt_upper_bound; lia).
    assert (0 <= u / 256)%Z by (apply Z.div_pos; lia). lia.
  - apply Byte.of_nat_None_iff in Hlo.
    assert (0 <= u mod 256 < 256)%Z by (apply Z.mod_pos_bound; lia). lia.
Qed.

Lemma tobytes_length chunk : length (tobytes chunk) = 2 * size chunk.
Proof.
  unfold tobytes, size. induction (concat chunk) as [|z l IH]; [done|].
  rewrite fmap_cons. cbn [concat length].
  rewrite length_app, int16_bytes_length, IH. lia.
Qed.

Lemma tobytes_app c1 c2 : tobytes (c1 ++ c2) = tobytes c1 ++ tobytes c2.
Proof. unfold tobytes. by rewrite concat_app, fmap_app, concat_app. Qed.

(** X7.  The audio generator never yields an empty chunk: every item holds
    two bytes per sample of a chunk with at least one sample, and there is
    at most one item per pass. *)
Theorem audio_generator_items cid polls : ∀ s items,
  audio_generator cid polls s = Some items →
  length items ≤ length polls ∧
  Forall (λ item : bytes * bool, 0 < length item.1 ∧ Nat.Even (length item.1)) items.
Proof.
  induction polls as [|p polls IH]; intros s items H; simpl in H.
  - injection H as <-. split; [done | constructor].
  - destruct (AudioStream.run _ s) as [s1|]; simpl in H; [|done].
    destruct (get_new_audio_chunks cid s1) as [[chunk s2]|]; simpl in H; [|done].
    destruct (audio_generator cid polls s2) as [rest|] eqn:Hrest; simpl in H; [|done].
    destruct (IH s2 rest Hrest) as [Hlen Hall].
    injection H as <-. case_decide as Hsize.
    + split; [simpl; lia|]. constructor; [|done]. simpl.
      rewrite tobytes_length. split; [lia|]. by exists (size chunk).
    + split; [simpl; lia | done].
Qed.

Lemma tobytes_empty chunk : size chunk = 0 → tobytes chunk = [].
Proof.
  unfold size, tobytes. intros H. by destruct (concat chunk).
Qed.

Lemma audio_generator_inv c polls : ∀ s g,
  inv s g → unread g !! c = Some [] →
  Forall (λ p, length (concat (captured p)) ≤ capacity s) polls →
  ∃ items, audio_generator c polls s = Some items ∧
           concat (items.*1) = tobytes (concat ((λ p, concat (captured p)) <$> polls)).
Proof.
  induction polls as [|p polls IH]; intros s g Hinv Hun Hall; simpl.
  - by exists [].
  - inversion Hall as [|?? Hp Hpolls]; subst.
    destruct (inv_run (Write <$> captured p) s g Hinv) as (s1 & -> & Hinv1 & Hcap1).
    simpl.
    destruct (read_chunk s1 _ c Hinv1) as (s2 & -> & Hinv2 & Hcap2). simpl.
    rewrite unread_after_writes, Hun, Hcap1. simpl.
    rewrite lastn_all by done.
    destruct (IH s2 _ Hinv2) as (rest & -> & Hrest).
    { by rewrite unread_after_read, unread_after_writes, Hun. }
    { by rewrite Hcap2, Hcap1. }
    simpl. eexists. split; [reflexivity|].
    change (list_fmap poll (list frame) (λ p0 : poll, concat (captured p0)) polls)
      with ((λ p0 : poll, concat (captured p0)) <$> polls).
    rewrite tobytes_app, <- Hrest.
    case_decide as Hsize; simpl; [done|].
    rewrite tobytes_empty; [done | lia].
Qed.

(** X8.  A consumer that has just read loses nothing through the
    generator as long as no more than [capacity] samples are captured
    between two passes: the bytes yielded, put end to end, are the bytes of
    everything captured, in order. *)
Theorem audio_generator_lossless cap ch ops c polls :
  0 < cap →
  is_Some (unread (log_run ops log0) !! c) →
  Forall (λ p, length (concat (captured p)) ≤ cap) polls →
  ∃ s items,
    run (ops ++ [Read c]) (AudioStream.init cap ch) = Some s ∧
    audio_generator c polls s = Some items ∧
    concat (items.*1) = tobytes (concat ((λ p, concat (captured p)) <$> polls)).
Proof.
  intros Hcap [b Hb] Hall.
  destruct (inv_run (ops ++ [Read c]) _ _ (inv_init cap ch Hcap))
    as (s & Hrun & Hinv & Hc).
  destruct (audio_generator_inv c polls s _ Hinv) as (items & Hgen & Hbytes).
  { rewrite log_run_app. simpl. by rewrite lookup_alter_eq, Hb. }
  { by rewrite Hc. }
  by exists s, items.
Qed.

(** *** The worker loop *)

Lemma wait_bounds i : (1 <= Z.min (2 ^ Z.of_nat i) 30 <= 30)%Z.
Proof.
  assert (0 < 2 ^ Z.of_nat i)%Z by (apply Z.pow_pos_nonneg; lia). lia.
Qed.

Lemma step_sleeps e w :
  sleeps (step e w) = sleeps w ∨
  sleeps (step e w) = sleeps w ++ [Z.min (2 ^ Z.of_nat (backoff w)) 30].
Proof.
  unfold step. destruct (alive w); simpl; [|by destruct e; left].
  destruct e; simpl; try by left.
  - destruct (_handle_response r now w) as [w'|] eqn:H; simpl; [|by left].
    unfold _handle_response in H. destruct r as [|res ?]; [injection H as <-|].
    + by destruct (shutdown w); left.
    + destruct (alternatives res); [done|]. injection H as <-. simpl.
      by destruct (shutdown w); left.
  - by destruct (shutdown w); left.
  - unfold while_check. simpl. by destruct (shutdown w); left.
  - destruct (bool_decide _ && negb (shutdown w)); simpl; [|by left].
    unfold while_check. simpl. by destruct (shutdown w); right.
Qed.

(** X9.  Whatever the stream delivers, the worker never sleeps less than
    1 s or more than 30 s before a reconnect. *)
Theorem sleeps_between_1_and_30 events : ∀ w,
  Forall (λ d, 1 <= d <= 30)%Z (sleeps w) →
  Forall (λ d, 1 <= d <= 30)%Z (sleeps (run_events events w)).
Proof.
  induction events as [|e events IH]; intros w Hw; [done|].
  change (run_events (e :: events) w) with (run_events events (step e w)).
  apply IH. destruct (step_sleeps e w) as [-> | ->]; [done|].
  apply Forall_app. split; [done|]. constructor; [|done]. apply wait_bounds.
Qed.

(** X10.  Once [stop()] has been called, the next thing the stream
    delivers ends the worker; it does not sleep again and reopens the
    stream at most once more. *)
Theorem stop_ends_worker w e events :
  shutdown w = true → e ≠ Stop →
  alive (run_events (e :: events) w) = false ∧
  sleeps (run_events (e :: events) w) = sleeps w ∧
  reopens (run_events (e :: events) w) ≤ S (reopens w).
Proof.
  intros Hs He.
  change (run_events (e :: events) w) with (run_events events (step e w)).
  assert (H : alive (step e w) = false ∧ sleeps (step e w) = sleeps w ∧
              reopens (step e w) ≤ S (reopens w)).
  { unfold step. destruct (alive w) eqn:Ha; simpl.
    - destruct e; simpl; rewrite ?Hs; simpl; try done; try (repeat split; lia).
      + destruct (_handle_response r now w) as [w'|] eqn:H; simpl;
          [|repeat split; lia].
        assert (shutdown w' = true ∧ sleeps w' = sleeps w ∧ reopens w' = reopens w)
          as (Hs' & Hsl' & Hre').
        { unfold _handle_response in H. destruct r as [|res ?]; [by injection H as <-|].
          destruct (alternatives res); [done|]. by injection H as <-. }
        rewrite Hs'. simpl. rewrite Hsl', Hre'. repeat split; lia.
      + unfold while_check. simpl. rewrite Hs. simpl. repeat split; lia.
      + rewrite andb_false_r. simpl. repeat split; lia.
    - destruct e; simpl; try done; repeat split; try done; lia. }
  destruct H as (Ha & Hsl & Hre).
  destruct (dead_forever events _ Ha) as (-> & -> & ->). by rewrite Hsl.
Qed.

(** X11.  Only a processed response resets the backoff.  While the worker
    meets nothing but retryable RPC errors, ends of stream and [OutOfRange],
    it stays alive, reopens the stream after each of them, and sleeps only
    after the RPC errors, for min(2^k, 30) s after the k-th one (counting
    from the value of the counter at the start). *)
Theorem backoff_survives_reopening events : ∀ w,
  alive w = true → shutdown w = false →
  Forall (λ e, reopening e = true) events →
  let n := length (filter (λ e, is_rpc_error e = true) events) in
  alive (run_events events w) = true ∧
  backoff (run_events events w) = backoff w + n ∧
  reopens (run_events events w) = reopens w + length events ∧
  sleeps (run_events events w) =
    sleeps w ++ ((λ i : nat, Z.min (2 ^ Z.of_nat i) 30) <$> seq (backoff w) n).
Proof.
  induction events as [|e events IH]; intros w Ha Hs Hall.
  - simpl. rewrite app_nil_r. repeat split; try done; lia.
  - inversion Hall as [|?? He Hevents]; subst.
    change (run_events (e :: events) w) with (run_events events (step e w)).
    destruct e; simpl in He; try done.
    + (* StreamEnd *)
      assert (Hstep : step StreamEnd w = _restart_rpc w).
      { unfold step. by rewrite Ha, Hs. }
      rewrite Hstep. destruct (IH (_restart_rpc w)) as (H1 & H2 & H3 & H4); try done.
      simpl in *. rewrite H1, H2, H3, H4. repeat split; try done; lia.
    + (* OutOfRange *)
      assert (Hstep : step RaiseOutOfRange w = _restart_rpc w).
      { unfold step, while_check. rewrite Ha. simpl. by rewrite Hs. }
      rewrite Hstep. destruct (IH (_restart_rpc w)) as (H1 & H2 & H3 & H4); try done.
      simpl in *. rewrite H1, H2, H3, H4. repeat split; try done; lia.
    + (* retryable RPC error *)
      apply bool_decide_eq_true in He.
      rewrite retryable_step by done.
      set (w1 := _restart_rpc _).
      destruct (IH w1) as (H1 & H2 & H3 & H4); try done.
      rewrite filter_cons_True by done.
      simpl in *. rewrite H1, H2, H3, H4. rewrite <- app_assoc. simpl.
      repeat split; try done; lia.
Qed.

Lemma handle_response_queue r now w w' :
  _handle_response r now w = Some w' →
  transcription_queue w' = transcription_queue w ∨
  ∃ u, trimmed u ∧ transcription_queue w' = transcription_queue w ++ [u].
Proof.
  unfold _handle_response. destruct r as [|res ?]; [intros [= <-]; by left|].
  destruct (alternatives res) as [|text ?]; [done|]. intros [= <-]. simpl.
  destruct (is_final res); simpl; [|by left].
  destruct (String.eqb (Py.strip text) EmptyString) eqn:Hne; simpl; [by left|].
  right. exists (Py.strip text). split; [|done]. split.
  - by apply String.eqb_neq.
  - apply PyStrings.strip_idemp.
Qed.

Lemma step_queue e w :
  transcription_queue (step e w) = transcription_queue w ∨
  ∃ u, trimmed u ∧ transcription_queue (step e w) = transcription_queue w ++ [u].
Proof.
  unfold step. destruct (alive w); simpl; [|by destruct e; left].
  destruct e; simpl; try by left.
  - destruct (_handle_response r now w) as [w'|] eqn:H; simpl; [|by left].
    apply handle_response_queue in H. by destruct (shutdown w').
  - by destruct (shutdown w); left.
  - unfold while_check. simpl. by destruct (shutdown w); left.
  - destruct (bool_decide _ && negb (shutdown w)); simpl; [|by left].
    unfold while_check. simpl. by destruct (shutdown w); left.
Qed.

(** X12.  The worker only ever appends to the output queue, and what it
    appends is a final transcript with its white space stripped: every
    utterance in the queue is non-empty and has no white space at either
    end. *)
Theorem queue_holds_trimmed_utterances events : ∀ w,
  Forall trimmed (transcription_queue w) →
  transcription_queue w `prefix_of` transcription_queue (run_events events w) ∧
  Forall trimmed (transcription_queue (run_events events w)).
Proof.
  induction events as [|e events IH]; intros w Hw; [done|].
  change (run_events (e :: events) w) with (run_events events (step e w)).
  destruct (step_queue e w) as [Heq | (u & Hu & Heq)].
  - rewrite <- Heq. apply IH. by rewrite Heq.
  - destruct (IH (step e w)) as [Hpre Hall].
    { rewrite Heq. apply Forall_app. split; [done | by constructor]. }
    split; [|done]. etrans; [|exact Hpre]. rewrite Heq. by apply prefix_app_r.
Qed.

(** *** Instances *)

Lemma audio_generator_items_witness :
  let s := AudioStream.register_consumer "gst" (AudioStream.init 4 1) in
  let polls := [mkPoll [[[1%Z]; [(-2)%Z]]] true; mkPoll [] true; mkPoll [[[3%Z]]] false] in
  let items := default [] (audio_generator "gst" polls s) in
  audio_generator "gst" polls s = Some items ∧
  length items ≤ length polls ∧
  Forall (λ item : bytes * bool, 0 < length item.1 ∧ Nat.Even (length item.1)) items.
Proof.
  intros s polls items.
  assert (audio_generator "gst" polls s = Some items) as H by reflexivity.
  split; [exact H|]. exact (audio_generator_items "gst" polls s items H).
Defined.

Lemma audio_generator_lossless_witness :
  let ops := [AudioStream.Register "gst"; AudioStream.Write [[7%Z]; [8%Z]]] in
  let polls := [mkPoll [[[1%Z]; [(-2)%Z]]] true; mkPoll [] true;
                mkPoll [[[3%Z]]; [[4%Z]; [5%Z]]] false] in
  0 < 4 ∧ is_Some (unread (log_run ops log0) !! "gst") ∧
  Forall (λ p, length (concat (captured p)) ≤ 4) polls ∧
  ∃ s items,
    run (ops ++ [AudioStream.Read "gst"]) (AudioStream.init 4 1) = Some s ∧
    audio_generator "gst" polls s = Some items ∧
    concat (items.*1) = tobytes (concat ((λ p, concat (captured p)) <$> polls)).
Proof.
  intros ops polls.
  assert (is_Some (unread (log_run ops log0) !! "gst")) as H1.
  { eexists. reflexivity. }
  assert (Forall (λ p, length (concat (captured p)) ≤ 4) polls) as H2.
  { repeat constructor; simpl; lia. }
  split; [lia|]. split; [exact H1|]. split; [exact H2|].
  apply (audio_generator_lossless 4 1 ops "gst" polls); [lia | exact H1 | exact H2].
Defined.

Lemma sleeps_between_1_and_30_witness :
  let w := set_alive true (init 0) in
  let events := (RaiseRpcError <$> replicate 7 UNAVAILABLE) ++
                [Response [mkResult ["hello"] true] 1; RaiseRpcError CANCELLED] in
  Forall (λ d, 1 <= d <= 30)%Z (sleeps w) ∧
  sleeps (run_events events w) = [1; 2; 4; 8; 16; 30; 30; 1]%Z ∧
  Forall (λ d, 1 <= d <= 30)%Z (sleeps (run_events events w)).
Proof.
  intros w events.
  assert (Forall (λ d, 1 <= d <= 30)%Z (sleeps w)) as H by constructor.
  split; [exact H|]. split; [reflexivity|].
  exact (sleeps_between_1_and_30 events w H).
Defined.

Lemma stop_ends_worker_witness :
  let w := stop (set_alive true (init 0)) in
  let events := [RaiseRpcError UNAVAILABLE; StreamEnd] in
  shutdown w = true ∧ StreamEnd ≠ Stop ∧
  alive (run_events (StreamEnd :: events) w) = false ∧
  sleeps (run_events (StreamEnd :: events) w) = sleeps w ∧
  reopens (run_events (StreamEnd :: events) w) ≤ S (reopens w).
Proof.
  intros w events.
  assert (StreamEnd ≠ Stop) as H by discriminate.
  split; [reflexivity|]. split; [exact H|].
  apply (stop_ends_worker w StreamEnd events); [reflexivity | exact H].
Defined.

Lemma backoff_survives_reopening_witness :
  let w := set_alive true (init 0) in
  let events := [RaiseRpcError UNAVAILABLE; StreamEnd; RaiseRpcError INTERNAL;
                 RaiseOutOfRange; RaiseRpcError CANCELLED] in
  alive w = true ∧ shutdown w = false ∧
  Forall (λ e, reopening e = true) events ∧
  alive (run_events events w) = true ∧
  backoff (run_events events w) = backoff w + 3 ∧
  reopens (run_events events w) = reopens w + length events ∧
  sleeps (run_events events w) =
    sleeps w ++ ((λ i : nat, Z.min (2 ^ Z.of_nat i) 30) <$> seq (backoff w) 3).
Proof.
  intros w events.
  assert (Forall (λ e, reopening e = true) events) as H.
  { repeat constructor. }
  split; [reflexivity|]. split; [reflexivity|]. split; [exact H|].
  exact (backoff_survives_reopening events w eq_refl eq_refl H).
Defined.

Lemma queue_holds_trimmed_utterances_witness :
  let w := set_alive true (init 0) in
  let nbsp := String (Ascii.ascii_of_nat 194) (String (Ascii.ascii_of_nat 160) EmptyString) in
  let events := [Response [mkResult [" hello there "] true] 1; StreamEnd;
                 Response [mkResult [nbsp] true] 2;
                 Response [mkResult [String.append nbsp " two across"] true] 3;
                 Response [mkResult ["not final yet "] false] 4] in
  Forall trimmed (transcription_queue w) ∧
  transcription_queue (run_events events w) = ["hello there"; "two across"] ∧
  transcription_queue w `prefix_of` transcription_queue (run_events events w) ∧
  Forall trimmed (transcription_queue (run_events events w)).
Proof.
  intros w nbsp events.
  assert (Forall trimmed (transcription_queue w)) as H by constructor.
  split; [exact H|]. split; [reflexivity|].
  exact (queue_holds_trimmed_utterances events w H).
Defined.

End TranscriberMore.

Module EmotionDetectorMore.
Import EmotionDetector EmotionDetectorFacts EmotionDetectorScripts.
Local Open Scope Q_scope.

(** *** Comparisons and rounding *)

Lemma ltb_true x y : Py.ltb x y = true ↔ x < y.
Proof.
  unfold Py.ltb. rewrite negb_true_iff. split.
  - intros H. apply Qnot_le_lt. intros Hle. apply Qle_bool_iff in Hle. congruence.
  - intros H. destruct (Qle_bool y x) eqn:E; [|done].
    apply Qle_bool_iff in E. lra.
Qed.

Lemma ltb_false x y : Py.ltb x y = false ↔ y <= x.
Proof.
  unfold Py.ltb. rewrite negb_false_iff. apply Qle_bool_iff.
Qed.

Lemma max_ge_r x y : y <= Py.max x y.
Proof.
  unfold Py.max. destruct (Py.ltb x y) eqn:E; [lra|]. by apply ltb_false in E.
Qed.

Lemma max_ge_l x y : x <= Py.max x y.
Proof.
  unfold Py.max. destruct (Py.ltb x y) eqn:E; [|lra]. apply ltb_true in E. lra.
Qed.

Lemma round_half_even_mono x y :
  x <= y → (Py.round_half_even x <= Py.round_half_even y)%Z.
Proof.
  intros Hxy. unfold Py.round_half_even.
  pose proof (Qfloor_le x) as Hx1. pose proof (Qlt_floor x) as Hx2.
  pose proof (Qfloor_le y) as Hy1. pose proof (Qlt_floor y) as Hy2.
  pose proof (Qfloor_resp_le x y Hxy) as Hf.
  rewrite inject_Z_plus in Hx2, Hy2.
  assert (H1 : inject_Z 1 == 1) by reflexivity.
  destruct (Z.eq_dec (Qfloor x) (Qfloor y)) as [Heq|Hne].
  - rewrite <- Heq in *.
    destruct (Qcompare_spec (x - inject_Z (Qfloor x)) (1 # 2)) as [Hx|Hx|Hx];
    destruct (Qcompare_spec (y - inject_Z (Qfloor x)) (1 # 2)) as [Hy|Hy|Hy];
      try destruct (Z.even (Qfloor x)); try lia; exfalso; lra.
  - assert (Hlt : (Qfloor x + 1 <= Qfloor y)%Z) by lia.
    destruct (Qcompare_spec (x - inject_Z (Qfloor x)) (1 # 2));
    destruct (Qcompare_spec (y - inject_Z (Qfloor y)) (1 # 2));
      try destruct (Z.even (Qfloor x)); try destruct (Z.even (Qfloor y)); lia.
Qed.

Lemma round2_mono x y : x <= y → Py.round2 x <= Py.round2 y.
Proof.
  intros Hxy. unfold Py.round2. rewrite !Qred_correct.
  assert (H : (Py.round_half_even (x * 100) <= Py.round_half_even (y * 100))%Z).
  { apply round_half_even_mono. lra. }
  unfold Qle. simpl. lia.
Qed.

Lemma round2_0 : Py.round2 0 == 0.
Proof. reflexivity. Qed.

(** *** The sliding window *)

(** X14.  A window of zero or negative length yields the empty summary
    (when no span of the history ends after [now]). *)
Theorem empty_window_empty_summary (now w : Q) (s : t) :
  Forall (λ sp : string * Q * Q, sp.2 <= now) (_history_spans s) →
  w <= 0 →
  get_recent_summary now w s = [].
Proof.
  intros Hh Hw. unfold get_recent_summary.
  assert (recent_history (now - w) (reverse (_history_spans s)) = []) as ->.
  { apply Forall_reverse in Hh.
    destruct (reverse (_history_spans s)) as [|[[l st] en] spans]; [done|].
    inversion Hh as [|?? Hen _]; subst. simpl in *.
    assert (Qle_bool en (now - w) = true) as ->; [|done].
    apply Qle_bool_iff. lra. }
  destruct (current_emotion s) as [cur|]; [|done].
  assert (Py.ltb 0 (Py.round2 (now - Py.max (_span_start s) (now - w))) = false) as ->; [|done].
  apply ltb_false. rewrite <- round2_0. apply round2_mono.
  pose proof (max_ge_r (_span_start s) (now - w)). lra.
Qed.

(** *** The sampling loop *)

Lemma paced_step model fps k st :
  is_frame k = true → paced fps st → paced fps (_run_step model fps k st).
Proof.
  intros Hk [Hh Hs]. destruct st as [th s]. unfold _run_step. simpl in *.
  destruct th as [last_ts| |e]; [|done..].
  destruct k as [[f|] now|now]; [| done | done].
  destruct (Py.ltb (now - last_ts) (1 # fps)) eqn:Hdue; [done|].
  apply ltb_false in Hdue.
  destruct (_detect_emotion model f) as [label|e]; [|done].
  unfold paced, on_sample, close_span. simpl.
  assert (Hp : 0 < 1 # fps) by reflexivity.
  case_decide as Hsame.
  - split; [done|]. intros Hc. specialize (Hs Hc). lra.
  - destruct (current_emotion s) as [cur|]; simpl.
    + split; [|intros _; lra]. apply Forall_app. split; [done|].
      constructor; [|done]. simpl. specialize (Hs ltac:(eauto)). lra.
    + split; [done|]. intros _. lra.
Qed.

(** X15.  Started without an open span and until it is stopped, [_run]
    classifies at most one frame per period [1/fps]: every span it records
    lasts at least one period. *)
Theorem run_spans_last_a_period model fps ticks (s : t) :
  current_emotion s = None →
  Forall (λ sp : string * Q * Q, 1 # fps <= sp.2 - sp.1.2) (_history_spans s) →
  Forall (λ k, is_frame k = true) ticks →
  Forall (λ sp : string * Q * Q, 1 # fps <= sp.2 - sp.1.2)
         (_history_spans (_run model fps ticks s).2).
Proof.
  intros Hc Hh Hticks. unfold _run, run_ticks.
  assert (Hp : paced fps (Sampling 0, s)).
  { split; [done|]. simpl. rewrite Hc. by intros []. }
  revert Hp. generalize (Sampling 0, s). clear Hc Hh.
  induction Hticks as [|k ticks Hk _ IH]; intros st Hp; simpl.
  - by destruct Hp.
  - apply IH. by apply paced_step.
Qed.

(** *** Summaries *)






(** *** The order of the history *)

Lemma time_ordered_snoc_intro spans sp :
  time_ordered spans → Forall (λ sp', sp'.2 <= sp.2) spans →
  time_ordered (spans ++ [sp]).
Proof.
  induction spans as [|sp0 spans IH]; simpl; [done|].
  intros [Hall Hord] Hle. inversion Hle as [|?? H0 Hle']; subst.
  split; [|by apply IH]. apply Forall_app. split; [done|]. by constructor.
Qed.

Lemma ends_le_mono (spans : list (string * Q * Q)) t t' :
  t <= t' → Forall (λ sp, sp.2 <= t) spans → Forall (λ sp, sp.2 <= t') spans.
Proof.
  intros Ht H. eapply Forall_impl; [exact H|].
  intros sp Hsp. simpl in *. lra.
Qed.

Lemma close_span_ordered now s :
  time_ordered (_history_spans s) →
  Forall (λ sp, sp.2 <= now) (_history_spans s) →
  time_ordered (_history_spans (close_span now s)) ∧
  Forall (λ sp, sp.2 <= now) (_history_spans (close_span now s)).
Proof.
  intros Hord Hle. unfold close_span. destruct (current_emotion s); [|done].
  simpl. split.
  - by apply time_ordered_snoc_intro.
  - apply Forall_app. split; [done|]. constructor; [simpl; lra | done].
Qed.

Lemma call_keeps_order c s t :
  t <= call_time c →
  time_ordered (_history_spans s) →
  Forall (λ sp, sp.2 <= t) (_history_spans s) →
  time_ordered (_history_spans (run_calls [c] s).2) ∧
  Forall (λ sp, sp.2 <= call_time c) (_history_spans (run_calls [c] s).2).
Proof.
  intros Ht Hord Hle. apply (ends_le_mono _ _ _ Ht) in Hle.
  destruct c as [label now|now]; simpl in *.
  - unfold on_sample. case_decide; [done|]. simpl. by apply close_span_ordered.
  - unfold get_summary_and_reset. destruct (current_emotion s); simpl; [|done].
    by apply close_span_ordered.
Qed.

Lemma calls_keep_order calls : ∀ s t,
  nondecreasing t (call_time <$> calls) →
  time_ordered (_history_spans s) →
  Forall (λ sp, sp.2 <= t) (_history_spans s) →
  time_ordered (_history_spans (run_calls calls s).2) ∧
  Forall (λ sp, sp.2 <= default t (last (call_time <$> calls)))
         (_history_spans (run_calls calls s).2).
Proof.
  induction calls as [|c calls IH]; intros s t Hnd Hord Hle; [done|].
  rewrite fmap_cons in *. destruct Hnd as [Ht Hnd].
  destruct (call_keeps_order c s t Ht Hord Hle) as [Hord' Hle'].
  rewrite run_calls_cons. cbn [snd].
  destruct (IH _ _ Hnd Hord' Hle') as [H1 H2]. split; [done|].
  destruct (call_time <$> calls) as [|t1 ts] eqn:E; [done|].
  rewrite last_cons_cons.
  destruct (last (t1 :: ts)) as [tl|] eqn:El; [done|].
  by apply last_None in El.
Qed.

(** X17.  When the calls on the detector do not overlap and their clock
    readings come in the order of the calls, the history is kept in the
    order of its end times and no span ends after the latest reading: the
    order that the early exit of [get_recent_summary] relies on. *)
Theorem history_stays_time_ordered (calls : list call) (start : Q) :
  nondecreasing start (call_time <$> calls) →
  let history := _history_spans (run_actions (serial calls) (Idle, init start)).2.2 in
  time_ordered history ∧
  Forall (λ sp, sp.2 <= default start (last (call_time <$> calls))) history.
Proof.
  intros Hnd history. unfold history. rewrite run_serial. cbn [snd].
  by apply calls_keep_order.
Qed.

(** The same readings with the second sample committed after the reset
    that was read later: the sample read the clock (l.90) at 10, the reset at
    10.1 took the lock first.  The history is out of order. *)
Lemma late_sample_breaks_the_order :
  let calls := [Sample "happy" 5; SummaryAndReset (101 # 10); Sample "sad" 10] in
  _history_spans (run_actions (serial calls) (Idle, init 0)).2.2
    = [("happy", 5, 101 # 10); ("happy", 101 # 10, 10)] ∧
  ¬ time_ordered (_history_spans (run_actions (serial calls) (Idle, init 0)).2.2).
Proof.
  split; [reflexivity|]. vm_compute. intros [H _].
  inversion H as [|?? Hle _]. by apply Hle.
Qed.

(** *** The pending snapshot *)

Lemma pending_run_app events1 : ∀ events2 p,
  pending_run (events1 ++ events2) p =
    pending_run events1 p ++
    pending_run events2 (foldl (λ p e, (pending_step e p).2) p events1).
Proof.
  induction events1 as [|e events1 IH]; intros events2 p; [done|].
  rewrite <- app_comm_cons. cbn [pending_run foldl].
  destruct (pending_step e p) as [[r|] p1]; cbn [snd]; by rewrite IH.
Qed.

Lemma pending_serial calls : ∀ p,
  fetch p = NotFetching → Forall settled (timers p) →
  pending_run (calls ≫= pending_steps) p =
    mailbox_run calls (detector p) (timer_window <$> timers p) (slot_of p).
Proof.
  induction calls as [|c calls IH]; intros [d recent ready tms f] Hf Hset; [done|].
  simpl in Hf, Hset. subst f.
  rewrite bind_cons, pending_run_app. destruct c as [a|wait_sec window_sec|k now|].
  - cbn. by rewrite IH.
  - cbn. rewrite IH; cbn; [by rewrite fmap_app | done |].
    apply Forall_app. split; [done|]. by constructor.
  - cbn [pending_steps mailbox_run detector timers]. rewrite list_lookup_fmap.
    destruct (tms !! k) as [tm|] eqn:Hk; cbn [fmap option_fmap option_map].
    2:{ cbn. rewrite !Hk. cbn. rewrite !Hk. cbn. rewrite !Hk. cbn. by rewrite IH. }
    pose proof (lookup_lt_Some _ _ _ Hk) as Hlt.
    assert (settled tm) as Htm by (eapply Forall_lookup_1; eauto).
    destruct tm as [window_sec|summary| |]; try done; cbn [timer_window].
    + cbn. rewrite !Hk. cbn.
      rewrite list_lookup_insert_eq by done. cbn.
      rewrite list_lookup_insert_eq by (by rewrite length_insert). cbn.
      rewrite IH; cbn.
      * rewrite !list_insert_insert_eq. by rewrite list_fmap_insert.
      * done.
      * rewrite !list_insert_insert_eq. by apply Forall_insert.
    + cbn. rewrite !Hk. cbn. rewrite !Hk. cbn. rewrite !Hk. cbn. by rewrite IH.
  - cbn. destruct ready; cbn.
    + by rewrite IH.
    + by rewrite IH.
Qed.

(** X18.  When the timers and the fetches do not overlap (no timer runs
    [_collect] while the main thread is inside [fetch_pending_recent], and
    one timer at a time), [request_recent_summary] and
    [fetch_pending_recent] behave as a mailbox with one slot: a fetch returns
    the snapshot that the latest timer took when it fired, unless a fetch or
    a new request came after it, and [None] otherwise. *)
Theorem pending_is_a_one_slot_mailbox (calls : list pending_call) (now : Q) :
  pending_run (calls ≫= pending_steps) (pending_init now) =
    mailbox_run calls (Idle, init now) [] None.
Proof. by apply (pending_serial calls (pending_init now)). Qed.

(** A timer that stores its snapshot and sets the event while the main
    thread is between l.188 and l.189: the fetch clears the event, the
    snapshot stays in [_pending_recent], and the next fetch returns [None]
    although no fetch returned that snapshot. *)
Lemma timer_inside_fetch_strands_snapshot :
  let happy := [Begin "happy" 1; Step; Step; Step] in
  let events := (OnDetector <$> happy) ++
                [Request 2 5; Request 2 5;
                 TimerStep 0 3; TimerStep 0 3; TimerStep 0 3;
                 FetchTests; FetchTakes;
                 TimerStep 1 4; TimerStep 1 4; TimerStep 1 4;
                 FetchClears;
                 FetchTests] in
  pending_run events (pending_init 0) = [Some [("happy", 2)]; None] ∧
  _pending_recent (foldl (λ p e, (pending_step e p).2) (pending_init 0) events)
    = Some [("happy", 3)].
Proof. split; reflexivity. Qed.

(** *** Instances *)

Lemma empty_window_empty_summary_witness :
  let s := {| current_emotion := Some "sad"; _span_start := 5;
              _emo_spans := []; _history_spans := [("neutral", 0, 2); ("happy", 2, 5)] |} in
  Forall (λ sp : string * Q * Q, sp.2 <= 10) (_history_spans s) ∧ 0 <= 0 ∧
  get_recent_summary 10 0 s = [].
Proof.
  intros s.
  assert (Forall (λ sp : string * Q * Q, sp.2 <= 10) (_history_spans s)) as H.
  { repeat constructor; discriminate. }
  assert (0 <= 0) as H0 by discriminate.
  split; [exact H|]. split; [exact H0|].
  exact (empty_window_empty_summary 10 0 s H H0).
Defined.

Lemma run_spans_last_a_period_witness :
  let model : option classifier :=
    Some (λ f, Py.Returns [mkDetection (if Nat.even f then "happy" else "sad")]) in
  let ticks := [Frame (Some 1%nat) 1; Frame None (11 # 10); Frame (Some 2%nat) (11 # 10);
                Frame (Some 2%nat) (13 # 10); Frame (Some 4%nat) (15 # 10);
                Frame (Some 3%nat) (18 # 10)] in
  current_emotion (init 0) = None ∧
  Forall (λ sp : string * Q * Q, 1 # 5 <= sp.2 - sp.1.2) (_history_spans (init 0)) ∧
  Forall (λ k, is_frame k = true) ticks ∧
  _history_spans (_run model 5 ticks (init 0)).2
    = [("sad", 1, 13 # 10); ("happy", 13 # 10, 18 # 10)] ∧
  Forall (λ sp : string * Q * Q, 1 # 5 <= sp.2 - sp.1.2)
         (_history_spans (_run model 5 ticks (init 0)).2).
Proof.
  intros model ticks.
  assert (Forall (λ k, is_frame k = true) ticks) as H by repeat constructor.
  split; [reflexivity|]. split; [constructor|]. split; [exact H|].
  split; [reflexivity|].
  apply (run_spans_last_a_period model 5 ticks (init 0)); [reflexivity | constructor | exact H].
Defined.

Lemma history_stays_time_ordered_witness :
  let calls := [Sample "happy" 1; Sample "sad" (2004 # 1000); SummaryAndReset (3008 # 1000);
                Sample "happy" 4] in
  let history := _history_spans (run_actions (serial calls) (Idle, init 0)).2.2 in
  nondecreasing 0 (call_time <$> calls) ∧
  history = [("happy", 1, 2004 # 1000); ("sad", 2004 # 1000, 3008 # 1000);
             ("sad", 3008 # 1000, 4)] ∧
  time_ordered history ∧
  Forall (λ sp, sp.2 <= default 0 (last (call_time <$> calls))) history.
Proof.
  intros calls.
  assert (nondecreasing 0 (call_time <$> calls)) as H.
  { simpl. repeat split; discriminate. }
  intros history. split; [exact H|]. split; [reflexivity|].
  exact (history_stays_time_ordered calls 0 H).
Defined.

End EmotionDetectorMore.

(** ** [src/main.py]: the helpers of a turn *)

Module MainMore.
Import Main MainScripts.

(** *** [_predominant_emotion] *)
Section PredominantEmotionFacts.
Context {num : Type}.
Variable zero : num.
Variable add : num → num → num.
Variable gtb : num → num → bool.

Lemma dict_get_set (d : @totals_dict num) k v k' dflt :
  dict_get (dict_set d k v) k' dflt =
    if String.eqb k k' then v else dict_get d k' dflt.
Proof.
  induction d as [|[k0 v0] d IH]; simpl.
  - done.
  - destruct (String.eqb k0 k) eqn:E0; simpl.
    + apply String.eqb_eq in E0. subst k0.
      by destruct (String.eqb k k').
    + destruct (String.eqb k0 k') eqn:E1; [|done].
      apply String.eqb_eq in E1. subst k0.
      by rewrite String.eqb_sym, E0.
Qed.

Lemma dict_keys_set (d : @totals_dict num) k v x :
  x ∈ (dict_set d k v).*1 ↔ x = k ∨ x ∈ d.*1.
Proof.
  induction d as [|[k0 v0] d IH]; simpl.
  - rewrite list_elem_of_singleton, elem_of_nil. tauto.
  - destruct (String.eqb k0 k) eqn:E0; simpl.
    + apply String.eqb_eq in E0. subst k0. rewrite !elem_of_cons. tauto.
    + rewrite !elem_of_cons, IH. tauto.
Qed.

Lemma fold_get spans e : ∀ acc,
  dict_get (foldl (add_span zero add) acc spans) e zero =
    foldl add (dict_get acc e zero) (filter (λ sp, sp.1 = e) spans).*2.
Proof.
  induction spans as [|[emo dur] spans IH]; intros acc; [done|].
  simpl. rewrite IH, dict_get_set.
  rewrite filter_cons. simpl. case_decide as Hd.
  - subst emo. by rewrite String.eqb_refl.
  - apply String.eqb_neq in Hd. by rewrite Hd.
Qed.

Lemma fold_keys spans x : ∀ acc,
  x ∈ (foldl (add_span zero add) acc spans).*1 ↔ x ∈ acc.*1 ∨ x ∈ spans.*1.
Proof.
  induction spans as [|[emo dur] spans IH]; intros acc; simpl.
  - rewrite elem_of_nil. tauto.
  - rewrite IH, dict_keys_set, elem_of_cons. tauto.
Qed.

Lemma totals_get spans e :
  dict_get (sum_by_label zero add spans) e zero = total_of zero add e spans.
Proof. unfold sum_by_label. by rewrite fold_get. Qed.

Lemma totals_keys spans x : x ∈ (sum_by_label zero add spans).*1 ↔ x ∈ spans.*1.
Proof. unfold sum_by_label. rewrite fold_keys, elem_of_nil. tauto. Qed.

Lemma max_by_elem f keys : ∀ first, max_by gtb f first keys ∈ first :: keys.
Proof.
  induction keys as [|k keys IH]; intros first; simpl.
  - apply list_elem_of_here.
  - specialize (IH (if gtb (f k) (f first) then k else first)).
    unfold max_by in IH. rewrite !elem_of_cons in *.
    destruct (gtb (f k) (f first)); tauto.
Qed.

Lemma max_by_maximal f :
  (∀ x, gtb x x = false) →
  (∀ x y z, gtb x y = true → gtb y z = true → gtb x z = true) →
  ∀ keys first seen,
    (∀ k, k ∈ seen → gtb (f k) (f first) = false) →
    ∀ k, k ∈ seen ++ first :: keys → gtb (f k) (f (max_by gtb f first keys)) = false.
Proof.
  intros Hirr Htr. induction keys as [|k0 keys IH]; intros first seen Hseen k Hk.
  - simpl. apply elem_of_app in Hk as [Hk|Hk]; [by apply Hseen|].
    apply list_elem_of_singleton in Hk. subst k. apply Hirr.
  - simpl. apply (IH _ (seen ++ [first; k0])).
    + intros k' Hk'. apply elem_of_app in Hk' as [Hk'|Hk'].
      * specialize (Hseen k' Hk').
        destruct (gtb (f k0) (f first)) eqn:E; [|done].
        destruct (gtb (f k') (f k0)) eqn:E'; [|done].
        by rewrite (Htr _ _ _ E' E) in Hseen.
      * apply elem_of_cons in Hk' as [->|Hk'].
        { destruct (gtb (f k0) (f first)) eqn:E; [|apply Hirr].
          destruct (gtb (f first) (f k0)) eqn:E'; [|done].
          pose proof (Htr _ _ _ E' E) as Hc. by rewrite Hirr in Hc. }
        apply list_elem_of_singleton in Hk'. subst k'.
        destruct (gtb (f k0) (f first)) eqn:E; [apply Hirr|done].
    + rewrite <- app_assoc. simpl.
      rewrite !elem_of_app, !elem_of_cons in *. tauto.
Qed.

(** X19.  When there are spans, the predominant emotion is the label of one
    of them: ["neutral"] is made up only for the empty list. *)
Theorem predominant_emotion_is_a_label (spans : list (string * num)) :
  spans ≠ [] → _predominant_emotion zero add gtb spans ∈ spans.*1.
Proof.
  intros Hne. unfold _predominant_emotion.
  destruct ((sum_by_label zero add spans).*1) as [|k keys] eqn:E.
  - destruct spans as [|[emo dur] spans]; [done|].
    assert (emo ∈ (sum_by_label zero add ((emo, dur) :: spans)).*1) as H.
    { apply totals_keys. simpl. apply list_elem_of_here. }
    rewrite E in H. by apply elem_of_nil in H.
  - apply totals_keys. rewrite E. apply max_by_elem.
Qed.

(** X20.  When [>] is a strict order on the totals (irreflexive and
    transitive, as it is on floats), no label has a total greater than that
    of the predominant emotion, the total of a label being its durations
    added up in the order of the spans. *)
Theorem predominant_emotion_is_maximal (spans : list (string * num)) (emo : string) :
  (∀ x, gtb x x = false) →
  (∀ x y z, gtb x y = true → gtb y z = true → gtb x z = true) →
  emo ∈ spans.*1 →
  gtb (total_of zero add emo spans)
      (total_of zero add (_predominant_emotion zero add gtb spans) spans) = false.
Proof.
  intros Hirr Htr He. rewrite <- !totals_get. unfold _predominant_emotion.
  apply totals_keys in He.
  destruct ((sum_by_label zero add spans).*1) as [|k keys] eqn:E.
  - by apply elem_of_nil in He.
  - apply (max_by_maximal (λ k, dict_get (sum_by_label zero add spans) k zero)
             Hirr Htr keys k []); [|done].
    intros k' Hk'. by apply elem_of_nil in Hk'.
Qed.

End PredominantEmotionFacts.

(** *** [_compute_recently_completed] *)

Ltac sets := try apply set_eq; set_unfold; intros; subst; tauto.

Section RecentlyCompletedFacts.
Variable int_ : string → option Z.
Variable answer_of : string → Z → option string.

#[local] Abbreviation visit := (MainScripts.visit int_ answer_of).
#[local] Abbreviation visit_all := (MainScripts.visit_all int_ answer_of).
#[local] Abbreviation _compute_recently_completed :=
  (MainScripts._compute_recently_completed int_ answer_of).

#[local] Abbreviation solved := (MainScripts.solved int_ answer_of).

Lemma visit_cases direction item r S r' S' :
  visit direction item (r, S) = Py.Returns (r', S') →
  (r' = r ∧ S' = S ∧ ∀ k, solved direction item k → k ∈ S) ∨
  (∃ k, r' = r ++ [k] ∧ S' = {[ k ]} ∪ S ∧ (k ∉ S) ∧ solved direction item k).
Proof.
  destruct item as [num_str pattern]. unfold visit, solved. simpl.
  destruct (String.eqb num_str "undefined") eqn:E1; simpl.
  { apply String.eqb_eq in E1. intros [= <- <-]. left.
    split; [done|]. split; [done|]. intros k [H _]. done. }
  destruct (String.eqb pattern EmptyString) eqn:E2; simpl.
  { apply String.eqb_eq in E2. intros [= <- <-]. left.
    split; [done|]. split; [done|]. intros k (_ & H & _). done. }
  destruct (has_zero pattern) eqn:E3; simpl.
  { intros [= <- <-]. left.
    split; [done|]. split; [done|]. intros k (_ & _ & H & _). done. }
  apply String.eqb_neq in E1, E2.
  destruct (int_ num_str) as [num|] eqn:E4; [|done].
  destruct (answer_of (dir_letter direction) num) as [answer|] eqn:E5.
  2:{ intros [= <- <-]. left. split; [done|]. split; [done|].
      intros [l n] (_ & _ & _ & Hn & Hl & Ha). simpl in *.
      injection Hn as <-. subst l. by rewrite E5 in Ha. }
  destruct (String.eqb answer EmptyString) eqn:E6; simpl.
  { apply String.eqb_eq in E6. subst answer.
    intros [= <- <-]. left. split; [done|]. split; [done|].
    intros [l n] (_ & _ & _ & Hn & Hl & Ha). simpl in *.
    injection Hn as <-. subst l. rewrite E5 in Ha. by injection Ha as <-. }
  destruct (String.eqb pattern answer) eqn:E7; simpl.
  2:{ apply String.eqb_neq in E7.
      intros [= <- <-]. left. split; [done|]. split; [done|].
      intros [l n] (_ & _ & _ & Hn & Hl & Ha). simpl in *.
      injection Hn as <-. subst l. rewrite E5 in Ha. by injection Ha as <-. }
  apply String.eqb_eq in E7. subst answer.
  case_bool_decide as Hin; simpl.
  - intros [= <- <-]. left. split; [done|]. split; [done|].
    intros [l n] (_ & _ & _ & Hn & Hl & Ha). simpl in *.
    injection Hn as <-. by subst l.
  - intros [= <- <-]. right. exists (dir_letter direction, num). done.
Qed.

(** What a returning scan of one direction did. *)
Lemma visit_all_spec direction items : ∀ r S r' S',
  visit_all direction items (r, S) = (Py.Returns r', S') →
  ∃ new, r' = r ++ new ∧ S' = list_to_set new ∪ S ∧ NoDup new ∧
         (∀ k, k ∈ new → (k ∉ S) ∧ ∃ item, item ∈ items ∧ solved direction item k) ∧
         (∀ item k, item ∈ items → solved direction item k → k ∈ S').
Proof.
  induction items as [|item items IH]; intros r S r' S'; simpl.
  - intros [= <- <-]. exists []. rewrite app_nil_r.
    split; [done|]. split; [sets|]. split; [constructor|].
    split; [intros k Hk|intros item k Hi]; by apply elem_of_nil in Hk || by apply elem_of_nil in Hi.
  - destruct (visit direction item (r, S)) as [[r1 S1]|e] eqn:Hv; [|done].
    intros Hall. destruct (IH _ _ _ _ Hall) as (new & -> & -> & Hnd & Hnew & Hdone).
    apply visit_cases in Hv as [(-> & -> & Hin)|(k & -> & -> & Hk & Hsol)].
    + exists new. split; [done|]. split; [done|]. split; [done|]. split.
      * intros k Hk. destruct (Hnew k Hk) as (? & item' & ? & ?).
        split; [done|]. exists item'. split; [by apply list_elem_of_further|done].
      * intros item' k [->|Hi]%elem_of_cons Hs; [|by eapply Hdone].
        apply elem_of_union_r. by apply Hin.
    + exists (k :: new). rewrite <- app_assoc. split; [done|].
      split; [sets|]. split.
      { constructor; [|done]. intros Hkn. apply Hnew in Hkn as [Hkn _]. sets. }
      split.
      * intros k' [->|Hk']%elem_of_cons.
        { split; [done|]. exists item. split; [apply list_elem_of_here|done]. }
        destruct (Hnew k' Hk') as (Hn & item' & ? & ?).
        split; [sets|]. exists item'.
        split; [by apply list_elem_of_further|done].
      * intros item' k' [->|Hi]%elem_of_cons Hs; [|by eapply Hdone].
        assert (k' = k) as ->; [|sets].
        destruct Hs as (_ & _ & _ & Hn & Hl & _), Hsol as (_ & _ & _ & Hn' & Hl' & _).
        destruct k, k'. simpl in *. congruence.
Qed.

(** Whether the scan returns or raises, the set only grows. *)
Lemma visit_all_grows direction items : ∀ acc,
  acc.2 ⊆ (visit_all direction items acc).2.
Proof.
  induction items as [|item items IH]; intros [r S]; simpl; [done|].
  destruct (visit direction item (r, S)) as [[r1 S1]|e] eqn:Hv; [|done].
  etrans; [|apply IH]. simpl.
  apply visit_cases in Hv as [(-> & -> & _)|(k & -> & -> & _)]; sets.
Qed.

(** A scan that returned returns again, and changes nothing, on any larger
    set. *)
Lemma visit_all_again direction items : ∀ r S r' S',
  visit_all direction items (r, S) = (Py.Returns r', S') →
  ∀ r2 S2, S' ⊆ S2 → visit_all direction items (r2, S2) = (Py.Returns r2, S2).
Proof.
  induction items as [|item items IH]; intros r S r' S'; simpl; [done|].
  destruct (visit direction item (r, S)) as [[r1 S1]|e] eqn:Hv; [|done].
  intros Hall r2 S2 Hsub.
  assert (S1 ⊆ S2) as Hsub1.
  { etrans; [|exact Hsub].
    pose proof (visit_all_grows direction items (r1, S1)) as Hg.
    by rewrite Hall in Hg. }
  assert (visit direction item (r2, S2) = Py.Returns (r2, S2)) as ->.
  { revert Hv. destruct item as [num_str pattern]. unfold visit.
    destruct (_ || _ || _); [done|].
    destruct (int_ num_str) as [num|]; [|done].
    destruct (answer_of _ num) as [answer|]; [|done].
    destruct (negb _ && _); simpl; [|done].
    case_bool_decide as Hin; simpl; intros [= <- <-];
      (case_bool_decide as Hin2; simpl; [done|]); exfalso; apply Hin2, Hsub1.
    - done.
    - by apply elem_of_union_l, elem_of_singleton. }
  by eapply IH.
Qed.

(** X21.  The keys that [_compute_recently_completed] returns are distinct,
    none of them was in [completed_set], each belongs to an entry of the
    state whose pattern is the answer of its clue, and [completed_set]
    afterwards is the old set with exactly these keys added. *)
Theorem recently_completed_are_new state completed_set recently completed_set' :
  _compute_recently_completed state completed_set = (Py.Returns recently, completed_set') →
  NoDup recently ∧
  completed_set' = list_to_set recently ∪ completed_set ∧
  ∀ k, k ∈ recently →
    (k ∉ completed_set) ∧
    ∃ direction item, direction ∈ ["across"; "down"] ∧
      item ∈ items_of state direction ∧ solved direction item k.
Proof.
  unfold MainScripts._compute_recently_completed.
  destruct (visit_all "across" _ _) as [[r1|e] S1] eqn:H1; [|done].
  intros H2.
  apply visit_all_spec in H1 as (new1 & -> & -> & Hnd1 & Hnew1 & _).
  apply visit_all_spec in H2 as (new2 & -> & -> & Hnd2 & Hnew2 & _).
  simpl. split.
  { apply NoDup_app. split; [done|]. split; [|done].
    intros k Hk1 Hk2. apply Hnew2 in Hk2 as [Hk2 _]. sets. }
  split; [sets|].
  intros k [Hk|Hk]%elem_of_app.
  - destruct (Hnew1 k Hk) as (? & item & ? & ?). split; [done|].
    exists "across", item. split; [apply list_elem_of_here|done].
  - destruct (Hnew2 k Hk) as (? & item & ? & ?). split; [sets|].
    exists "down", item.
    split; [apply list_elem_of_further, list_elem_of_here|done].
Qed.

(** X22.  After a call that returned, every solved entry of the state is in
    [completed_set], whether the call reported it or an earlier one did. *)
Theorem solved_entries_are_completed state completed_set recently completed_set'
    direction item k :
  _compute_recently_completed state completed_set = (Py.Returns recently, completed_set') →
  direction ∈ ["across"; "down"] →
  item ∈ items_of state direction → solved direction item k →
  k ∈ completed_set'.
Proof.
  unfold MainScripts._compute_recently_completed.
  destruct (visit_all "across" _ _) as [[r1|e] S1] eqn:H1; [|done].
  intros H2 Hd Hi Hs.
  pose proof (visit_all_grows "down" (items_of state "down") (r1, S1)) as Hg.
  rewrite H2 in Hg. simpl in Hg.
  apply visit_all_spec in H1 as (new1 & -> & -> & _ & _ & Hdone1).
  apply visit_all_spec in H2 as (new2 & _ & -> & _ & _ & Hdone2).
  apply elem_of_cons in Hd as [->|Hd].
  - apply Hg. by eapply Hdone1.
  - apply list_elem_of_singleton in Hd as ->. by eapply Hdone2.
Qed.

(** X23.  A completion is reported once: called again on the same state
    with the set it has updated, the function returns the empty list and
    leaves the set as it is. *)
Theorem completion_is_reported_once state completed_set recently completed_set' :
  _compute_recently_completed state completed_set = (Py.Returns recently, completed_set') →
  _compute_recently_completed state completed_set' = (Py.Returns [], completed_set').
Proof.
  unfold MainScripts._compute_recently_completed.
  destruct (visit_all "across" _ ([], completed_set)) as [[r1|e] S1] eqn:H1; [|done].
  intros H2.
  pose proof (visit_all_grows "down" (items_of state "down") (r1, S1)) as Hg.
  rewrite H2 in Hg. simpl in Hg.
  rewrite (visit_all_again _ _ _ _ _ _ H1 [] completed_set' Hg).
  by rewrite (visit_all_again _ _ _ _ _ _ H2 [] completed_set').
Qed.

End RecentlyCompletedFacts.

(** *** Instances *)

Lemma gt_irrefl (x : Q) : Py.ltb x x = false.
Proof. apply EmotionDetectorMore.ltb_false. apply Qle_refl. Qed.

Lemma gt_trans (x y z : Q) :
  Py.ltb y x = true → Py.ltb z y = true → Py.ltb z x = true.
Proof.
  rewrite !EmotionDetectorMore.ltb_true. intros H1 H2.
  eapply Qlt_trans; [exact H2 | exact H1].
Qed.

Lemma predominant_emotion_is_a_label_witness :
  let spans := [("happy", 3 # 2); ("sad", 2); ("happy", 1)]%Q in
  spans ≠ [] ∧
  _predominant_emotion 0%Q Qplus (λ x y, Py.ltb y x) spans ∈ spans.*1.
Proof.
  intros spans.
  assert (spans ≠ []) as H by discriminate.
  split; [exact H|].
  exact (predominant_emotion_is_a_label 0%Q Qplus (λ x y, Py.ltb y x) spans H).
Defined.

Lemma predominant_emotion_is_maximal_witness :
  let gtb := (λ x y : Q, Py.ltb y x) in
  let spans := [("happy", 3 # 2); ("sad", 2); ("happy", 1)]%Q in
  (∀ x, gtb x x = false) ∧
  (∀ x y z, gtb x y = true → gtb y z = true → gtb x z = true) ∧
  "sad" ∈ spans.*1 ∧
  gtb (total_of 0%Q Qplus "sad" spans)
      (total_of 0%Q Qplus (_predominant_emotion 0%Q Qplus gtb spans) spans) = false.
Proof.
  intros gtb spans.
  assert ("sad" ∈ spans.*1) as H.
  { simpl. apply list_elem_of_further, list_elem_of_here. }
  split; [exact gt_irrefl|]. split; [exact gt_trans|]. split; [exact H|].
  exact (predominant_emotion_is_maximal 0%Q Qplus gtb spans "sad" gt_irrefl gt_trans H).
Defined.

Lemma recently_completed_are_new_witness :
  let int_ := (λ num_str : string,
                 if String.eqb num_str "1" then Some 1%Z
                 else if String.eqb num_str "4" then Some 4%Z else None) in
  let answer_of := (λ (letter : string) (num : Z),
                 if String.eqb letter "A" && (num =? 1)%Z then Some "CUBA"
                 else if String.eqb letter "A" && (num =? 4)%Z then Some "BRAZIL"
                 else if String.eqb letter "D" && (num =? 1)%Z then Some "CAMBODIA"
                 else None) in
  let state := [("across", [("1", "CUBA"); ("4", "BRA000"); ("undefined", "X")]);
                ("down", [("1", "CAMBODIA")])] in
  let completed_set : gset key := {[ ("D", 1%Z) ]} in
  let completed_set' : gset key :=
    (_compute_recently_completed int_ answer_of state completed_set).2 in
  let recently := [("A", 1%Z)] in
  _compute_recently_completed int_ answer_of state completed_set
    = (Py.Returns recently, completed_set') ∧
  NoDup recently ∧
  completed_set' = list_to_set recently ∪ completed_set ∧
  ∀ k, k ∈ recently →
    (k ∉ completed_set) ∧
    ∃ direction item, direction ∈ ["across"; "down"] ∧
      item ∈ items_of state direction ∧ solved int_ answer_of direction item k.
Proof.
  intros int_ answer_of state completed_set completed_set' recently.
  assert (_compute_recently_completed int_ answer_of state completed_set
            = (Py.Returns recently, completed_set')) as H by reflexivity.
  split; [exact H|].
  exact (recently_completed_are_new int_ answer_of state completed_set recently
           completed_set' H).
Defined.

Lemma solved_entries_are_completed_witness :
  let int_ := (λ num_str : string,
                 if String.eqb num_str "1" then Some 1%Z
                 else if String.eqb num_str "4" then Some 4%Z else None) in
  let answer_of := (λ (letter : string) (num : Z),
                 if String.eqb letter "A" && (num =? 1)%Z then Some "CUBA"
                 else if String.eqb letter "A" && (num =? 4)%Z then Some "BRAZIL"
                 else if String.eqb letter "D" && (num =? 1)%Z then Some "CAMBODIA"
                 else None) in
  let state := [("across", [("1", "CUBA"); ("4", "BRA000"); ("undefined", "X")]);
                ("down", [("1", "CAMBODIA")])] in
  let completed_set : gset key := {[ ("D", 1%Z) ]} in
  let completed_set' : gset key :=
    (_compute_recently_completed int_ answer_of state completed_set).2 in
  _compute_recently_completed int_ answer_of state completed_set
    = (Py.Returns [("A", 1%Z)], completed_set') ∧
  "down" ∈ ["across"; "down"] ∧
  ("1", "CAMBODIA") ∈ items_of state "down" ∧
  solved int_ answer_of "down" ("1", "CAMBODIA") ("D", 1%Z) ∧
  ("D", 1%Z) ∈ completed_set'.
Proof.
  intros int_ answer_of state completed_set completed_set'.
  assert (_compute_recently_completed int_ answer_of state completed_set
            = (Py.Returns [("A", 1%Z)], completed_set')) as H by reflexivity.
  assert ("down" ∈ ["across"; "down"]) as Hd.
  { apply list_elem_of_further, list_elem_of_here. }
  assert (("1", "CAMBODIA") ∈ items_of state "down") as Hi.
  { simpl. apply list_elem_of_here. }
  assert (solved int_ answer_of "down" ("1", "CAMBODIA") ("D", 1%Z)) as Hs.
  { unfold solved. simpl. repeat split; discriminate || reflexivity. }
  split; [exact H|]. split; [exact Hd|]. split; [exact Hi|]. split; [exact Hs|].
  exact (solved_entries_are_completed int_ answer_of state completed_set _
           completed_set' "down" ("1", "CAMBODIA") ("D", 1%Z) H Hd Hi Hs).
Defined.

Lemma completion_is_reported_once_witness :
  let int_ := (λ num_str : string,
                 if String.eqb num_str "1" then Some 1%Z
                 else if String.eqb num_str "4" then Some 4%Z else None) in
  let answer_of := (λ (letter : string) (num : Z),
                 if String.eqb letter "A" && (num =? 1)%Z then Some "CUBA"
                 else if String.eqb letter "A" && (num =? 4)%Z then Some "BRAZIL"
                 else if String.eqb letter "D" && (num =? 1)%Z then Some "CAMBODIA"
                 else None) in
  let state := [("across", [("1", "CUBA"); ("4", "BRA000"); ("undefined", "X")]);
                ("down", [("1", "CAMBODIA")])] in
  let completed_set' : gset key :=
    (_compute_recently_completed int_ answer_of state ∅).2 in
  _compute_recently_completed int_ answer_of state ∅
    = (Py.Returns [("A", 1%Z); ("D", 1%Z)], completed_set') ∧
  _compute_recently_completed int_ answer_of state completed_set'
    = (Py.Returns [], completed_set').
Proof.
  intros int_ answer_of state completed_set'.
  assert (_compute_recently_completed int_ answer_of state ∅
            = (Py.Returns [("A", 1%Z); ("D", 1%Z)], completed_set')) as H by reflexivity.
  split; [exact H|].
  exact (completion_is_reported_once int_ answer_of state ∅ _ completed_set' H).
Defined.

End MainMore.

(** ** Bounded deques *)

Module DequeFacts.
Section DequeFacts.
Context {A : Type}.
Implicit Types d xs : list A.

Lemma append_lastn maxlen d x :
  length d ≤ maxlen → Deque.append maxlen d x = lastn maxlen (d ++ [x]).
Proof.
  intros Hd. unfold Deque.append, lastn. rewrite length_app. simpl.
  case_decide.
  - f_equal. lia.
  - replace (length d + 1 - maxlen) with 0 by lia. done.
Qed.

Lemma extend_lastn maxlen xs : ∀ d,
  length d ≤ maxlen → Deque.extend maxlen d xs = lastn maxlen (d ++ xs).
Proof.
  induction xs as [|x xs IH]; intros d Hd; simpl.
  - rewrite app_nil_r. by rewrite lastn_all.
  - unfold Deque.extend in *. simpl. rewrite IH.
    + rewrite append_lastn by done.
      rewrite (cons_middle x d xs), app_assoc.
      destruct (decide (length xs ≤ maxlen)).
      * rewrite !(lastn_app_le maxlen _ xs) by done.
        rewrite lastn_lastn. f_equal. f_equal. lia.
      * rewrite !(lastn_app_ge maxlen _ xs) by lia. done.
    + rewrite append_lastn by done. rewrite length_lastn. lia.
Qed.

End DequeFacts.
End DequeFacts.

(** ** [src/audio/robot_speech_tracker.py] *)

Module RobotSpeechTrackerMore.
Import RobotSpeechTracker.

Section TrackerFacts.
Variable _similar : string → string → bool.

#[local] Abbreviation strip_loop := (RobotSpeechTracker.strip_loop _similar).
#[local] Abbreviation strip_from := (RobotSpeechTracker.strip_from _similar).
#[local] Abbreviation window_matches := (RobotSpeechTracker.window_matches _similar).

Lemma window_matches_length fuzzy window robot_words :
  window_matches fuzzy window robot_words = true → length window = length robot_words.
Proof.
  unfold RobotSpeechTracker.window_matches. intros [H _]%andb_prop.
  by apply bool_decide_eq_true in H.
Qed.

Lemma window_matches_refl fuzzy words : window_matches fuzzy words words = true.
Proof.
  unfold RobotSpeechTracker.window_matches. rewrite bool_decide_eq_true_2 by done.
  simpl. induction words as [|w words IH]; [done|].
  simpl. rewrite IH. by rewrite bool_decide_eq_true_2.
Qed.

Lemma slice_length (user_words : list string) i n :
  i ≤ length user_words →
  length (Py.slice user_words i (i + n)) = n → i + n ≤ length user_words.
Proof. unfold Py.slice. rewrite length_take, length_drop. lia. Qed.

(** What the loop does from index [i] on, with enough fuel. *)
Lemma strip_loop_spec fuzzy user_words robot_words :
  robot_words ≠ [] →
  ∀ fuel i out,
    i ≤ length user_words → length user_words - i ≤ fuel →
    ∃ res k,
      strip_loop fuel fuzzy user_words robot_words out i = Some (out ++ res) ∧
      sublist res (drop i user_words) ∧
      length user_words - i = length res + k * length robot_words.
Proof.
  intros Hne. assert (0 < length robot_words) as Hn.
  { destruct robot_words; [done|simpl; lia]. }
  induction fuel as [|fuel IH]; intros i out Hi Hfuel.
  - exists [], 0. simpl. case_decide; [lia|].
    rewrite app_nil_r. split; [done|]. split; [|lia].
    rewrite drop_ge by lia. constructor.
  - simpl. case_decide as Hlt.
    2:{ exists [], 0. rewrite app_nil_r. split; [done|]. split; [|simpl; lia].
        rewrite drop_ge by lia. constructor. }
    destruct (RobotSpeechTracker.window_matches _ _ _ _) eqn:Hm.
    + apply window_matches_length, slice_length in Hm; [|lia].
      destruct (IH (i + length robot_words) out) as (res & k & -> & Hsub & Hlen);
        [lia..|].
      exists res, (S k). split; [done|]. split; [|lia].
      rewrite <- drop_drop in Hsub. etrans; [exact Hsub|apply sublist_drop].
    + destruct (lookup_lt_is_Some_2 user_words i Hlt) as [w Hw]. rewrite Hw. simpl.
      destruct (IH (i + 1) (out ++ [w])) as (res & k & -> & Hsub & Hlen); [lia..|].
      exists (w :: res), k. rewrite <- app_assoc. split; [done|].
      rewrite (drop_S _ _ _ Hw). replace (S i) with (i + 1) by lia.
      split; [by constructor|]. simpl. lia.
Qed.

(** X24.  [strip_from] always returns, and what it returns is the input
    with whole chunks removed: a subsequence of [user_words] that is shorter
    by a multiple of the number of robot words. *)
Theorem strip_from_removes_whole_chunks (user_words : list string) (fuzzy : bool) (s : t) :
  ∃ out k,
    strip_from user_words fuzzy s = Some out ∧
    sublist out user_words ∧
    length user_words = length out + k * length (copy s).
Proof.
  unfold RobotSpeechTracker.strip_from.
  destruct (copy s) as [|w0 robot_words] eqn:Hc.
  - exists user_words, 0. split; [done|]. split; [done|lia].
  - destruct (strip_loop_spec fuzzy user_words (w0 :: robot_words) ltac:(done)
                (length user_words) 0 []) as (res & k & -> & Hsub & Hlen); [lia..|].
    exists res, k. split; [done|]. split; [done|lia].
Qed.

(** The loop only looks at the words from index [i] on. *)
Lemma strip_loop_suffix fuzzy user_words robot_words i :
  ∀ fuel j out,
    strip_loop fuel fuzzy user_words robot_words out (i + j) =
    strip_loop fuel fuzzy (drop i user_words) robot_words out j.
Proof.
  induction fuel as [|fuel IH]; intros j out; simpl; rewrite length_drop.
  - repeat case_decide; done || lia.
  - assert (Py.slice user_words (i + j) (i + j + length robot_words) =
            Py.slice (drop i user_words) j (j + length robot_words)) as ->.
    { unfold Py.slice. rewrite drop_drop. f_equal. lia. }
    rewrite lookup_drop.
    repeat case_decide; try lia; try done.
    destruct (RobotSpeechTracker.window_matches _ _ _ _).
    + rewrite <- IH. f_equal. lia.
    + destruct (user_words !! (i + j)) as [w|]; [|done]. simpl.
      rewrite <- IH. f_equal. lia.
Qed.

(** More fuel does not change a result. *)
Lemma strip_loop_fuel fuzzy user_words robot_words :
  ∀ fuel fuel' i out res,
    strip_loop fuel fuzzy user_words robot_words out i = Some res → fuel ≤ fuel' →
    strip_loop fuel' fuzzy user_words robot_words out i = Some res.
Proof.
  induction fuel as [|fuel IH]; intros fuel' i out res; simpl.
  - case_decide; [done|]. intros [= <-] _.
    destruct fuel'; simpl; by case_decide.
  - case_decide as Hlt.
    2:{ intros [= <-] _. destruct fuel'; simpl; by case_decide. }
    intros Hl Hf. destruct fuel' as [|fuel']; [lia|]. simpl.
    case_decide; [|done].
    destruct (RobotSpeechTracker.window_matches _ _ _ _).
    + apply IH; [done|lia].
    + destruct (user_words !! i) as [w|]; [|done]. simpl in *.
      apply IH; [done|lia].
Qed.

(** X25.  An echo at the start of the input is removed: when [user_words]
    begins with the tracked robot words, [strip_from] returns what it
    returns on the rest. *)
Theorem leading_echo_is_removed (rest : list string) (fuzzy : bool) (s : t) :
  strip_from (copy s ++ rest) fuzzy s = strip_from rest fuzzy s.
Proof.
  unfold RobotSpeechTracker.strip_from.
  destruct (copy s) as [|w0 robot_words] eqn:Hc; [done|].
  set (robot := w0 :: robot_words). set (user := robot ++ rest).
  assert (robot ≠ []) as Hne by done.
  destruct (strip_loop_spec fuzzy rest robot Hne (length rest) 0 [])
    as (res & k & Hres & _); [lia..|].
  rewrite Hres.
  assert (length user = S (length robot_words + length rest)) as Hlen.
  { unfold user, robot. rewrite length_app. simpl. lia. }
  rewrite Hlen.
  change (strip_loop (S ?f) fuzzy user robot [] 0)
    with (if decide (0 < length user) then
            if window_matches fuzzy (Py.slice user 0 (0 + length robot)) robot
            then strip_loop f fuzzy user robot [] (0 + length robot)
            else w ← user !! 0; strip_loop f fuzzy user robot ([] ++ [w]) (0 + 1)
          else Some []).
  rewrite decide_True by lia.
  assert (Py.slice user 0 (0 + length robot) = robot) as ->.
  { unfold Py.slice. rewrite drop_0.
    replace (0 + length robot - 0) with (length robot) by lia.
    apply take_app_length. }
  rewrite window_matches_refl.
  replace (0 + length robot) with (length robot + 0) by lia.
  rewrite strip_loop_suffix. unfold user. rewrite drop_app_length.
  apply (strip_loop_fuel _ _ _ (length rest)); [done|lia].
Qed.

(** X26.  [set] keeps the last [max_words] words of what the robot says:
    the start of a longer utterance is not tracked. *)
Theorem set_keeps_the_last_words (words : list string) (s : t) :
  copy (set words s) = lastn (max_words s) words.
Proof.
  unfold copy, set. simpl.
  rewrite DequeFacts.extend_lastn by (simpl; lia). done.
Qed.

End TrackerFacts.
End RobotSpeechTrackerMore.

(** ** [src/video/camera_stream.py] *)

Module CameraStreamMore.
Import CameraStream.

Lemma run_buffer_size ops : ∀ s, buffer_size (run ops s).1 = buffer_size s.
Proof.
  induction ops as [|o ops IH]; intros s; [done|].
  simpl. destruct (step o s) as [s1 calls] eqn:Hs.
  specialize (IH s1). destruct (run ops s1) as [s2 calls']. simpl in *.
  rewrite IH. destruct o as [[f|]|c|c]; simpl in Hs.
  - by injection Hs as <- _.
  - by injection Hs as <- _.
  - by injection Hs as <- _.
  - injection Hs as <- _. unfold remove_frame_listener. by case_bool_decide.
Qed.

Lemma run_frames n ops : ∀ s hist,
  buffer_size s = n →
  frame_buffer s = lastn n hist → latest_frame s = last hist →
  frame_buffer (run ops s).1 = lastn n (hist ++ captured ops) ∧
  latest_frame (run ops s).1 = last (hist ++ captured ops).
Proof.
  induction ops as [|o ops IH]; intros s hist Hn Hb Hl.
  - simpl. by rewrite app_nil_r.
  - simpl. destruct (step o s) as [s1 calls] eqn:Hs.
    destruct (run ops s1) as [s2 calls'] eqn:Hr. simpl.
    assert (s2 = (run ops s1).1) as -> by by rewrite Hr.
    clear Hr.
    destruct o as [[f|]|c|c]; simpl in Hs; injection Hs as <- _; unfold captured; simpl.
    + rewrite cons_middle, app_assoc.
      apply IH; simpl; [done| |by rewrite last_snoc].
      rewrite Hb, Hn. rewrite DequeFacts.append_lastn by (rewrite length_lastn; lia).
      apply AudioStreamMore.lastn_lastn_app.
    + by apply IH.
    + by apply IH.
    + unfold remove_frame_listener. case_bool_decide; by apply IH.
Qed.

(** X27.  Whatever the order of reads and registrations, the frame buffer
    holds the last [buffer_size] frames that were read successfully, and
    [get_frame] gives the last one ([None] before the first). *)
Theorem frame_buffer_holds_recent_frames (buffer_size : nat) (ops : list op) :
  get_latest_frames (run ops (init buffer_size)).1 = lastn buffer_size (captured ops) ∧
  get_frame (run ops (init buffer_size)).1 = last (captured ops).
Proof. by apply (run_frames buffer_size ops (init buffer_size) []). Qed.

Lemma filter_list_remove (cb c : listener) l :
  c ≠ cb → filter (λ x, x = cb) (list_remove c l) = filter (λ x, x = cb) l.
Proof.
  intros Hc. induction l as [|y l IH]; [done|]. simpl. case_decide.
  - subst y. by rewrite filter_cons_False.
  - rewrite !filter_cons. by rewrite IH.
Qed.

Lemma update_calls (cb : listener) f l :
  (filter (λ c : listener * frame, c.1 = cb) ((λ callback, (callback, f)) <$> l)).*2 =
  (λ _, f) <$> filter (λ x, x = cb) l.
Proof.
  induction l as [|y l IH]; [done|].
  rewrite fmap_cons, !filter_cons. cbn [fst].
  destruct (decide (y = cb)); [rewrite !fmap_cons|]; by rewrite IH.
Qed.

Lemma run_calls_to cb ops : ∀ s,
  Forall (untouched cb) ops →
  filter (λ x, x = cb) (listeners s) = [cb] →
  (filter (λ c : listener * frame, c.1 = cb) (run ops s).2).*2 = captured ops.
Proof.
  induction ops as [|o ops IH]; intros s Hops Hcb; [done|].
  inversion Hops as [|?? Ho Hops']; subst.
  simpl. destruct (step o s) as [s1 calls] eqn:Hs.
  specialize (IH s1 Hops'). destruct (run ops s1) as [s2 calls']. simpl in *.
  rewrite filter_app, fmap_app.
  destruct o as [[f|]|c|c]; simpl in Hs; injection Hs as <- <-; unfold captured; simpl.
  - rewrite update_calls, Hcb. simpl. f_equal. by apply IH.
  - by apply IH.
  - apply IH. simpl. rewrite filter_app, Hcb, filter_cons_False by done. done.
  - apply IH. unfold remove_frame_listener. case_bool_decide; [|done].
    simpl. by rewrite filter_list_remove.
Qed.

(** X28.  A listener that is registered once and left alone is called with
    every frame that is read from then on, once each and in order, whatever
    other listeners are added or removed in between. *)
Theorem listener_gets_every_frame (buffer_size : nat) (cb : listener)
    (before after : list op) :
  Forall (untouched cb) before → Forall (untouched cb) after →
  let s := add_frame_listener cb (run before (init buffer_size)).1 in
  (filter (λ c : listener * frame, c.1 = cb) (run after s).2).*2 = captured after.
Proof.
  intros Hb Ha s. apply run_calls_to; [done|].
  unfold s. simpl. rewrite filter_app, filter_cons_True by done.
  assert (∀ ops s0, Forall (untouched cb) ops →
            filter (λ x, x = cb) (listeners s0) = [] →
            filter (λ x, x = cb) (listeners (run ops s0).1) = []) as Hnone.
  { clear. induction ops as [|o ops IH]; intros s0 Hops H0; [done|].
    inversion Hops as [|?? Ho Hops']; subst.
    simpl. destruct (step o s0) as [s1 calls] eqn:Hs.
    specialize (IH s1 Hops'). destruct (run ops s1) as [s2 calls']. simpl in *.
    apply IH.
    destruct o as [[f|]|c|c]; simpl in Hs; injection Hs as <- _; simpl; try done.
    - by rewrite filter_app, H0, filter_cons_False.
    - unfold remove_frame_listener. case_bool_decide; [|done].
      simpl. by rewrite filter_list_remove. }
  by rewrite Hnone.
Qed.

Lemma listener_gets_every_frame_witness :
  let before := [Read (Some 1); AddListener 7; Read (Some 2)] in
  let after := [Read (Some 3); Read None; AddListener 8; RemoveListener 7;
                AddListener 5; Read (Some 4); RemoveListener 8; Read (Some 5)] in
  let s := add_frame_listener 9 (run before (init 2)).1 in
  Forall (untouched 9) before ∧ Forall (untouched 9) after ∧
  (filter (λ c : listener * frame, c.1 = 9) (run after s).2).*2 = captured after.
Proof.
  intros before after.
  assert (Forall (untouched 9) before) as Hb.
  { repeat constructor; simpl; lia. }
  assert (Forall (untouched 9) after) as Ha.
  { repeat constructor; simpl; lia. }
  intros s. split; [exact Hb|]. split; [exact Ha|].
  exact (listener_gets_every_frame 2 9 before after Hb Ha).
Defined.

End CameraStreamMore.

(** ** [src/prompt/prompt_builder_emotions.py] *)

Module PromptBuilderMore.
Import PromptBuilder MainScripts.

Lemma is_zero_underscore : is_zero (Ascii.ascii_of_nat 95) = false.
Proof. done. Qed.

(** X29.  [_pattern_pretty] keeps the length of a pattern and leaves no
    ["0"] in it, so that [_letters_filled] counts every cell of a pretty
    pattern as filled; a pattern without ["0"] is left as it is. *)
Theorem pattern_pretty_hides_zeros (pattern : string) :
  String.length (_pattern_pretty pattern) = String.length pattern ∧
  has_zero (_pattern_pretty pattern) = false ∧
  _letters_filled (_pattern_pretty pattern) = String.length pattern ∧
  (has_zero pattern = false → _pattern_pretty pattern = pattern).
Proof.
  induction pattern as [|ch pattern (IH1 & IH2 & IH3 & IH4)]; [done|].
  simpl. rewrite IH1, IH2, IH3. fold (is_zero ch).
  destruct (is_zero ch) eqn:E.
  - split; [done|]. split; [done|]. split; [done|]. done.
  - fold (is_zero ch). rewrite E. split; [done|]. split; [done|]. split; [done|].
    simpl. intros H. by rewrite IH4.
Qed.

(** X30.  [_letters_filled] counts the cells that are not ["0"]: it reaches
    the length of the pattern exactly when ["0" in pattern] is false. *)
Theorem letters_filled_all_iff (pattern : string) :
  _letters_filled pattern ≤ String.length pattern ∧
  (_letters_filled pattern = String.length pattern ↔ has_zero pattern = false).
Proof.
  induction pattern as [|ch pattern [IH1 IH2]]; [done|].
  simpl. fold (is_zero ch). destruct (is_zero ch); simpl.
  - split; [lia|]. split; [lia|done].
  - split; [lia|]. rewrite <- IH2. split; lia.
Qed.

End PromptBuilderMore.
